(** * glidemq-dashboard: the gateway of [src/index.ts]

    A shallow embedding of [createDashboard]: the mutation guard, the route
    handlers over a queue registry, pagination and validation of request
    parameters, and the subscription life cycle of the event stream.

    Conventions of the embedding.
    - JavaScript numbers that the handlers compute with all come out of
      [parseInt(_, 10)], so they are integers or NaN: such a number is a [Z],
      NaN is [None].  The sign of zero is not tracked ([-0] and [0] behave
      alike under [||], [<], [>], [Math.min] and [+]) and neither is the
      rounding of a parsed number above 2^53.
    - A number inside a value (a request body, a job) is [VNum z] when it is
      an integer of magnitude at most 2^53, which a double holds exactly and
      prints digit by digit, and [VFloat printed] otherwise, [printed] being
      what [String] prints for it: the handlers do nothing with such a
      number but print it and parse the text.
    - Strings are [string]; only the ASCII white space is known to
      [parseInt].
    - Converting a value to a string can throw; a handler that throws outside
      a [try] writes no response.
    - An engine call either resolves with a value or rejects with a thrown
      value; every call a handler issues is recorded in a trace. *)

From Stdlib Require Import ZArith Ascii String DecimalString List Lia Bool.
From stdpp Require Import base option list gmap strings sorting.

Set Warnings "-register-all".

Local Open Scope string_scope.
Local Open Scope list_scope.
Local Open Scope Z_scope.

(** ** JavaScript values *)

Inductive JsValue : Type :=
| VUndefined
| VNull
| VBool (b : bool)
| VNum (z : Z)
| VFloat (printed : string)
| VStr (s : string)
| VArr (items : list JsValue)
| VObj (fields : list (string * JsValue)).

(** A JavaScript object literal, keys in insertion order. *)
Abbreviation JsObject := (list (string * JsValue)).

(** [o[key]] on an object literal. *)
Fixpoint getField (key : string) (o : JsObject) : JsValue :=
  match o with
  | [] => VUndefined
  | (k, v) :: rest => if String.eqb k key then v else getField key rest
  end.

(** [v?.key]: [undefined] on [undefined] and [null]; a property read
    otherwise.  Arrays, strings, numbers and booleans own none of the keys the
    handlers read ([grace], [limit], [type], [count], [delayed]). *)
Definition optField (v : JsValue) (key : string) : JsValue :=
  match v with
  | VObj o => getField key o
  | _ => VUndefined
  end.

Definition showZ (z : Z) : string :=
  DecimalString.NilZero.string_of_int (Z.to_int z).

Fixpoint joinWith (sep : string) (l : list string) : string :=
  match l with
  | [] => EmptyString
  | [s] => s
  | s :: rest => s +:+ sep +:+ joinWith sep rest
  end.

(** What a [catch (err)] can receive: an [Error] carrying a message, or any
    other thrown value. *)
Inductive Thrown : Type :=
| ThrowError (message : string)
| ThrowOther (v : JsValue).

(** How a call settles: a value, or something thrown. *)
Inductive Outcome (A : Type) : Type :=
| Resolved (a : A)
| Rejected (e : Thrown).
Arguments Resolved {A} a.
Arguments Rejected {A} e.

(** Whether an object has a property of its own under [key]. *)
Definition hasOwn (key : string) (o : JsObject) : bool :=
  existsb (fun kv => String.eqb (fst kv) key) o.

(** The [TypeError] of a conversion that finds no primitive. *)
Definition typeError : Thrown :=
  ThrowError "Cannot convert object to primitive value".

(** [String(v)], the conversion [parseInt] applies to its argument.  An
    array joins the strings of its elements with commas, [undefined] and
    [null] counting as empty.  An object prints through the [toString] it
    inherits unless a property of its own hides it: no value of [JsValue] is
    callable, [valueOf] gives the object back, and the conversion throws. *)
Fixpoint toString (v : JsValue) : Outcome string :=
  match v with
  | VUndefined => Resolved "undefined"
  | VNull => Resolved "null"
  | VBool true => Resolved "true"
  | VBool false => Resolved "false"
  | VNum z => Resolved (showZ z)
  | VFloat printed => Resolved printed
  | VStr s => Resolved s
  | VArr items =>
      (fix join (l : list JsValue) : Outcome string :=
         match l with
         | [] => Resolved EmptyString
         | x :: rest =>
             match (match x with
                    | VUndefined | VNull => Resolved EmptyString
                    | _ => toString x
                    end), rest with
             | Rejected e, _ => Rejected e
             | Resolved s, [] => Resolved s
             | Resolved s, _ :: _ =>
                 match join rest with
                 | Resolved t => Resolved (s +:+ "," +:+ t)
                 | Rejected e => Rejected e
                 end
             end
         end) items
  | VObj fields =>
      if hasOwn "toString" fields then Rejected typeError
      else Resolved "[object Object]"
  end.

(** ** [parseInt(s, 10)] *)

Definition isWhiteSpace (c : ascii) : bool :=
  let n := nat_of_ascii c in
  ((9 <=? n) && (n <=? 13))%nat || (n =? 32)%nat.

Fixpoint trimStart (s : string) : string :=
  match s with
  | String c rest => if isWhiteSpace c then trimStart rest else s
  | EmptyString => s
  end.

Definition digitValue (c : ascii) : option Z :=
  let n := nat_of_ascii c in
  if ((48 <=? n) && (n <=? 57))%nat then Some (Z.of_nat n - 48) else None.

(** The longest prefix of decimal digits, read as a number; [acc] is [None]
    until a digit has been seen. *)
Fixpoint readDigits (s : string) (acc : option Z) : option Z :=
  match s with
  | String c rest =>
      match digitValue c with
      | Some d => readDigits rest (Some (10 * default 0 acc + d))
      | None => acc
      end
  | EmptyString => acc
  end.

(** [None] is NaN. *)
Definition parseInt (s : string) : option Z :=
  match trimStart s with
  | String "-" rest => Z.opp <$> readDigits rest None
  | String "+" rest => readDigits rest None
  | t => readDigits t None
  end.

(** [parseInt(v, 10)] on any value: the number read off [String(v)], unless
    the conversion throws. *)
Definition parseIntValue (v : JsValue) : Outcome (option Z) :=
  match toString v with
  | Resolved s => Resolved (parseInt s)
  | Rejected e => Rejected e
  end.

(** [parseInt(q, 10)] on a query parameter, [undefined] when absent. *)
Definition parseIntQuery (q : option string) : option Z :=
  parseInt (default "undefined" q).

(** [n || d] for a number [n]: NaN and zero are falsy. *)
Definition orElse (n : option Z) (d : Z) : Z :=
  match n with
  | Some z => if z =? 0 then d else z
  | None => d
  end.

(** ** The queue engine, as the gateway sees it *)

Module Job.
Record t : Type := {
  id : string;
  name : string;
  data : JsValue;
  opts : JsValue;
  progress : JsValue;
  attemptsMade : JsValue;
  failedReason : JsValue;
  returnvalue : JsValue;
  timestamp : option Z;
  processedOn : JsValue;
  finishedOn : JsValue;
  remove : Outcome unit;
  retry : Outcome unit;
  promote : Outcome unit;
  getState : Outcome string
}.
End Job.

Record SearchJobsOptions : Type := {
  searchState : option string;
  searchName : option string;
  searchData : option JsValue;
  searchLimit : Z
}.

Record Metrics : Type := { count : JsValue }.
Record JobLogs : Type := { logs : JsValue }.

Module Queue.
Record t : Type := {
  name : string;
  getJobCounts : Outcome JsValue;
  isPaused : Outcome JsValue;
  getJobs : string -> Z -> Z -> Outcome (list Job.t);
  getJob : string -> Outcome (option Job.t);
  getJobLogs : string -> Outcome JobLogs;
  getWorkers : Outcome JsValue;
  getRepeatableJobs : Outcome JsValue;
  getDeadLetterJobs : Z -> Z -> Outcome (list Job.t);
  getMetrics : string -> Outcome Metrics;
  searchJobs : SearchJobsOptions -> Outcome (list Job.t);
  pause : Outcome unit;
  resume : Outcome unit;
  obliterate : bool -> Outcome unit;
  drain : bool -> Outcome unit;
  retryJobs : option Z -> Outcome JsValue;
  clean : Z -> Z -> string -> Outcome (list string)
}.
End Queue.

(** ** Requests, options and responses *)

Record Request : Type := {
  params : list (string * string);
  query : list (string * string);
  body : JsValue
}.

Fixpoint assoc (key : string) (l : list (string * string)) : option string :=
  match l with
  | [] => None
  | (k, v) :: rest => if String.eqb k key then Some v else assoc key rest
  end.

(** [param(req, key)]; [None] is [undefined]. *)
Definition param (req : Request) (key : string) : option string :=
  assoc key (params req).

(** [req.query[key] as string | undefined]. *)
Definition queryParam (req : Request) (key : string) : option string :=
  assoc key (query req).

(** A string used as a condition: [undefined] and the empty string are
    falsy. *)
Definition given (s : option string) : bool :=
  match s with
  | Some v => negb (String.eqb v EmptyString)
  | None => false
  end.

Inductive ActionString : Type :=
| queue_pause | queue_resume | queue_obliterate
| queue_drain | queue_retryAll | queue_clean
| job_remove | job_retry | job_promote.

Definition actionText (a : ActionString) : string :=
  match a with
  | queue_pause => "queue:pause"
  | queue_resume => "queue:resume"
  | queue_obliterate => "queue:obliterate"
  | queue_drain => "queue:drain"
  | queue_retryAll => "queue:retryAll"
  | queue_clean => "queue:clean"
  | job_remove => "job:remove"
  | job_retry => "job:retry"
  | job_promote => "job:promote"
  end.

(** What [opts.authorize(req, action)] hands back: a boolean, a promise of
    one, or an exception. *)
Inductive AuthReturn : Type :=
| AuthValue (b : bool)
| AuthPromise (p : Outcome bool)
| AuthThrows (e : Thrown).

Record DashboardOptions : Type := {
  queueEvents : option (list nat);
  readOnly : option bool;
  authorize : option (Request -> ActionString -> AuthReturn)
}.

Record Response : Type := { status : Z; json : JsValue }.

Inductive EngineCall : Type :=
| GetJobCounts
| IsPaused
| GetJobs (state : string) (start end_ : Z)
| GetJob (id : string)
| GetJobLogs (id : string)
| GetWorkers
| GetRepeatableJobs
| GetDeadLetterJobs (start end_ : Z)
| GetMetrics (type : string)
| SearchJobs (o : SearchJobsOptions)
| Pause
| Resume
| Obliterate (force : bool)
| Drain (delayed : bool)
| RetryJobs (count : option Z)
| Clean (grace limit : Z) (type : string)
| JobGetState (id : string)
| JobRemove (id : string)
| JobRetry (id : string)
| JobPromote (id : string).

(** What a handler does to the outside world, in the order it does it: a
    call of the authorization callback, or a call on a queue or job handle
    together with the value it threw, if it failed. *)
Inductive Event : Type :=
| Authorize (req : Request) (action : ActionString)
| Engine (queue : string) (call : EngineCall) (failure : option Thrown).

Definition isEngine (e : Event) : bool :=
  match e with Engine _ _ _ => true | Authorize _ _ => false end.

Definition isAuthorize (e : Event) : bool :=
  match e with Authorize _ _ => true | Engine _ _ _ => false end.

(** ** Asynchronous code: a trace and the way the promise settles *)

Definition Task (A : Type) : Type := list Event * Outcome A.

Definition ret {A} (a : A) : Task A := ([], Resolved a).

Definition bind {A B} (m : Task A) (k : A -> Task B) : Task B :=
  match m with
  | (tr, Resolved a) => let (tr', r) := k a in (tr ++ tr', r)
  | (tr, Rejected e) => (tr, Rejected e)
  end.

Declare Scope task_scope.
Delimit Scope task_scope with task.
Notation "'let!' x ':=' m 'in' k" := (bind m (fun x => k))
  (at level 10, x name, m at level 100, k at level 200) : task_scope.
Local Open Scope task_scope.

(** [await queue.method(...)]: the call is issued, then its outcome awaited. *)
Definition failureOf {A} (o : Outcome A) : option Thrown :=
  match o with Resolved _ => None | Rejected e => Some e end.

Definition await {A} (queue : string) (call : EngineCall) (o : Outcome A) : Task A :=
  ([Engine queue call (failureOf o)], o).

(** What a handler leaves behind: the response it wrote ([None] when it
    threw before writing one) and its trace. *)
Record Handled : Type := { response : option Response; trace : list Event }.

Definition reply (st : Z) (v : JsValue) : Response := {| status := st; json := v |}.

Definition errorBody (message : string) : JsValue := VObj [("error", VStr message)].

(** A handler that throws outside any [try]: nothing is written, nothing
    more is called. *)
Definition uncaught : Handled := {| response := None; trace := [] |}.

(** [res.status(st).json({ error })] and nothing else. *)
Definition fail (st : Z) (message : string) : Handled :=
  {| response := Some (reply st (errorBody message)); trace := [] |}.

Definition safeError (err : Thrown) (st : Z) : Response :=
  let message := match err with
                 | ThrowError m => m
                 | ThrowOther _ => "Internal server error"
                 end in
  reply st (errorBody message).

(** [try { ... res.json(x) ... } catch (err) { safeError(res, err) }]. *)
Definition tryCatch (t : Task Response) : Handled :=
  match t with
  | (tr, Resolved r) => {| response := Some r; trace := tr |}
  | (tr, Rejected err) => {| response := Some (safeError err 500); trace := tr |}
  end.

(** [res.json(v)], status 200. *)
Definition ok (v : JsValue) : Task Response := ret (reply 200 v).

(** ** [Promise.all]

    The tasks handed to [Promise.all] run concurrently, and the order in
    which they settle is not the program's to choose: it is a parameter,
    [order], a list of task indices. *)

(** A list of indices with every repeat of an earlier index dropped. *)
Fixpoint settled (order : list nat) : list nat :=
  match order with
  | [] => []
  | i :: rest => i :: List.filter (fun j => negb (Nat.eqb j i)) (settled rest)
  end.

(** The order in which [n] tasks settle under [order]: the task indices of
    [order], each at its first occurrence, then the tasks [order] leaves
    out. *)
Definition completion (order : list nat) (n : nat) : list nat :=
  settled (List.filter (fun i => (i <? n)%nat) order ++ seq 0 n).

Fixpoint firstRejected {A} (tasks : list (Task A)) (idx : list nat) : option Thrown :=
  match idx with
  | [] => None
  | i :: rest =>
      match tasks !! i with
      | Some (_, Rejected e) => Some e
      | _ => firstRejected tasks rest
      end
  end.

Definition resolvedValue {A} (t : Task A) : option A :=
  match t with (_, Resolved a) => Some a | (_, Rejected _) => None end.

(** [Promise.all(tasks)]: the promise rejects with the first rejection to
    arrive, and resolves with the values in index order when there is none.
    The trace lists the calls task by task. *)
Definition promiseAll {A} (order : list nat) (tasks : list (Task A)) : Task (list A) :=
  (concat (List.map fst tasks),
   match firstRejected tasks (completion order (length tasks)) with
   | Some e => Rejected e
   | None => Resolved (omap resolvedValue tasks)
   end).

(** ** Arrays: [sort] and [slice] *)

(** [Array.prototype.sort(cmp)] with a consistent comparator: the stable
    sort, here by insertion from the right. *)
Section Sort.
Context {A : Type} (cmp : A -> A -> Z).

Fixpoint insertSorted (x : A) (l : list A) : list A :=
  match l with
  | [] => [x]
  | y :: rest =>
      if cmp x y <=? 0 then x :: y :: rest else y :: insertSorted x rest
  end.

Fixpoint sortWith (l : list A) : list A :=
  match l with
  | [] => []
  | x :: rest => insertSorted x (sortWith rest)
  end.
End Sort.

(** [Array.prototype.slice(start, end)], negative indices counting from the
    end of the array. *)
Definition slice {A} (start end_ : Z) (l : list A) : list A :=
  let len := Z.of_nat (length l) in
  let k := if start <? 0 then Z.max (len + start) 0 else Z.min start len in
  let final := if end_ <? 0 then Z.max (len + end_) 0 else Z.min end_ len in
  take (Z.to_nat (final - k)) (drop (Z.to_nat k) l).

(** ** The module's constants and helpers *)

Definition MAX_PAGE_SIZE : Z := 200.

Definition VALID_STATES : list string :=
  ["waiting"; "active"; "delayed"; "completed"; "failed"].

(** [VALID_STATES.includes(s)]. *)
Definition includes (l : list string) (s : string) : bool :=
  existsb (String.eqb s) l.

Definition optNum (n : option Z) : JsValue :=
  match n with Some z => VNum z | None => VUndefined end.

Definition serializeJob (j : Job.t) : JsObject :=
  [ ("id", VStr (Job.id j));
    ("name", VStr (Job.name j));
    ("data", Job.data j);
    ("opts", Job.opts j);
    ("progress", Job.progress j);
    ("attemptsMade", Job.attemptsMade j);
    ("failedReason", Job.failedReason j);
    ("returnvalue", Job.returnvalue j);
    ("timestamp", optNum (Job.timestamp j));
    ("processedOn", Job.processedOn j);
    ("finishedOn", Job.finishedOn j) ].

(** [(o.timestamp as number) ?? 0]. *)
Definition timestampOf (o : JsObject) : Z :=
  match getField "timestamp" o with
  | VNum z => z
  | _ => 0
  end.

(** The comparator of the merged listing:
    [(a, b) => (b.timestamp ?? 0) - (a.timestamp ?? 0)]. *)
Definition byTimestampDesc (a b : JsObject) : Z := timestampOf b - timestampOf a.

(** [await opts.authorize(req, action)]. *)
Definition awaitAuthorize (r : AuthReturn) : Outcome bool :=
  match r with
  | AuthValue b => Resolved b
  | AuthPromise p => p
  | AuthThrows e => Rejected e
  end.

(** [guardMutation]: the boolean it resolves with, and the response it wrote
    when that boolean is [false]. *)
Definition guardMutation (req : Request) (opts : option DashboardOptions)
    (action : ActionString) : Task (bool * option Response) :=
  if default false (opts ≫= readOnly) then
    ret (false, Some (reply 403 (errorBody "Dashboard is in read-only mode")))
  else
    match opts ≫= authorize with
    | Some callback =>
        let! allowed := ([Authorize req action], awaitAuthorize (callback req action)) in
        if negb allowed then
          ret (false, Some (reply 403 (errorBody "Unauthorized")))
        else ret (true, None)
    | None => ret (true, None)
    end.

(** [if (!(await guardMutation(...))) return; rest]. *)
Definition guarded (g : Task (bool * option Response)) (rest : Handled) : Handled :=
  match g with
  | (tr, Resolved (true, _)) =>
      {| response := response rest; trace := tr ++ trace rest |}
  | (tr, Resolved (false, written)) => {| response := written; trace := tr |}
  | (tr, Rejected _) => {| response := None; trace := tr |}
  end.

(** The window of a listing: [start] and [endVal] as the job and dead-letter
    listings both compute them. *)
Definition windowStart (req : Request) : Z :=
  orElse (parseIntQuery (queryParam req "start")) 0.

Definition windowEnd (req : Request) : Z :=
  let start := windowStart req in
  let end_ := parseIntQuery (queryParam req "end") in
  match end_ with
  | None => 20
  | Some e => Z.min e (start + MAX_PAGE_SIZE)
  end.

(** [searchOpts.limit]. *)
Definition searchLimitOf (req : Request) : Z :=
  Z.min (orElse (parseIntQuery (queryParam req "limit")) 50) MAX_PAGE_SIZE.

Definition jobsJson (jobs : list Job.t) : JsValue :=
  VArr (List.map (fun j => VObj (serializeJob j)) jobs).

Definition tagged (state : string) (j : Job.t) : JsObject :=
  serializeJob j ++ [("state", VStr state)].

(** ** [createDashboard(queues, opts)] *)

Section createDashboard.
(** [JSON.parse], [None] when it throws. *)
Variable JSON_parse : string -> option JsValue.
Variable queues : list Queue.t.
Variable opts : option DashboardOptions.

(** [queueMap]: later handles replace earlier ones of the same name. *)
Definition queueMap : gmap string Queue.t :=
  foldl (fun m q => <[Queue.name q := q]> m) ∅ queues.

(** [queueMap.get(param(req, 'name'))]. *)
Definition findQueue (req : Request) : option Queue.t :=
  param req "name" ≫= fun n => queueMap !! n.

(** [param(req, 'id')]: the route pattern binds it; the text [undefined]
    stands for a key that is not there. *)
Definition jobIdOf (req : Request) : string :=
  default "undefined" (param req "id").

Definition queueNotFound : Handled := fail 404 "Queue not found".
Definition jobNotFound : Task Response :=
  ret (reply 404 (errorBody "Job not found")).

(** *** Read endpoints *)

Definition listQueues (order : list nat) (_req : Request) : Handled :=
  tryCatch (
    let! result := promiseAll order (List.map (fun q =>
        let! counts := await (Queue.name q) GetJobCounts (Queue.getJobCounts q) in
        let! paused := await (Queue.name q) IsPaused (Queue.isPaused q) in
        ret (VObj [("name", VStr (Queue.name q)); ("counts", counts);
                   ("paused", paused)])) queues) in
    ok (VArr result)).

Definition listJobs (order : list nat) (req : Request) : Handled :=
  match findQueue req with
  | None => queueNotFound
  | Some queue =>
      let state := queryParam req "state" in
      let st := default EmptyString state in
      if given state && negb (includes VALID_STATES st) then
        fail 400 ("Invalid state: " +:+ st +:+ ". Must be one of: "
                  +:+ joinWith ", " VALID_STATES)
      else
        let start := windowStart req in
        let endVal := windowEnd req in
        tryCatch (
          if given state then
            let! jobs := await (Queue.name queue) (GetJobs st start endVal)
                           (Queue.getJobs queue st start endVal) in
            ok (VArr (List.map (fun j => VObj (tagged st j)) jobs))
          else
            let! parts := promiseAll order (List.map (fun s =>
                let! jobs := await (Queue.name queue) (GetJobs s 0 endVal)
                               (Queue.getJobs queue s 0 endVal) in
                ret (List.map (tagged s) jobs)) VALID_STATES) in
            let merged :=
              concat (omap (fun i => parts !! i)
                        (completion order (length VALID_STATES))) in
            ok (VArr (List.map VObj
                        (slice start endVal (sortWith byTimestampDesc merged)))))
  end.

Definition getJobRoute (req : Request) : Handled :=
  match findQueue req with
  | None => queueNotFound
  | Some queue =>
      let jobId := jobIdOf req in
      tryCatch (
        let! job := await (Queue.name queue) (GetJob jobId) (Queue.getJob queue jobId) in
        match job with
        | None => jobNotFound
        | Some job =>
            let! jobLogs := await (Queue.name queue) (GetJobLogs jobId)
                              (Queue.getJobLogs queue jobId) in
            let! state := await (Queue.name queue) (JobGetState (Job.id job))
                            (Job.getState job) in
            ok (VObj (serializeJob job ++ [("state", VStr state); ("logs", logs jobLogs)]))
        end)
  end.

Definition workersRoute (req : Request) : Handled :=
  match findQueue req with
  | None => queueNotFound
  | Some queue =>
      tryCatch (
        let! workers := await (Queue.name queue) GetWorkers (Queue.getWorkers queue) in
        ok workers)
  end.

Definition schedulersRoute (req : Request) : Handled :=
  match findQueue req with
  | None => queueNotFound
  | Some queue =>
      tryCatch (
        let! schedulers := await (Queue.name queue) GetRepeatableJobs
                             (Queue.getRepeatableJobs queue) in
        ok schedulers)
  end.

Definition dlqRoute (req : Request) : Handled :=
  match findQueue req with
  | None => queueNotFound
  | Some queue =>
      let start := windowStart req in
      let endVal := windowEnd req in
      tryCatch (
        let! jobs := await (Queue.name queue) (GetDeadLetterJobs start endVal)
                       (Queue.getDeadLetterJobs queue start endVal) in
        ok (jobsJson jobs))
  end.

Definition metricsRoute (order : list nat) (req : Request) : Handled :=
  match findQueue req with
  | None => queueNotFound
  | Some queue =>
      tryCatch (
        let! both := promiseAll order
            [ await (Queue.name queue) (GetMetrics "completed")
                (Queue.getMetrics queue "completed");
              await (Queue.name queue) (GetMetrics "failed")
                (Queue.getMetrics queue "failed") ] in
        match both with
        | [completed; failed] =>
            ok (VObj [("completed", count completed); ("failed", count failed)])
        | _ => ok VUndefined
        end)
  end.

Definition searchOptsOf (req : Request) : SearchJobsOptions :=
  let state := queryParam req "state" in
  let name := queryParam req "name" in
  let data := queryParam req "data" in
  {| searchState :=
       if given state && includes VALID_STATES (default EmptyString state) then state else None;
     searchName := if given name then name else None;
     searchData := if given data then JSON_parse (default EmptyString data) else None;
     searchLimit := searchLimitOf req |}.

Definition searchRoute (req : Request) : Handled :=
  match findQueue req with
  | None => queueNotFound
  | Some queue =>
      let searchOpts := searchOptsOf req in
      tryCatch (
        let! jobs := await (Queue.name queue) (SearchJobs searchOpts)
                       (Queue.searchJobs queue searchOpts) in
        ok (jobsJson jobs))
  end.

(** *** Mutation endpoints *)

Definition statusBody (s : string) : JsValue := VObj [("status", VStr s)].

Definition pauseRoute (req : Request) : Handled :=
  guarded (guardMutation req opts queue_pause)
    match findQueue req with
    | None => queueNotFound
    | Some queue =>
        tryCatch (
          let! _ := await (Queue.name queue) Pause (Queue.pause queue) in
          ok (statusBody "paused"))
    end.

Definition resumeRoute (req : Request) : Handled :=
  guarded (guardMutation req opts queue_resume)
    match findQueue req with
    | None => queueNotFound
    | Some queue =>
        tryCatch (
          let! _ := await (Queue.name queue) Resume (Queue.resume queue) in
          ok (statusBody "resumed"))
    end.

Definition removeJobRoute (req : Request) : Handled :=
  guarded (guardMutation req opts job_remove)
    match findQueue req with
    | None => queueNotFound
    | Some queue =>
        let jobId := jobIdOf req in
        tryCatch (
          let! job := await (Queue.name queue) (GetJob jobId) (Queue.getJob queue jobId) in
          match job with
          | None => jobNotFound
          | Some job =>
              let! _ := await (Queue.name queue) (JobRemove (Job.id job)) (Job.remove job) in
              ok (statusBody "removed")
          end)
    end.

Definition retryJobRoute (req : Request) : Handled :=
  guarded (guardMutation req opts job_retry)
    match findQueue req with
    | None => queueNotFound
    | Some queue =>
        let jobId := jobIdOf req in
        tryCatch (
          let! job := await (Queue.name queue) (GetJob jobId) (Queue.getJob queue jobId) in
          match job with
          | None => jobNotFound
          | Some job =>
              let! _ := await (Queue.name queue) (JobRetry (Job.id job)) (Job.retry job) in
              ok (statusBody "retried")
          end)
    end.

Definition promoteJobRoute (req : Request) : Handled :=
  guarded (guardMutation req opts job_promote)
    match findQueue req with
    | None => queueNotFound
    | Some queue =>
        let jobId := jobIdOf req in
        tryCatch (
          let! job := await (Queue.name queue) (GetJob jobId) (Queue.getJob queue jobId) in
          match job with
          | None => jobNotFound
          | Some job =>
              let! _ := await (Queue.name queue) (JobPromote (Job.id job)) (Job.promote job) in
              ok (statusBody "promoted")
          end)
    end.

Definition obliterateRoute (req : Request) : Handled :=
  guarded (guardMutation req opts queue_obliterate)
    match findQueue req with
    | None => queueNotFound
    | Some queue =>
        tryCatch (
          let! _ := await (Queue.name queue) (Obliterate true)
                      (Queue.obliterate queue true) in
          ok (statusBody "obliterated"))
    end.

Definition drainRoute (req : Request) : Handled :=
  guarded (guardMutation req opts queue_drain)
    match findQueue req with
    | None => queueNotFound
    | Some queue =>
        let delayed := match optField (body req) "delayed" with
                       | VBool true => true
                       | _ => false
                       end in
        tryCatch (
          let! _ := await (Queue.name queue) (Drain delayed)
                      (Queue.drain queue delayed) in
          ok (statusBody "drained"))
    end.

(** The argument of [retryJobs]: [{ count }] when [count > 0], else
    [undefined]. *)
Definition retryCap (count : Z) : option Z :=
  if 0 <? count then Some count else None.

Definition retryAllRoute (req : Request) : Handled :=
  guarded (guardMutation req opts queue_retryAll)
    match findQueue req with
    | None => queueNotFound
    | Some queue =>
        match parseIntValue (optField (body req) "count") with
        | Rejected _ => uncaught
        | Resolved parsed =>
            let count := orElse parsed 0 in
            tryCatch (
              let! retried := await (Queue.name queue) (RetryJobs (retryCap count))
                                (Queue.retryJobs queue (retryCap count)) in
              ok (VObj [("status", VStr "ok"); ("retried", retried)]))
        end
    end.

Definition graceMessage : string := "grace must be a non-negative integer (ms)".

(** [type must be "completed" or "failed"], quotes included. *)
Definition typeMessage : string :=
  let q := String (ascii_of_nat 34) EmptyString in
  "type must be " +:+ q +:+ "completed" +:+ q +:+ " or " +:+ q +:+ "failed" +:+ q.

Definition cleanRoute (req : Request) : Handled :=
  guarded (guardMutation req opts queue_clean)
    match findQueue req with
    | None => queueNotFound
    | Some queue =>
        match parseIntValue (optField (body req) "grace") with
        | Rejected _ => uncaught
        | Resolved grace =>
        match parseIntValue (optField (body req) "limit") with
        | Rejected _ => uncaught
        | Resolved parsedLimit =>
        let limit := orElse parsedLimit 100 in
        let type := optField (body req) "type" in
        match grace with
        | None => fail 400 graceMessage
        | Some grace =>
            if grace <? 0 then fail 400 graceMessage
            else
              match type with
              | VStr type =>
                  if negb (String.eqb type "completed") && negb (String.eqb type "failed")
                  then fail 400 typeMessage
                  else
                    tryCatch (
                      let! removed := await (Queue.name queue)
                                        (Clean grace (Z.min limit 1000) type)
                                        (Queue.clean queue grace (Z.min limit 1000) type) in
                      ok (VObj [("status", VStr "ok");
                                ("removed", VNum (Z.of_nat (length removed)))]))
              | _ => fail 400 typeMessage
              end
        end
        end
        end
    end.

(** *** The router *)

Inductive Mutation : Type :=
| PostPause | PostResume | PostObliterate | PostDrain | PostRetryAll
| PostClean | DeleteJob | PostRetryJob | PostPromoteJob.

Inductive Route : Type :=
| GetQueues | GetJobsList | GetOneJob | GetWorkersList | GetSchedulers
| GetDlq | GetMetricsRoute | GetSearch
| Mutating (m : Mutation).

Definition mutate (m : Mutation) : Request -> Handled :=
  match m with
  | PostPause => pauseRoute
  | PostResume => resumeRoute
  | PostObliterate => obliterateRoute
  | PostDrain => drainRoute
  | PostRetryAll => retryAllRoute
  | PostClean => cleanRoute
  | DeleteJob => removeJobRoute
  | PostRetryJob => retryJobRoute
  | PostPromoteJob => promoteJobRoute
  end.

Definition handle (order : list nat) (r : Route) : Request -> Handled :=
  match r with
  | GetQueues => listQueues order
  | GetJobsList => listJobs order
  | GetOneJob => getJobRoute
  | GetWorkersList => workersRoute
  | GetSchedulers => schedulersRoute
  | GetDlq => dlqRoute
  | GetMetricsRoute => metricsRoute order
  | GetSearch => searchRoute
  | Mutating m => mutate m
  end.
End createDashboard.

(** ** The event stream: [GET /api/events]

    Event sources are objects shared by every connection, so they live in a
    store and the option [queueEvents] lists references into it; the same
    source may be listed twice.  A handler is a closure created by the
    connection, known by the number of its creation. *)

Module Sse.
(** A [QueueEvents] emitter: its name and what [on] has registered on it,
    oldest first. *)
Record QueueEvents : Type := {
  name : string;
  registered : list (string * nat)
}.

Record World : Type := {
  sources : list QueueEvents;
  nextHandler : nat;
  timers : list nat;
  nextTimer : nat
}.

(** One entry of the connection's [listeners] array. *)
Record Listener : Type := { qe : nat; event : string; handler : nat }.

Record Connection : Type := {
  listeners : list Listener;
  heartbeat : nat
}.

Definition eventNames : list string :=
  ["completed"; "failed"; "progress"; "active"; "waiting"; "stalled"; "removed"].

(** [qe.on(event, handler)]. *)
Definition on (q : nat) (ev : string) (h : nat) (s : list QueueEvents)
    : list QueueEvents :=
  alter (fun e => {| name := name e; registered := registered e ++ [(ev, h)] |}) q s.

(** An emitter drops the most recently added registration that matches,
    if there is one. *)
Fixpoint removeLast (x : string * nat) (l : list (string * nat))
    : option (list (string * nat)) :=
  match l with
  | [] => None
  | y :: rest =>
      match removeLast x rest with
      | Some rest' => Some (y :: rest')
      | None => if bool_decide (y = x) then Some rest else None
      end
  end.

(** [qe.removeListener(event, handler)], and whether it removed anything. *)
Definition removeListener (q : nat) (ev : string) (h : nat) (s : list QueueEvents)
    : list QueueEvents * bool :=
  match s !! q with
  | Some e =>
      match removeLast (ev, h) (registered e) with
      | Some l' => (<[q := {| name := name e; registered := l' |}]> s, true)
      | None => (s, false)
      end
  | None => (s, false)
  end.

(** [qe.listenerCount(event)]. *)
Definition listenerCount (w : World) (q : nat) (ev : string) : nat :=
  match sources w !! q with
  | Some e => length (List.filter (fun r => String.eqb (fst r) ev) (registered e))
  | None => O
  end.

(** The body of the two nested loops: create the closure, register it,
    remember it. *)
Definition subscribe (acc : World * list Listener) (target : nat * string)
    : World * list Listener :=
  let (w, ls) := acc in
  let (q, ev) := target in
  let h := nextHandler w in
  ({| sources := on q ev h (sources w); nextHandler := S h;
      timers := timers w; nextTimer := nextTimer w |},
   ls ++ [{| qe := q; event := ev; handler := h |}]).

Definition targets (queueEvents : list nat) : list (nat * string) :=
  flat_map (fun q => List.map (fun ev => (q, ev)) eventNames) queueEvents.

(** The handler of [GET /api/events], up to its return. *)
Definition openConnection (queueEvents : list nat) (w : World) : World * Connection :=
  let (w1, ls) := fold_left subscribe (targets queueEvents) (w, []) in
  let t := nextTimer w1 in
  ({| sources := sources w1; nextHandler := nextHandler w1;
      timers := timers w1 ++ [t]; nextTimer := S t |},
   {| listeners := ls; heartbeat := t |}).

Definition clearInterval (t : nat) (w : World) : World :=
  {| sources := sources w; nextHandler := nextHandler w;
     timers := List.filter (fun t' => negb (Nat.eqb t' t)) (timers w);
     nextTimer := nextTimer w |}.

Definition unsubscribe (acc : World * list nat) (l : Listener) : World * list nat :=
  let (w, log) := acc in
  let (s', found) := removeListener (qe l) (event l) (handler l) (sources w) in
  ({| sources := s'; nextHandler := nextHandler w;
      timers := timers w; nextTimer := nextTimer w |},
   if found then log ++ [handler l] else log).

(** [cleanup()], with the handlers it really took off an emitter. *)
Definition cleanup (c : Connection) (w : World) : World * list nat :=
  fold_left unsubscribe (listeners c) (clearInterval (heartbeat c) w, []).

(** The events that end a connection: ['close'] on the request and
    ['error'] on the response; [cleanup] listens to both. *)
Inductive Terminal : Type := ReqClose | ResError.

Fixpoint terminate (c : Connection) (evs : list Terminal) (w : World)
    : World * list nat :=
  match evs with
  | [] => (w, [])
  | _ :: rest =>
      let (w1, log1) := cleanup c w in
      let (w2, log2) := terminate c rest w1 in
      (w2, log1 ++ log2)
  end.

(** Closures and timers handed out so far are older than the next ones. *)
Definition wellFormed (w : World) : Prop :=
  (forall e r, e ∈ sources w -> r ∈ registered e -> (snd r < nextHandler w)%nat) /\
  (forall t, t ∈ timers w -> (t < nextTimer w)%nat).

(** The loops unrolled: the entries [subscribe] creates from closure number
  [next] on, the emitters after registering a list of entries, and the
  emitters and removal log after unregistering one. *)
Fixpoint listenersFrom (next : nat) (ts : list (nat * string)) : list Listener :=
match ts with
| [] => []
| (q, ev) :: rest =>
    {| qe := q; event := ev; handler := next |} :: listenersFrom (S next) rest
end.

Definition registerAll (ls : list Listener) (s : list QueueEvents) : list QueueEvents :=
fold_left (fun s l => on (qe l) (event l) (handler l) s) ls s.

Fixpoint removeAll (ls : list Listener) (s : list QueueEvents)
  : list QueueEvents * list nat :=
match ls with
| [] => (s, [])
| l :: rest =>
    let (s1, found) := removeListener (qe l) (event l) (handler l) s in
    let (s2, log) := removeAll rest s1 in
    (s2, (if found then [handler l] else []) ++ log)
end.

(** No emitter of [s] holds closure [h]. *)
Definition unknownTo (s : list QueueEvents) (h : nat) : Prop :=
forall e r, e ∈ s -> r ∈ registered e -> snd r <> h.
End Sse.

(** [const queueEvents = opts?.queueEvents ?? []]. *)
Definition configuredSources (opts : option DashboardOptions) : list nat :=
  default [] (opts ≫= queueEvents).

(** ** Fixtures: the mock queue and job of the test suite *)

Definition mockJob (id : string) : Job.t :=
  {| Job.id := id; Job.name := "test-job";
     Job.data := VObj [("key", VStr "value")]; Job.opts := VObj [];
     Job.progress := VNum 0; Job.attemptsMade := VNum 0;
     Job.failedReason := VUndefined; Job.returnvalue := VUndefined;
     Job.timestamp := Some 1700000000000;
     Job.processedOn := VUndefined; Job.finishedOn := VUndefined;
     Job.remove := Resolved tt; Job.retry := Resolved tt;
     Job.promote := Resolved tt; Job.getState := Resolved "waiting" |}.

Definition mockCounts : JsValue :=
  VObj [("waiting", VNum 5); ("active", VNum 2); ("delayed", VNum 1);
        ("completed", VNum 10); ("failed", VNum 3)].

Definition mockQueue (name : string) (jobs : list Job.t) : Queue.t :=
  {| Queue.name := name;
     Queue.getJobCounts := Resolved mockCounts;
     Queue.isPaused := Resolved (VBool false);
     Queue.getJobs := fun _ _ _ => Resolved jobs;
     Queue.getJob := fun id =>
       Resolved (List.find (fun j => String.eqb (Job.id j) id) jobs);
     Queue.getJobLogs := fun _ => Resolved {| logs := VArr [] |};
     Queue.getWorkers := Resolved (VArr []);
     Queue.getRepeatableJobs := Resolved (VArr []);
     Queue.getDeadLetterJobs := fun _ _ => Resolved jobs;
     Queue.getMetrics := fun _ => Resolved {| count := VNum 42 |};
     Queue.searchJobs := fun _ => Resolved jobs;
     Queue.pause := Resolved tt;
     Queue.resume := Resolved tt;
     Queue.obliterate := fun _ => Resolved tt;
     Queue.drain := fun _ => Resolved tt;
     Queue.retryJobs := fun _ => Resolved (VNum 5);
     Queue.clean := fun _ _ _ => Resolved ["1"; "2"] |}.

(** A queue whose count query rejects, as in the suite's failure test. *)
Definition brokenQueue (name message : string) : Queue.t :=
  {| Queue.name := name;
     Queue.getJobCounts := Rejected (ThrowError message);
     Queue.isPaused := Resolved (VBool false);
     Queue.getJobs := fun _ _ _ => Resolved [];
     Queue.getJob := fun _ => Resolved None;
     Queue.getJobLogs := fun _ => Resolved {| logs := VArr [] |};
     Queue.getWorkers := Resolved (VArr []);
     Queue.getRepeatableJobs := Resolved (VArr []);
     Queue.getDeadLetterJobs := fun _ _ => Resolved [];
     Queue.getMetrics := fun _ => Resolved {| count := VNum 42 |};
     Queue.searchJobs := fun _ => Resolved [];
     Queue.pause := Resolved tt;
     Queue.resume := Resolved tt;
     Queue.obliterate := fun _ => Resolved tt;
     Queue.drain := fun _ => Resolved tt;
     Queue.retryJobs := fun _ => Resolved (VNum 5);
     Queue.clean := fun _ _ _ => Resolved [] |}.

(** A queue whose count query rejects with any thrown value. *)
Definition rejectingQueue (name : string) (e : Thrown) : Queue.t :=
  {| Queue.name := name;
     Queue.getJobCounts := Rejected e;
     Queue.isPaused := Resolved (VBool false);
     Queue.getJobs := fun _ _ _ => Resolved [];
     Queue.getJob := fun _ => Resolved None;
     Queue.getJobLogs := fun _ => Resolved {| logs := VArr [] |};
     Queue.getWorkers := Resolved (VArr []);
     Queue.getRepeatableJobs := Resolved (VArr []);
     Queue.getDeadLetterJobs := fun _ _ => Resolved [];
     Queue.getMetrics := fun _ => Resolved {| count := VNum 42 |};
     Queue.searchJobs := fun _ => Resolved [];
     Queue.pause := Resolved tt;
     Queue.resume := Resolved tt;
     Queue.obliterate := fun _ => Resolved tt;
     Queue.drain := fun _ => Resolved tt;
     Queue.retryJobs := fun _ => Resolved (VNum 5);
     Queue.clean := fun _ _ _ => Resolved [] |}.

Definition request (name : string) (q : list (string * string)) (b : JsValue) : Request :=
  {| params := [("name", name); ("id", "j1")]; query := q; body := b |}.

Definition readOnlyOpts : option DashboardOptions :=
  Some {| queueEvents := None; readOnly := Some true;
          authorize := Some (fun _ _ => AuthValue true) |}.

Definition authOpts (answer : AuthReturn) : option DashboardOptions :=
  Some {| queueEvents := None; readOnly := None;
          authorize := Some (fun _ _ => answer) |}.

(** ** The vocabulary of the specification *)

(** The action tag the specification assigns to each guarded route. *)
Definition actionOf (m : Mutation) : ActionString :=
  match m with
  | PostPause => queue_pause
  | PostResume => queue_resume
  | PostObliterate => queue_obliterate
  | PostDrain => queue_drain
  | PostRetryAll => queue_retryAll
  | PostClean => queue_clean
  | DeleteJob => job_remove
  | PostRetryJob => job_retry
  | PostPromoteJob => job_promote
  end.

(** The engine operation each guarded route exists to perform. *)
Definition operationOf (m : Mutation) (c : EngineCall) : bool :=
  match m, c with
  | PostPause, Pause
  | PostResume, Resume
  | PostObliterate, Obliterate true
  | PostDrain, Drain _
  | PostRetryAll, RetryJobs _
  | PostClean, Clean _ _ _
  | DeleteJob, JobRemove _
  | PostRetryJob, JobRetry _
  | PostPromoteJob, JobPromote _ => true
  | _, _ => false
  end.

Definition performs (m : Mutation) (e : Event) : bool :=
  match e with
  | Engine _ c _ => operationOf m c
  | Authorize _ _ => false
  end.

(** [hay] contains [needle]. *)
Definition mentions (needle hay : string) : bool :=
  match String.index 0 needle hay with Some _ => true | None => false end.

(** The text of an error response. *)
Definition errorOf (r : option Response) : option string :=
  match r with
  | Some {| json := VObj [(key, VStr message)] |} =>
      if String.eqb key "error" then Some message else None
  | _ => None
  end.

Definition statusOf (r : option Response) : option Z := status <$> r.


(** A request is ready for the operation of route [m] when nothing but the
    guard stands between it and the engine: it names a registered queue; on
    the job routes the engine knows the job; on retry-all the body's [count]
    converts to a string; on the clean route [grace] and [limit] convert to
    strings and the body passes validation. *)
Definition ready (queues : list Queue.t) (m : Mutation) (req : Request) : bool :=
  match findQueue queues req with
  | None => false
  | Some queue =>
      match m with
      | DeleteJob | PostRetryJob | PostPromoteJob =>
          match Queue.getJob queue (jobIdOf req) with
          | Resolved (Some _) => true
          | _ => false
          end
      | PostRetryAll =>
          match parseIntValue (optField (body req) "count") with
          | Resolved _ => true
          | Rejected _ => false
          end
      | PostClean =>
          match parseIntValue (optField (body req) "grace"),
                parseIntValue (optField (body req) "limit"),
                optField (body req) "type" with
          | Resolved (Some grace), Resolved _, VStr type =>
              (0 <=? grace) && (String.eqb type "completed" || String.eqb type "failed")
          | _, _, _ => false
          end
      | _ => true
      end
  end.

(** The engine operation of route [m] carried out on the handle [queue] for
    the request [req]: the call goes to that handle, or to the job that handle
    finds under the request's id, and fails exactly as that call does. *)
Inductive performsOn (queue : Queue.t) (req : Request) : Mutation -> Event -> Prop :=
| performs_pause :
    performsOn queue req PostPause
      (Engine (Queue.name queue) Pause (failureOf (Queue.pause queue)))
| performs_resume :
    performsOn queue req PostResume
      (Engine (Queue.name queue) Resume (failureOf (Queue.resume queue)))
| performs_obliterate :
    performsOn queue req PostObliterate
      (Engine (Queue.name queue) (Obliterate true)
         (failureOf (Queue.obliterate queue true)))
| performs_drain delayed :
    performsOn queue req PostDrain
      (Engine (Queue.name queue) (Drain delayed)
         (failureOf (Queue.drain queue delayed)))
| performs_retryAll cap :
    performsOn queue req PostRetryAll
      (Engine (Queue.name queue) (RetryJobs cap)
         (failureOf (Queue.retryJobs queue cap)))
| performs_clean grace limit type :
    performsOn queue req PostClean
      (Engine (Queue.name queue) (Clean grace limit type)
         (failureOf (Queue.clean queue grace limit type)))
| performs_remove job :
    Queue.getJob queue (jobIdOf req) = Resolved (Some job) ->
    performsOn queue req DeleteJob
      (Engine (Queue.name queue) (JobRemove (Job.id job)) (failureOf (Job.remove job)))
| performs_retry job :
    Queue.getJob queue (jobIdOf req) = Resolved (Some job) ->
    performsOn queue req PostRetryJob
      (Engine (Queue.name queue) (JobRetry (Job.id job)) (failureOf (Job.retry job)))
| performs_promote job :
    Queue.getJob queue (jobIdOf req) = Resolved (Some job) ->
    performsOn queue req PostPromoteJob
      (Engine (Queue.name queue) (JobPromote (Job.id job)) (failureOf (Job.promote job))).

(** The failure an event records, if it records one. *)
Definition failureIn (e : Event) : option Thrown :=
  match e with
  | Engine _ _ failure => failure
  | Authorize _ _ => None
  end.

(** The values thrown by the engine calls of a trace, in order. *)
Definition failures (tr : list Event) : list Thrown :=
  omap (fun e => match e with
                 | Engine _ _ failure => failure
                 | Authorize _ _ => None
                 end) tr.

(** A task is coherent when its outcome agrees with its trace: resolved only
    if no call failed, rejected only with a value some call threw. *)
Definition coherent {A} (t : Task A) : Prop :=
  match t with
  | (tr, Resolved _) => failures tr = []
  | (tr, Rejected e) => e ∈ failures tr
  end.

(** A handler surfaces engine failures when, some engine call of its trace
    having failed, it answers with [safeError] applied to a value one of
    those calls threw. *)
Definition surfaces (h : Handled) : Prop :=
  failures (trace h) <> [] ->
  exists e, e ∈ failures (trace h) /\ response h = Some (safeError e 500).

(** Newest first: the order of the merged listing. *)
Definition newestFirst (a b : JsObject) : Prop := timestampOf b <= timestampOf a.

(** A queue with one job in each of three states, created at different
    times. *)
Definition jobAt (id : string) (created : Z) : Job.t :=
  {| Job.id := id; Job.name := "test-job";
     Job.data := VNull; Job.opts := VObj [];
     Job.progress := VNum 0; Job.attemptsMade := VNum 0;
     Job.failedReason := VUndefined; Job.returnvalue := VUndefined;
     Job.timestamp := Some created;
     Job.processedOn := VUndefined; Job.finishedOn := VUndefined;
     Job.remove := Resolved tt; Job.retry := Resolved tt;
     Job.promote := Resolved tt; Job.getState := Resolved "waiting" |}.

Definition jobsByState (s : string) : list Job.t :=
  if String.eqb s "waiting" then [jobAt "a" 100]
  else if String.eqb s "active" then [jobAt "c" 200]
  else if String.eqb s "failed" then [jobAt "b" 300]
  else [].

Definition stateQueue : Queue.t :=
  {| Queue.name := "q";
     Queue.getJobCounts := Resolved mockCounts;
     Queue.isPaused := Resolved (VBool false);
     Queue.getJobs := fun s _ _ => Resolved (jobsByState s);
     Queue.getJob := fun _ => Resolved None;
     Queue.getJobLogs := fun _ => Resolved {| logs := VArr [] |};
     Queue.getWorkers := Resolved (VArr []);
     Queue.getRepeatableJobs := Resolved (VArr []);
     Queue.getDeadLetterJobs := fun _ _ => Resolved [];
     Queue.getMetrics := fun _ => Resolved {| count := VNum 42 |};
     Queue.searchJobs := fun _ => Resolved [];
     Queue.pause := Resolved tt;
     Queue.resume := Resolved tt;
     Queue.obliterate := fun _ => Resolved tt;
     Queue.drain := fun _ => Resolved tt;
     Queue.retryJobs := fun _ => Resolved (VNum 5);
     Queue.clean := fun _ _ _ => Resolved [] |}.

(** The creation time a response row shows. *)
Definition rowTimestamp (v : JsValue) : Z :=
  match v with VObj o => timestampOf o | _ => 0 end.

(** [router.get('/api/events', ...)]: the connection opened over the sources
    the options configure. *)
Definition eventsRoute (opts : option DashboardOptions) (w : Sse.World)
    : Sse.World * Sse.Connection :=
  Sse.openConnection (configuredSources opts) w.

(** A small world: two emitters, one of them already listened to by an
    earlier closure, and one running timer. *)
Definition demoWorld : Sse.World :=
  {| Sse.sources :=
       [ {| Sse.name := "payments"; Sse.registered := [("completed", 0%nat)] |};
         {| Sse.name := "emails"; Sse.registered := [] |} ];
     Sse.nextHandler := 1; Sse.timers := [0%nat]; Sse.nextTimer := 1 |}.

Definition demoOpts : option DashboardOptions :=
  Some {| queueEvents := Some [0%nat; 1%nat; 0%nat]; readOnly := None; authorize := None |}.

(** ** Further vocabulary: guards, statuses, kinds of engine call *)

(** The guard let the request through. *)
Definition passes (g : Task (bool * option Response)) : bool :=
  match g with
  | (_, Resolved (true, _)) => true
  | _ => false
  end.

(** The guard of a route: the one its handler runs, none on a read route. *)
Definition guardOf (opts : option DashboardOptions) (r : Route) (req : Request)
    : Task (bool * option Response) :=
  match r with
  | Mutating m => guardMutation req opts (actionOf m)
  | _ => ret (true, None)
  end.

(** The engine calls that change a queue or a job. *)
Definition isMutatingCall (c : EngineCall) : bool :=
  match c with
  | Pause | Resume | Obliterate _ | Drain _ | RetryJobs _ | Clean _ _ _
  | JobRemove _ | JobRetry _ | JobPromote _ => true
  | _ => false
  end.

Definition mutatingEvent (e : Event) : bool :=
  match e with
  | Engine _ c _ => isMutatingCall c
  | Authorize _ _ => false
  end.

(** The routes whose path carries a job id. *)
Definition takesJobId (r : Route) : bool :=
  match r with
  | GetOneJob | Mutating DeleteJob | Mutating PostRetryJob
  | Mutating PostPromoteJob => true
  | _ => false
  end.

(** The statuses a route can answer with. *)
Definition statusesOf (r : Route) : list Z :=
  match r with
  | GetQueues => [200; 500]
  | GetJobsList => [200; 400; 404; 500]
  | Mutating PostClean => [200; 400; 403; 404; 500]
  | Mutating _ => [200; 403; 404; 500]
  | _ => [200; 404; 500]
  end.

(** A response is within [allowed] when its status is one of them and, unless
    it is 200, its body is the object whose only field is [error]. *)
Definition within (allowed : list Z) (r : Response) : Prop :=
  In (status r) allowed /\ (status r <> 200 -> exists message, json r = errorBody message).

Definition answersWithin (allowed : list Z) (h : Handled) : Prop :=
  forall r, response h = Some r -> within allowed r.

Definition settlesWithin (allowed : list Z) (t : Task Response) : Prop :=
  forall r, snd t = Resolved r -> within allowed r.

(** A task is quiet when it issues no call that changes a queue or a job. *)
Definition quiet {A} (t : Task A) : Prop := List.filter mutatingEvent (fst t) = [].

(** The rows of the merged listing before they are sorted: the tagged jobs
    of the five states, state by state in the order the fetches settled. *)
Definition mergedRows (order : list nat) (jobsOf : string -> list Job.t)
    : list JsObject :=
  concat (omap (fun i => List.map (fun s => List.map (tagged s) (jobsOf s))
                           VALID_STATES !! i)
            (completion order (length VALID_STATES))).

(** All the rows there are to merge, in the order of [VALID_STATES]. *)
Definition allRows (jobsOf : string -> list Job.t) : list JsObject :=
  concat (List.map (fun s => List.map (tagged s) (jobsOf s)) VALID_STATES).

(** A queue with two jobs created at the same time, one waiting and one
    active. *)
Definition tiedQueue : Queue.t :=
  {| Queue.name := "q";
     Queue.getJobCounts := Resolved mockCounts;
     Queue.isPaused := Resolved (VBool false);
     Queue.getJobs := fun s _ _ =>
       Resolved (if String.eqb s "waiting" then [jobAt "first" 100]
                 else if String.eqb s "active" then [jobAt "second" 100]
                 else []);
     Queue.getJob := fun _ => Resolved None;
     Queue.getJobLogs := fun _ => Resolved {| logs := VArr [] |};
     Queue.getWorkers := Resolved (VArr []);
     Queue.getRepeatableJobs := Resolved (VArr []);
     Queue.getDeadLetterJobs := fun _ _ => Resolved [];
     Queue.getMetrics := fun _ => Resolved {| count := VNum 42 |};
     Queue.searchJobs := fun _ => Resolved [];
     Queue.pause := Resolved tt;
     Queue.resume := Resolved tt;
     Queue.obliterate := fun _ => Resolved tt;
     Queue.drain := fun _ => Resolved tt;
     Queue.retryJobs := fun _ => Resolved (VNum 5);
     Queue.clean := fun _ _ _ => Resolved [] |}.

(** ** Emitting on a source *)

(** How often a reference occurs in the configured sources. *)
Definition occurrences (q : nat) (qs : list nat) : nat :=
  length (List.filter (Nat.eqb q) qs).

(** The entries of a connection that sit on source [q] under event [ev]. *)
Definition entriesOn (q : nat) (ev : string) (ls : list Sse.Listener)
    : list Sse.Listener :=
  List.filter (fun l => Nat.eqb (Sse.qe l) q && String.eqb (Sse.event l) ev) ls.

(** [qe.emit(ev, payload)] calls the handlers registered under [ev], oldest
    first: the closures fired when source [q] emits [ev]. *)
Definition fired (w : Sse.World) (q : nat) (ev : string) : list nat :=
  match Sse.sources w !! q with
  | Some e => List.map snd (List.filter (fun r => String.eqb (fst r) ev) (Sse.registered e))
  | None => []
  end.

Definition newline : string := String (ascii_of_nat 10) EmptyString.

Section Frames.
(** [JSON.stringify]. *)
Variable JSON_stringify : JsValue -> string.

(** What a handler of the connection writes when it fires: the frame
    [data: <json>] followed by a blank line, the JSON naming the source the
    closure captured, its event name and the payload. *)
Definition frameOf (w : Sse.World) (l : Sse.Listener) (payload : JsValue) : string :=
  let sourceName := match Sse.sources w !! Sse.qe l with
                    | Some e => Sse.name e
                    | None => EmptyString
                    end in
  "data: " +:+
  JSON_stringify (VObj [("queue", VStr sourceName); ("event", VStr (Sse.event l));
                        ("payload", payload)]) +:+
  newline +:+ newline.

(** What is written to the response of connection [c] when source [q] emits
    [ev] with [payload]: one frame per fired closure that is the
    connection's own. *)
Definition written (w : Sse.World) (c : Sse.Connection) (q : nat) (ev : string)
    (payload : JsValue) : list string :=
  flat_map (fun h =>
              match List.find (fun l => Nat.eqb (Sse.handler l) h) (Sse.listeners c) with
              | Some l => [frameOf w l payload]
              | None => []
              end) (fired w q ev).

(** What a tick of the connection's heartbeat timer writes, if the timer
    still runs. *)
Definition heartbeatWritten (w : Sse.World) (c : Sse.Connection) : list string :=
  if existsb (Nat.eqb (Sse.heartbeat c)) (Sse.timers w)
  then [": heartbeat" +:+ newline +:+ newline]
  else [].
End Frames.

(** ** The dashboard page *)

Section Page.
(** [readFileSync(path, 'utf8')] and [path.join], the module's directory. *)
Variable readFileSync : string -> Outcome string.
Variable join : list string -> string.
Variable dirname : string.

(** [getDashboardHtml()], threading the module-level [dashboardHtmlCache]:
    what the call returns or throws, the cache afterwards, and the paths it
    read. *)
Definition getDashboardHtml (dashboardHtmlCache : option string)
    : Outcome string * option string * list string :=
  if given dashboardHtmlCache
  then (Resolved (default EmptyString dashboardHtmlCache), dashboardHtmlCache, [])
  else
    let path := join [dirname; "dashboard-ui.html"] in
    match readFileSync path with
    | Resolved html => (Resolved html, Some html, [path])
    | Rejected e => (Rejected e, dashboardHtmlCache, [path])
    end.
End Page.

(** The earlier variant of the module kept in [index.ts]. *)
Module Legacy.
Section Page.
Variable readFileSync : string -> Outcome string.
Variable join : list string -> string.
Variable dirname : string.
(** The constant [PLACEHOLDER_HTML]. *)
Variable PLACEHOLDER_HTML : string.

Definition getDashboardHtml (dashboardHtmlCache : option string)
    : Outcome string * option string * list string :=
  if given dashboardHtmlCache
  then (Resolved (default EmptyString dashboardHtmlCache), dashboardHtmlCache, [])
  else
    let first := join [dirname; ".."; "src"; "dashboard-ui.html"] in
    match readFileSync first with
    | Resolved html => (Resolved html, Some html, [first])
    | Rejected _ =>
        let second := join [dirname; "dashboard-ui.html"] in
        match readFileSync second with
        | Resolved html => (Resolved html, Some html, [first; second])
        | Rejected _ =>
            (Resolved PLACEHOLDER_HTML, Some PLACEHOLDER_HTML, [first; second])
        end
    end.
End Page.
End Legacy.

(** The routes that issue their engine calls one after the other. *)
Definition sequential (r : Route) (req : Request) : bool :=
  match r with
  | GetQueues | GetMetricsRoute => false
  | GetJobsList => given (queryParam req "state")
  | _ => true
  end.

(** A task stops at the first failure: a resolved one saw none, a rejected
    one ends its trace with the failing call. *)
Definition stopsAtFailure {A} (t : Task A) : Prop :=
  match t with
  | (tr, Resolved _) => failures tr = []
  | (tr, Rejected e) =>
      exists before queue call,
        tr = before ++ [Engine queue call (Some e)] /\ failures before = []
  end.

(** A handler halts at the first failure: no engine call failed, or the
    failing call is the last event of the trace and its error is what the
    handler answers with. *)
Definition haltsAtFailure (h : Handled) : Prop :=
  failures (trace h) = [] \/
  exists before queue call e,
    trace h = before ++ [Engine queue call (Some e)] /\
    failures before = [] /\
    response h = Some (safeError e 500).
(** * Parsing *)

Example parseInt_samples :
  parseInt "42" = Some 42 /\ parseInt "  -7px" = Some (-7) /\
  parseInt "+3.9" = Some 3 /\ parseInt "abc" = None /\
  parseInt EmptyString = None /\ parseInt "-" = None /\
  parseIntValue VUndefined = Resolved None /\
  parseIntValue (VNum (-12)) = Resolved (Some (-12)) /\
  parseIntValue (VArr [VNum 5; VNull]) = Resolved (Some 5) /\
  parseIntValue (VFloat "1e+21") = Resolved (Some 1) /\
  parseIntValue (VObj [("grace", VNum 5)]) = Resolved None /\
  parseIntValue (VObj [("toString", VNum 1)]) = Rejected typeError /\
  parseIntValue (VArr [VNum 5; VObj [("toString", VNull)]]) = Rejected typeError /\
  parseIntQuery None = None /\ parseIntQuery (Some "99999") = Some 99999.
Proof. repeat split; reflexivity. Qed.

Example completion_samples :
  completion [] 3 = [0; 1; 2]%nat /\
  completion [4; 0]%nat 5 = [4; 0; 1; 2; 3]%nat /\
  completion [1; 0; 1; 7]%nat 2 = [1; 0]%nat.
Proof. repeat split; reflexivity. Qed.

(** * The mutation guard *)

Lemma guardMutation_readOnly req opts action :
  opts ≫= readOnly = Some true ->
  guardMutation req opts action =
    ret (false, Some (reply 403 (errorBody "Dashboard is in read-only mode"))).
Proof. intros H. unfold guardMutation. now rewrite H. Qed.

Lemma guardMutation_authorize req opts action callback :
  default false (opts ≫= readOnly) = false ->
  opts ≫= authorize = Some callback ->
  guardMutation req opts action =
    match awaitAuthorize (callback req action) with
    | Resolved true => ([Authorize req action], Resolved (true, None))
    | Resolved false =>
        ([Authorize req action],
         Resolved (false, Some (reply 403 (errorBody "Unauthorized"))))
    | Rejected e => ([Authorize req action], Rejected e)
    end.
Proof.
  intros Hro Hau. unfold guardMutation. rewrite Hro, Hau.
  destruct (awaitAuthorize (callback req action)) as [[|]|e]; reflexivity.
Qed.

Lemma guardMutation_open req opts action :
  default false (opts ≫= readOnly) = false ->
  opts ≫= authorize = None ->
  guardMutation req opts action = ret (true, None).
Proof. intros Hro Hau. unfold guardMutation. now rewrite Hro, Hau. Qed.

(** Every guarded route is its guard followed by its body; the body is the
    route as it runs when no option is configured. *)
Lemma mutate_guarded queues opts m req :
  mutate queues opts m req =
    guarded (guardMutation req opts (actionOf m)) (mutate queues None m req).
Proof. destruct m; reflexivity. Qed.

(** C1. In read-only mode each of the nine mutating routes answers 403 with
    a message that mentions read-only, and does nothing else: the
    authorization callback is not called and no engine operation is
    invoked, whatever callback is configured. *)
Theorem readOnly_rejects_every_mutation queues opts (m : Mutation) req :
  opts ≫= readOnly = Some true ->
  let h := mutate queues opts m req in
  statusOf (response h) = Some 403 /\
  (exists message, errorOf (response h) = Some message /\
                   mentions "read-only" message = true) /\
  List.filter isAuthorize (trace h) = [] /\
  List.filter isEngine (trace h) = [].
Proof.
  intros H h. subst h. rewrite mutate_guarded, (guardMutation_readOnly _ _ _ H).
  cbn. repeat split. eexists. split; reflexivity.
Qed.

Lemma readOnly_rejects_every_mutation_witness :
  let h := mutate [mockQueue "q" []] readOnlyOpts PostObliterate (request "q" [] VUndefined) in
  statusOf (response h) = Some 403 /\
  (exists message, errorOf (response h) = Some message /\
                   mentions "read-only" message = true) /\
  List.filter isAuthorize (trace h) = [] /\
  List.filter isEngine (trace h) = [].
Proof.
  apply (readOnly_rejects_every_mutation [mockQueue "q" []] readOnlyOpts
           PostObliterate (request "q" [] VUndefined)).
  reflexivity.
Defined.

(** Case analysis on whatever a handler is waiting for: a lookup, the
    outcome of an engine call, a parsed field. *)
Ltac settle_step :=
  match goal with
  | |- context [match ?x with _ => _ end] =>
      lazymatch type of x with
      | Outcome _ => destruct x as [?|?] eqn:?
      | option _ => destruct x eqn:?
      | bool => destruct x eqn:?
      | JsValue => destruct x eqn:?
      | unit => destruct x
      end
  | |- context [if ?x then _ else _] => destruct x eqn:?
  end.

Ltac settle := cbn; repeat (settle_step; cbn).

(** The body of a guarded route calls the engine and nothing else. *)
Lemma unguarded_trace queues m req :
  List.filter isAuthorize (trace (mutate queues None m req)) = [].
Proof.
  destruct m; cbn; unfold guarded, guardMutation; settle; reflexivity.
Qed.

(** What the body of a ready route does: whatever comes first, its last
    call is the operation of the route, on the handle the request names. *)
Lemma ready_performs queues m req queue :
  findQueue queues req = Some queue ->
  ready queues m req = true ->
  exists before e,
    trace (mutate queues None m req) = before ++ [e] /\
    List.filter isAuthorize before = [] /\
    performsOn queue req m e /\
    (failureIn e = None ->
     statusOf (response (mutate queues None m req)) = Some 200).
Proof.
  intros Hq. unfold ready. rewrite Hq.
  destruct m; cbn; unfold guarded, guardMutation; cbn; rewrite Hq; cbn.
  - intros _. exists [], (Engine (Queue.name queue) Pause (failureOf (Queue.pause queue))).
    split; [|split; [reflexivity|split; [constructor|]]];
      now destruct (Queue.pause queue).
  - intros _. exists [], (Engine (Queue.name queue) Resume (failureOf (Queue.resume queue))).
    split; [|split; [reflexivity|split; [constructor|]]];
      now destruct (Queue.resume queue).
  - intros _. exists [], (Engine (Queue.name queue) (Obliterate true)
                            (failureOf (Queue.obliterate queue true))).
    split; [|split; [reflexivity|split; [constructor|]]];
      now destruct (Queue.obliterate queue true).
  - intros _.
    set (delayed := match optField (body req) "delayed" with
                    | VBool true => true
                    | _ => false
                    end).
    exists [], (Engine (Queue.name queue) (Drain delayed)
                  (failureOf (Queue.drain queue delayed))).
    split; [|split; [reflexivity|split; [constructor|]]];
      now destruct (Queue.drain queue delayed).
  - destruct (parseIntValue (optField (body req) "count")) as [n|e0]; [|discriminate].
    intros _. cbn.
    set (cap := retryCap (orElse n 0)).
    exists [], (Engine (Queue.name queue) (RetryJobs cap)
                  (failureOf (Queue.retryJobs queue cap))).
    split; [|split; [reflexivity|split; [constructor|]]];
      now destruct (Queue.retryJobs queue cap).
  - destruct (parseIntValue (optField (body req) "grace")) as [[g|]|e0];
      [|discriminate..].
    destruct (parseIntValue (optField (body req) "limit")) as [n|e0]; [|discriminate].
    destruct (optField (body req) "type") as [| | | | |ty| |]; try discriminate.
    intros Hvalid. apply andb_prop in Hvalid as [Hg Hty].
    cbn. destruct (Z.ltb_spec g 0); [lia|].
    replace (negb (String.eqb ty "completed") && negb (String.eqb ty "failed"))
      with false
      by (destruct (String.eqb ty "completed"), (String.eqb ty "failed");
          first [reflexivity | discriminate Hty]).
    set (limit := Z.min (orElse n 100) 1000).
    exists [], (Engine (Queue.name queue) (Clean g limit ty)
                  (failureOf (Queue.clean queue g limit ty))).
    split; [|split; [reflexivity|split; [constructor|]]];
      now destruct (Queue.clean queue g limit ty).
  - destruct (Queue.getJob queue (jobIdOf req)) as [[job|]|e0] eqn:Hjob;
      [|discriminate..].
    intros _. cbn.
    exists [Engine (Queue.name queue) (GetJob (jobIdOf req)) None],
           (Engine (Queue.name queue) (JobRemove (Job.id job)) (failureOf (Job.remove job))).
    split; [|split; [reflexivity|split; [now constructor|]]];
      now destruct (Job.remove job).
  - destruct (Queue.getJob queue (jobIdOf req)) as [[job|]|e0] eqn:Hjob;
      [|discriminate..].
    intros _. cbn.
    exists [Engine (Queue.name queue) (GetJob (jobIdOf req)) None],
           (Engine (Queue.name queue) (JobRetry (Job.id job)) (failureOf (Job.retry job))).
    split; [|split; [reflexivity|split; [now constructor|]]];
      now destruct (Job.retry job).
  - destruct (Queue.getJob queue (jobIdOf req)) as [[job|]|e0] eqn:Hjob;
      [|discriminate..].
    intros _. cbn.
    exists [Engine (Queue.name queue) (GetJob (jobIdOf req)) None],
           (Engine (Queue.name queue) (JobPromote (Job.id job)) (failureOf (Job.promote job))).
    split; [|split; [reflexivity|split; [now constructor|]]];
      now destruct (Job.promote job).
Qed.

(** C2. With read-only mode off and an [authorize] callback configured,
    every mutating route first calls the callback, once, with the request
    and the action tag of that route.  If the callback returns [false], as
    a plain value or through a promise, the route answers 403 with the text
    [Unauthorized] and does nothing else: no engine operation is invoked.  If
    it returns [true], plainly or through a promise, the operation is
    performed: the route goes on exactly as it does when nothing is
    configured, and on a request that is ready for it (the queue is
    registered, the job exists, the body is valid) the last thing it does is
    the operation of the route, called on the queue the request names or on
    the job of that queue the request names, and answered with 200 when it
    succeeds. *)
Theorem authorize_decides_every_mutation queues opts (m : Mutation) req callback :
  default false (opts ≫= readOnly) = false ->
  opts ≫= authorize = Some callback ->
  let h := mutate queues opts m req in
  let answer := callback req (actionOf m) in
  (exists rest, trace h = Authorize req (actionOf m) :: rest /\
                List.filter isAuthorize rest = []) /\
  (answer = AuthValue false \/ answer = AuthPromise (Resolved false) ->
     response h =
       Some {| status := 403; json := VObj [("error", VStr "Unauthorized")] |} /\
     trace h = [Authorize req (actionOf m)]) /\
  (answer = AuthValue true \/ answer = AuthPromise (Resolved true) ->
     response h = response (mutate queues None m req) /\
     trace h = Authorize req (actionOf m) :: trace (mutate queues None m req) /\
     forall queue,
       findQueue queues req = Some queue ->
       ready queues m req = true ->
       exists before e,
         trace h = Authorize req (actionOf m) :: before ++ [e] /\
         List.filter isAuthorize before = [] /\
         performsOn queue req m e /\
         (failureIn e = None -> statusOf (response h) = Some 200)).
Proof.
  intros Hro Hau h answer. subst h.
  rewrite mutate_guarded.
  unfold guardMutation. rewrite Hro, Hau. cbn [bind]. fold answer.
  split; [|split].
  - destruct answer as [[|]|[[|]|e]|e]; cbn; eexists;
      (split; [reflexivity|]); first [apply unguarded_trace | reflexivity].
  - intros [-> | ->]; cbn; split; reflexivity.
  - intros Hyes.
    assert (Hgo : guarded (let (tr', r) :=
                             (if negb true
                              then ret (false, Some (reply 403 (errorBody "Unauthorized")))
                              else ret (true, None)) in
                           ([Authorize req (actionOf m)] ++ tr', r))
                    (mutate queues None m req) =
                  {| response := response (mutate queues None m req);
                     trace := Authorize req (actionOf m) ::
                                trace (mutate queues None m req) |}) by reflexivity.
    destruct Hyes as [-> | ->]; cbn [awaitAuthorize]; rewrite Hgo; cbn [response trace];
      (split; [reflexivity|]); (split; [reflexivity|]);
      intros queue Hq Hready;
      destruct (ready_performs queues m req queue Hq Hready)
        as (before & e & -> & Hbefore & Hperf & Hok);
      exists before, e; repeat split; assumption.
Qed.

Lemma authorize_decides_every_mutation_witness :
  let queues := [mockQueue "elsewhere" []; mockQueue "q" [mockJob "j1"]] in
  let req := request "q" [] VUndefined in
  let denied := mutate queues (authOpts (AuthValue false)) PostObliterate req in
  let allowed := mutate queues (authOpts (AuthPromise (Resolved true))) DeleteJob req in
  (statusOf (response denied) = Some 403 /\
   trace denied = [Authorize req queue_obliterate]) /\
  (response allowed = Some (reply 200 (statusBody "removed")) /\
   trace allowed =
     [Authorize req job_remove; Engine "q" (GetJob "j1") None;
      Engine "q" (JobRemove "j1") None] /\
   actionText job_remove = "job:remove").
Proof.
  intros queues req denied allowed. subst denied allowed. split.
  - destruct (authorize_decides_every_mutation queues
                (authOpts (AuthValue false)) PostObliterate req
                (fun _ _ => AuthValue false) eq_refl eq_refl)
      as (_ & Hdeny & _).
    destruct (Hdeny (or_introl eq_refl)) as (H1 & H2).
    split; [rewrite H1; reflexivity|exact H2].
  - destruct (authorize_decides_every_mutation queues
                (authOpts (AuthPromise (Resolved true))) DeleteJob req
                (fun _ _ => AuthPromise (Resolved true)) eq_refl eq_refl)
      as (_ & _ & Hallow).
    destruct (Hallow (or_intror eq_refl)) as (H1 & H2 & _).
    split; [rewrite H1|split; [rewrite H2|]]; reflexivity.
Defined.

(** * Windows and limits *)

(** C4, the claim as stated, fails.  A negative [start] is passed on as it
    is, and an [end] below [start], or a missing [end] with [start] above
    20, gives a window that ends before it starts. *)
Lemma window_is_not_clamped_below :
  let r1 := request "q" [("start", "-5"); ("end", "10")] VUndefined in
  let r2 := request "q" [("state", "waiting"); ("start", "30")] VUndefined in
  (trace (dlqRoute [mockQueue "q" []] r1)
     = [Engine "q" (GetDeadLetterJobs (-5) 10) None] /\
   ~ (0 <= windowStart r1 /\ windowStart r1 <= windowEnd r1 /\
      windowEnd r1 <= windowStart r1 + 200)) /\
  (trace (listJobs [mockQueue "q" []] [] r2)
     = [Engine "q" (GetJobs "waiting" 30 20) None] /\
   ~ (0 <= windowStart r2 /\ windowStart r2 <= windowEnd r2 /\
      windowEnd r2 <= windowStart r2 + 200)).
Proof.
  cbv zeta. split; (split; [reflexivity|]); vm_compute; intros (H1 & H2 & H3);
    first [now apply H1 | now apply H2].
Qed.

(** C4, amended.  In the job listing and the dead-letter listing, [start] is
    the parsed [start] parameter, or 0 when that is missing, unparseable or
    zero; it is not raised to 0.  The window ends at 20 when [end] is missing
    or unparseable, and otherwise at the smaller of [end] and [start + 200].
    So a supplied [end] never takes the window past [start + 200], and
    [0 <= start <= end <= start + 200] holds exactly when the parsed [start]
    is not negative and the parsed [end] is not below it (with [end] missing:
    when [start] is at most 20).  These are the bounds the engine receives. *)
Theorem window_bounds queues order req :
  let s := parseIntQuery (queryParam req "start") in
  let e := parseIntQuery (queryParam req "end") in
  let start := windowStart req in
  let endVal := windowEnd req in
  start = default 0 s /\
  (e = None -> endVal = 20) /\
  (forall n, e = Some n -> endVal = Z.min n (start + 200) /\ endVal <= start + 200) /\
  (0 <= start /\ start <= endVal /\ endVal <= start + 200 <->
   0 <= default 0 s /\
   match e with Some n => default 0 s <= n | None => default 0 s <= 20 end) /\
  (forall queue, findQueue queues req = Some queue ->
     trace (dlqRoute queues req)
       = [Engine (Queue.name queue) (GetDeadLetterJobs start endVal)
            (failureOf (Queue.getDeadLetterJobs queue start endVal))] /\
     forall st, queryParam req "state" = Some st ->
       includes VALID_STATES st = true ->
       trace (listJobs queues order req)
         = [Engine (Queue.name queue) (GetJobs st start endVal)
              (failureOf (Queue.getJobs queue st start endVal))]).
Proof.
  intros s e start endVal.
  assert (Hstart : start = default 0 s).
  { subst start. unfold windowStart. fold s.
    destruct s as [k|]; cbn; [|reflexivity].
    now destruct (Z.eqb_spec k 0). }
  assert (Hend : endVal = match e with
                          | Some n => Z.min n (start + 200)
                          | None => 20
                          end) by reflexivity.
  split; [exact Hstart|]. rewrite <- Hstart.
  split; [intros He; now rewrite Hend, He|].
  split; [intros n He; rewrite Hend, He; split; [reflexivity|lia]|].
  split; [rewrite Hend; destruct e; lia|].
  intros queue Hq. split.
  - unfold dlqRoute. rewrite Hq. fold start endVal.
    now destruct (Queue.getDeadLetterJobs queue start endVal).
  - intros st Hst Hvalid. unfold listJobs. rewrite Hq, Hst. cbn [from_option id].
    rewrite Hvalid. fold start endVal.
    assert (Hne : given (Some st) = true).
    { destruct st; [discriminate Hvalid | reflexivity]. }
    rewrite Hne. cbn [andb negb].
    now destruct (Queue.getJobs queue st start endVal).
Qed.

Lemma window_bounds_witness :
  let req := request "q" [("state", "waiting"); ("start", "0"); ("end", "99999")] VUndefined in
  windowStart req = 0 /\ windowEnd req = 200 /\
  trace (listJobs [mockQueue "q" []] [] req)
    = [Engine "q" (GetJobs "waiting" 0 200) None].
Proof.
  intros req.
  destruct (window_bounds [mockQueue "q" []] [] req)
    as (H1 & _ & H3 & _ & H5).
  split; [exact H1|].
  destruct (H3 99999 eq_refl) as [H3' _].
  split; [exact H3'|].
  destruct (H5 (mockQueue "q" []) eq_refl) as [_ H5'].
  exact (H5' "waiting" eq_refl eq_refl).
Defined.

(** C9, the claim as stated, fails: a negative [limit] reaches the engine
    unchanged, below the claimed lower bound of 1. *)
Lemma search_limit_has_no_lower_clamp :
  let req := request "q" [("limit", "-5")] VUndefined in
  exists o,
    trace (searchRoute (fun _ => None) [mockQueue "q" []] req)
      = [Engine "q" (SearchJobs o) None] /\
    searchLimit o = -5 /\
    ~ (1 <= searchLimit o <= 200).
Proof.
  cbv zeta. eexists. split; [reflexivity|]. split; [reflexivity|].
  change (~ (1 <= -5 <= 200)). lia.
Qed.

(** C9, amended.  The limit handed to the engine never exceeds 200.  It is
    50 when the [limit] parameter is missing, unparseable or zero; it is the
    smaller of [n] and 200, hence within 1 and 200, when the parameter parses
    to a positive [n]; and it is [n] itself when the parameter parses to a
    negative [n]: there is no lower clamp. *)
Theorem search_limit_bounds JSON_parse queues req :
  let n := parseIntQuery (queryParam req "limit") in
  let limit := searchLimitOf req in
  limit <= 200 /\
  (n = None \/ n = Some 0 -> limit = 50) /\
  (forall k, n = Some k -> 1 <= k -> limit = Z.min k 200 /\ 1 <= limit <= 200) /\
  (forall k, n = Some k -> k < 0 -> limit = k) /\
  (forall queue, findQueue queues req = Some queue ->
     exists o,
       trace (searchRoute JSON_parse queues req)
         = [Engine (Queue.name queue) (SearchJobs o)
              (failureOf (Queue.searchJobs queue o))] /\
       searchLimit o = limit).
Proof.
  intros n limit. subst limit. unfold searchLimitOf, MAX_PAGE_SIZE. fold n.
  split; [lia|].
  split; [intros [->| ->]; reflexivity|].
  split; [intros k -> Hk; cbn; destruct (Z.eqb_spec k 0); lia|].
  split; [intros k -> Hk; cbn; destruct (Z.eqb_spec k 0); lia|].
  intros queue Hq. unfold searchRoute. rewrite Hq.
  exists (searchOptsOf JSON_parse req). split; [|reflexivity].
  now destruct (Queue.searchJobs queue (searchOptsOf JSON_parse req)).
Qed.

Lemma search_limit_bounds_witness :
  let req := request "q" [("name", "charge"); ("state", "waiting"); ("limit", "10")]
               VUndefined in
  searchLimitOf req = 10 /\
  exists o,
    trace (searchRoute (fun _ => None) [mockQueue "q" []] req)
      = [Engine "q" (SearchJobs o) None] /\
    searchLimit o = 10.
Proof.
  intros req.
  destruct (search_limit_bounds (fun _ => None) [mockQueue "q" []] req)
    as (_ & _ & H3 & _ & H5).
  destruct (H3 10 eq_refl ltac:(lia)) as [H3' _].
  split; [exact H3'|].
  destruct (H5 (mockQueue "q" []) eq_refl) as (o & Ho & Hlim).
  exists o. split; [exact Ho|]. rewrite Hlim. exact H3'.
Defined.

(** * Bulk operations *)

Lemma guarded_pass g tr written rest :
  g = (tr, Resolved (true, written)) ->
  guarded g rest = {| response := response rest; trace := tr ++ trace rest |}.
Proof. now intros ->. Qed.

Lemma guardMutation_trace req opts action tr o :
  guardMutation req opts action = (tr, o) -> List.filter isEngine tr = [].
Proof.
  unfold guardMutation.
  destruct (default false (opts ≫= readOnly)); [now intros [= <- _]|].
  destruct (opts ≫= authorize) as [callback|]; [|now intros [= <- _]].
  cbn. destruct (awaitAuthorize (callback req action)) as [[|]|e]; cbn;
    now intros [= <- _].
Qed.

(** C10, the claim as stated, fails.  A count that is not a number does not
    always lead to [retryJobs] without a cap.  The text [12abc] is read by
    [parseInt] as 12, and the engine is given the cap 12.  And an object
    that carries a [toString] of its own cannot be converted to a string at
    all: [parseInt] throws before the [try], and the handler ends without an
    answer and without an engine call. *)
Lemma a_count_that_is_no_number :
  let queues := [mockQueue "q" []] in
  let text := request "q" [] (VObj [("count", VStr "12abc")]) in
  let object := request "q" [] (VObj [("count", VObj [("toString", VNum 1)])]) in
  (guardMutation text None queue_retryAll = ([], Resolved (true, None)) /\
   findQueue queues text = Some (mockQueue "q" []) /\
   trace (retryAllRoute queues None text) = [Engine "q" (RetryJobs (Some 12)) None]) /\
  (guardMutation object None queue_retryAll = ([], Resolved (true, None)) /\
   findQueue queues object = Some (mockQueue "q" []) /\
   response (retryAllRoute queues None object) = None /\
   trace (retryAllRoute queues None object) = []).
Proof. cbv zeta. repeat split. Qed.

(** C10, amended.  On a registered queue and past the guard, [retry-all]
    parses the body's [count].  A missing [count] converts to a string and
    parses to no number.  Whenever [count] converts to a string, the
    engine's [retryJobs] is called once: with no cap when the text parses to
    no number, to zero or to a negative number, and with the cap [c] exactly
    when it parses to a strictly positive integer [c].  When [count] cannot
    be converted the handler ends without an answer and without calling the
    engine. *)
Theorem retryAll_cap queues opts req queue tr written :
  guardMutation req opts queue_retryAll = (tr, Resolved (true, written)) ->
  findQueue queues req = Some queue ->
  let count := optField (body req) "count" in
  let h := retryAllRoute queues opts req in
  (count = VUndefined -> parseIntValue count = Resolved None) /\
  match parseIntValue count with
  | Resolved n =>
      exists cap,
        trace h = tr ++ [Engine (Queue.name queue) (RetryJobs cap)
                           (failureOf (Queue.retryJobs queue cap))] /\
        (n = None -> cap = None) /\
        (forall k, n = Some k -> k <= 0 -> cap = None) /\
        (forall c, cap = Some c <-> n = Some c /\ 0 < c)
  | Rejected _ =>
      response h = None /\ trace h = tr /\ List.filter isEngine (trace h) = []
  end.
Proof.
  intros Hg Hq count h.
  split; [intros ->; reflexivity|].
  subst h. unfold retryAllRoute. rewrite (guarded_pass _ _ _ _ Hg), Hq. fold count.
  destruct (parseIntValue count) as [n|e]; cbn [response trace uncaught].
  - exists (retryCap (orElse n 0)).
    split; [now destruct (Queue.retryJobs queue (retryCap (orElse n 0)))|].
    assert (Hcap : retryCap (orElse n 0) = match n with
                                           | Some k => if 0 <? k then Some k else None
                                           | None => None
                                           end).
    { unfold retryCap. destruct n as [k|]; [|reflexivity].
      cbn. destruct (Z.eqb_spec k 0) as [->|]; reflexivity. }
    rewrite Hcap. clear Hcap.
    split; [now intros ->|].
    split.
    { intros k -> Hk. destruct (Z.ltb_spec 0 k); [lia|reflexivity]. }
    intros c. destruct n as [k|]; [|split; [discriminate|intros [? _]; discriminate]].
    destruct (Z.ltb_spec 0 k); split.
    + intros [= ->]. auto.
    + intros [[= ->] _]. reflexivity.
    + discriminate.
    + intros [[= ->] ?]. lia.
  - rewrite app_nil_r. repeat split. apply (guardMutation_trace _ _ _ _ _ Hg).
Qed.

Lemma retryAll_cap_witness :
  let all := request "q" [] (VObj []) in
  let some := request "q" [] (VObj [("count", VNum 3)]) in
  let text := request "q" [] (VObj [("count", VStr "12abc")]) in
  trace (retryAllRoute [mockQueue "q" []] None all)
    = [Engine "q" (RetryJobs None) None] /\
  trace (retryAllRoute [mockQueue "q" []] None some)
    = [Engine "q" (RetryJobs (Some 3)) None] /\
  trace (retryAllRoute [mockQueue "q" []] None text)
    = [Engine "q" (RetryJobs (Some 12)) None].
Proof.
  intros all some text.
  pose proof (retryAll_cap [mockQueue "q" []] None all (mockQueue "q" [])
                [] None eq_refl eq_refl) as [_ Hall].
  pose proof (retryAll_cap [mockQueue "q" []] None some (mockQueue "q" [])
                [] None eq_refl eq_refl) as [_ Hsome].
  pose proof (retryAll_cap [mockQueue "q" []] None text (mockQueue "q" [])
                [] None eq_refl eq_refl) as [_ Htext].
  cbv zeta in Hall, Hsome, Htext.
  change (parseIntValue (optField (body all) "count")) with (@Resolved (option Z) None) in Hall.
  change (parseIntValue (optField (body some) "count"))
    with (@Resolved (option Z) (Some 3)) in Hsome.
  change (parseIntValue (optField (body text) "count"))
    with (@Resolved (option Z) (Some 12)) in Htext.
  destruct Hall as (cap1 & Htr1 & Hnone & _).
  destruct Hsome as (cap2 & Htr2 & _ & _ & Hcap2).
  destruct Htext as (cap3 & Htr3 & _ & _ & Hcap3).
  rewrite (Hnone eq_refl) in Htr1.
  rewrite (proj2 (Hcap2 3) (conj eq_refl (eq_refl : 0 < 3))) in Htr2.
  rewrite (proj2 (Hcap3 12) (conj eq_refl (eq_refl : 0 < 12))) in Htr3.
  split; [exact Htr1|split; [exact Htr2|exact Htr3]].
Defined.




(** * The state filter *)

(** C7, the claim as stated, fails: [?state=] carries a state value that is
    none of the five, yet the handler treats the empty string as no filter,
    answers 200 and queries the engine once per state. *)
Lemma empty_state_is_not_rejected :
  let req := request "q" [("state", EmptyString)] VUndefined in
  let h := listJobs [mockQueue "q" []] [] req in
  queryParam req "state" = Some EmptyString /\
  includes VALID_STATES EmptyString = false /\
  response h = Some (reply 200 (VArr [])) /\
  trace h = List.map (fun s => Engine "q" (GetJobs s 0 20) None) VALID_STATES.
Proof. cbv zeta. repeat split; reflexivity. Qed.

(** C7, amended.  A job listing on a registered queue whose [state] value is
    present, not empty and none of the five states is answered with 400; the
    message quotes the value and lists the five valid states; the engine is
    not called. *)
Theorem invalid_state_is_rejected queues order req queue st :
  findQueue queues req = Some queue ->
  queryParam req "state" = Some st ->
  st <> EmptyString ->
  includes VALID_STATES st = false ->
  let h := listJobs queues order req in
  response h =
    Some (reply 400 (errorBody
      ("Invalid state: " +:+ st +:+
       ". Must be one of: waiting, active, delayed, completed, failed"))) /\
  trace h = [].
Proof.
  intros Hq Hst Hne Hinvalid h. subst h. unfold listJobs.
  rewrite Hq, Hst. cbn [from_option id]. rewrite Hinvalid.
  assert (Hgiven : given (Some st) = true).
  { cbn. now destruct (String.eqb_spec st EmptyString). }
  rewrite Hgiven. split; reflexivity.
Qed.

Lemma invalid_state_is_rejected_witness :
  let h := listJobs [mockQueue "q" []] [] (request "q" [("state", "invalid")] VUndefined) in
  response h =
    Some (reply 400 (errorBody
      "Invalid state: invalid. Must be one of: waiting, active, delayed, completed, failed")) /\
  trace h = [].
Proof.
  apply (invalid_state_is_rejected [mockQueue "q" []] []
           (request "q" [("state", "invalid")] VUndefined) (mockQueue "q" []) "invalid");
    [reflexivity | reflexivity | discriminate | reflexivity].
Defined.

(** * Engine failures *)

Lemma failures_app tr1 tr2 : failures (tr1 ++ tr2) = failures tr1 ++ failures tr2.
Proof. unfold failures. apply omap_app. Qed.

Lemma coherent_ret {A} (a : A) : coherent (ret a).
Proof. reflexivity. Qed.

Lemma coherent_await {A} queue call (o : Outcome A) : coherent (await queue call o).
Proof. destruct o; cbn; [reflexivity | apply list_elem_of_singleton; reflexivity]. Qed.

Lemma coherent_bind {A B} (m : Task A) (k : A -> Task B) :
  coherent m -> (forall a, coherent (k a)) -> coherent (bind m k).
Proof.
  destruct m as [tr [a|e]]; cbn; intros Hm Hk; [|exact Hm].
  specialize (Hk a). destruct (k a) as [tr' [b|e]]; cbn in *.
  - now rewrite failures_app, Hm, Hk.
  - rewrite failures_app. apply elem_of_app. now right.
Qed.

Lemma settled_In i l : In i (settled l) <-> In i l.
Proof.
  induction l as [|j l IH]; cbn; [reflexivity|].
  rewrite filter_In, IH. destruct (Nat.eqb_spec i j) as [->|Hne]; cbn; [tauto|].
  split; [intros [H|[H _]]; auto|intros [H|H]; auto].
Qed.

Lemma NoDup_settled l : NoDup (settled l).
Proof.
  induction l as [|j l IH]; cbn; [constructor|].
  apply NoDup_cons. split.
  - rewrite list_elem_of_In, filter_In. intros [_ H].
    now rewrite Nat.eqb_refl in H.
  - apply NoDup_ListNoDup, List.NoDup_filter, NoDup_ListNoDup, IH.
Qed.

Lemma completion_In order n i : In i (completion order n) <-> (i < n)%nat.
Proof.
  unfold completion. rewrite settled_In, in_app_iff, filter_In, in_seq, Nat.ltb_lt.
  split; [intros [[_ H]|H]; lia|intros H; right; lia].
Qed.

Lemma completion_covers order n i : (i < n)%nat -> i ∈ completion order n.
Proof. intros Hi. now apply list_elem_of_In, completion_In. Qed.

Lemma firstRejected_None {A} (tasks : list (Task A)) idx i tr o :
  firstRejected tasks idx = None -> i ∈ idx -> tasks !! i = Some (tr, o) ->
  exists a, o = Resolved a.
Proof.
  induction idx as [|j idx IH]; cbn; intros Hnone Hin Hi.
  - now apply elem_of_nil in Hin.
  - apply elem_of_cons in Hin as [->|Hin].
    + rewrite Hi in Hnone. destruct o as [a|e]; [eauto|discriminate].
    + apply IH; [|assumption..].
      destruct (tasks !! j) as [[? [?|?]]|]; [assumption|discriminate|assumption].
Qed.

Lemma firstRejected_Some {A} (tasks : list (Task A)) idx e :
  firstRejected tasks idx = Some e ->
  exists i tr, tasks !! i = Some (tr, Rejected e).
Proof.
  induction idx as [|j idx IH]; cbn; [discriminate|].
  destruct (tasks !! j) as [[tr [a|e']]|] eqn:Hj; [assumption| |assumption].
  intros [= ->]. eauto.
Qed.

Lemma failures_concat_nil {A} (tasks : list (Task A)) :
  (forall t, t ∈ tasks -> failures (fst t) = []) ->
  failures (concat (List.map fst tasks)) = [].
Proof.
  induction tasks as [|t tasks IH]; cbn; intros H; [reflexivity|].
  rewrite failures_app, (H t), IH; [reflexivity| |].
  - intros t' Ht'. apply H. now apply elem_of_cons; right.
  - apply elem_of_cons. now left.
Qed.

Lemma failures_concat_elem {A} (tasks : list (Task A)) t e :
  t ∈ tasks -> e ∈ failures (fst t) ->
  e ∈ failures (concat (List.map fst tasks)).
Proof.
  induction tasks as [|t' tasks IH]; cbn; intros Ht He.
  - now apply elem_of_nil in Ht.
  - rewrite failures_app. apply elem_of_app.
    apply elem_of_cons in Ht as [->|Ht]; [now left|right; now apply IH].
Qed.

(** [Promise.all] over coherent tasks is coherent, whatever the order in
    which the tasks settle. *)
Lemma coherent_promiseAll {A} order (tasks : list (Task A)) :
  Forall coherent tasks -> coherent (promiseAll order tasks).
Proof.
  intros Hall. unfold promiseAll, coherent.
  destruct (firstRejected tasks (completion order (length tasks))) as [e|] eqn:Hfirst.
  - apply firstRejected_Some in Hfirst as (i & tr & Hi).
    apply (failures_concat_elem tasks (tr, Rejected e)).
    + eapply list_elem_of_lookup_2, Hi.
    + rewrite Forall_forall in Hall.
      apply (Hall (tr, Rejected e)). eapply list_elem_of_lookup_2, Hi.
  - apply failures_concat_nil. intros [tr o] Ht.
    apply list_elem_of_lookup in Ht as [i Hi].
    destruct (firstRejected_None _ _ _ _ _ Hfirst
                (completion_covers order _ i (lookup_lt_Some _ _ _ Hi)) Hi) as [a ->].
    rewrite Forall_forall in Hall. apply (Hall (tr, Resolved a)).
    eapply list_elem_of_lookup_2, Hi.
Qed.

Lemma surfaces_fail st message : surfaces (fail st message).
Proof. intros H. now contradict H. Qed.

Lemma surfaces_uncaught : surfaces uncaught.
Proof. intros H. now contradict H. Qed.

Lemma surfaces_tryCatch t : coherent t -> surfaces (tryCatch t).
Proof.
  destruct t as [tr [r|e]]; cbn; intros Ht H.
  - now contradict H.
  - exists e. split; [exact Ht|reflexivity].
Qed.

Lemma guardMutation_failures req opts action :
  failures (fst (guardMutation req opts action)) = [].
Proof.
  unfold guardMutation.
  destruct (default false (opts ≫= readOnly)); [reflexivity|].
  destruct (opts ≫= authorize) as [callback|]; [|reflexivity].
  cbn. now destruct (awaitAuthorize (callback req action)) as [[|]|e].
Qed.

Lemma surfaces_guarded g rest :
  failures (fst g) = [] -> surfaces rest -> surfaces (guarded g rest).
Proof.
  destruct g as [tr [[[|] written]|e]]; unfold surfaces; cbn [fst guarded trace response];
    intros Hg Hrest H.
  - rewrite failures_app, Hg in H |- *. now apply Hrest.
  - now contradict H.
  - now contradict H.
Qed.

Ltac coherence :=
  repeat first
    [ apply coherent_ret
    | apply coherent_await
    | apply coherent_bind; [|intros ?]
    | apply coherent_promiseAll
    | match goal with
      | |- coherent (match ?x with _ => _ end) => destruct x
      | |- coherent (if ?x then _ else _) => destruct x
      | |- Forall coherent (List.map _ _) => apply Forall_map, Forall_true; intros ?
      | |- Forall coherent (_ :: _) => apply Forall_cons; split
      | |- Forall coherent [] => apply Forall_nil
      end ].

Ltac surfacing :=
  repeat first
    [ apply surfaces_fail
    | apply surfaces_uncaught
    | apply surfaces_tryCatch; coherence
    | apply surfaces_guarded; [apply guardMutation_failures|]
    | match goal with
      | |- surfaces (match ?x with _ => _ end) => destruct x
      | |- surfaces (if ?x then _ else _) => destruct x
      end ].

Lemma handle_surfaces JSON_parse queues opts order r req :
  surfaces (handle JSON_parse queues opts order r req).
Proof.
  destruct r as [| | | | | | | |m]; cbn -[guardMutation];
    [| | | | | | | |destruct m; cbn -[guardMutation]].
  all: unfold listQueues, listJobs, getJobRoute, workersRoute, schedulersRoute,
         dlqRoute, metricsRoute, searchRoute, pauseRoute, resumeRoute,
         obliterateRoute, drainRoute, retryAllRoute, cleanRoute,
         removeJobRoute, retryJobRoute, promoteJobRoute,
         queueNotFound, jobNotFound, ok.
  all: surfacing.
  all: exact I.
Qed.

(** C6, the claim as stated, fails.  The text the engine fails with is not
    always what the answer carries: when the engine rejects with a value
    that is not an [Error], here the plain string [Redis connection failed],
    the answer is 500 with a fixed text in its place. *)
Lemma a_thrown_string_is_not_passed_on :
  let queue := rejectingQueue "q" (ThrowOther (VStr "Redis connection failed")) in
  let h := handle (fun _ => None) [queue] None [] GetQueues (request "q" [] VUndefined) in
  trace h = [Engine "q" GetJobCounts (Some (ThrowOther (VStr "Redis connection failed")))] /\
  response h =
    Some {| status := 500; json := VObj [("error", VStr "Internal server error")] |} /\
  errorOf (response h) <> Some "Redis connection failed".
Proof. cbv zeta. repeat split. discriminate. Qed.

(** C6, amended.  On every route, once a call to the engine has failed the
    answer is 500 and its body is the object with the single field [error].
    The text of that field is the message of the [Error] the engine threw,
    as it is; for a thrown value that is not an [Error] it is the fixed text
    [Internal server error].  Where calls run concurrently and several fail,
    the failure reported is one of theirs. *)
Theorem engine_failure_is_500 JSON_parse queues opts order (r : Route) req :
  let h := handle JSON_parse queues opts order r req in
  failures (trace h) <> [] ->
  exists e, e ∈ failures (trace h) /\
    response h =
      Some {| status := 500;
              json := VObj [("error",
                             VStr match e with
                                  | ThrowError m => m
                                  | ThrowOther _ => "Internal server error"
                                  end)] |}.
Proof.
  intros h Hfailed.
  destruct (handle_surfaces JSON_parse queues opts order r req Hfailed)
    as (e & He & Hresponse).
  exists e. split; [exact He|]. subst h. rewrite Hresponse. now destruct e.
Qed.

Lemma engine_failure_is_500_witness :
  let h := handle (fun _ => None) [brokenQueue "q" "Redis connection failed"]
             None [] GetQueues (request "q" [] VUndefined) in
  response h = Some (reply 500 (VObj [("error", VStr "Redis connection failed")])).
Proof.
  intros h.
  destruct (engine_failure_is_500 (fun _ => None)
              [brokenQueue "q" "Redis connection failed"] None [] GetQueues
              (request "q" [] VUndefined)) as (e & He & Hresponse).
  - discriminate.
  - change (e ∈ [ThrowError "Redis connection failed"]) in He.
    apply list_elem_of_singleton in He. subst e. exact Hresponse.
Defined.

(** * The merged listing *)

Section SortFacts.
Context {A : Type} (cmp : A -> A -> Z) (R : relation A).
Hypothesis cmp_le : forall x y, cmp x y <= 0 -> R x y.
Hypothesis cmp_gt : forall x y, 0 < cmp x y -> R y x.

Lemma insertSorted_Permutation x l : insertSorted cmp x l ≡ₚ x :: l.
Proof.
  induction l as [|y l IH]; cbn; [reflexivity|].
  destruct (cmp x y <=? 0); [reflexivity|].
  rewrite IH. apply perm_swap.
Qed.

Lemma sortWith_Permutation l : sortWith cmp l ≡ₚ l.
Proof.
  induction l as [|x l IH]; cbn; [reflexivity|].
  now rewrite insertSorted_Permutation, IH.
Qed.

Lemma insertSorted_HdRel a x l :
  R a x -> HdRel R a l -> HdRel R a (insertSorted cmp x l).
Proof.
  intros Hax Hal. destruct l as [|y l]; cbn; [now constructor|].
  destruct (cmp x y <=? 0); constructor; [assumption|].
  now inversion Hal.
Qed.

Lemma insertSorted_Sorted x l : Sorted R l -> Sorted R (insertSorted cmp x l).
Proof.
  induction l as [|y l IH]; cbn; intros Hs; [repeat constructor|].
  inversion Hs as [|? ? Hl Hy]; subst.
  destruct (Z.leb_spec (cmp x y) 0) as [Hle|Hgt].
  - constructor; [assumption|]. constructor. now apply cmp_le.
  - constructor; [now apply IH|].
    apply insertSorted_HdRel; [now apply cmp_gt|assumption].
Qed.

Lemma sortWith_Sorted l : Sorted R (sortWith cmp l).
Proof.
  induction l as [|x l IH]; cbn; [constructor|now apply insertSorted_Sorted].
Qed.

Lemma StronglySorted_sublist (l k : list A) :
  l `sublist_of` k -> StronglySorted R k -> StronglySorted R l.
Proof.
  induction 1 as [|x l k Hsub IH|x l k Hsub IH]; intros Hk.
  - constructor.
  - inversion Hk as [|? ? Hk' Hall]; subst. constructor; [now apply IH|].
    rewrite Forall_forall in Hall |- *. intros y Hy.
    apply Hall. now apply (sublist_subseteq _ _ Hsub).
  - inversion Hk; subst. now apply IH.
Qed.

Lemma slice_sublist start end_ (l : list A) : slice start end_ l `sublist_of` l.
Proof. unfold slice. etransitivity; [apply sublist_take|apply sublist_drop]. Qed.
End SortFacts.

#[local] Instance newestFirst_Transitive : Transitive newestFirst.
Proof. unfold newestFirst. intros a b c Hab Hbc. lia. Qed.

Lemma sorted_newestFirst l : StronglySorted newestFirst (sortWith byTimestampDesc l).
Proof.
  apply Sorted_StronglySorted; [apply _|].
  apply sortWith_Sorted; unfold byTimestampDesc, newestFirst; intros; lia.
Qed.

(** Each row of the merged listing carries the state it was fetched under,
    and is ordered by the creation time of its job. *)
Lemma tagged_row s j :
  getField "state" (tagged s j) = VStr s /\
  timestampOf (tagged s j) = default 0 (Job.timestamp j).
Proof. split; [reflexivity|]. unfold timestampOf. cbn. now destruct (Job.timestamp j). Qed.

Lemma completion_Permutation order n : completion order n ≡ₚ seq 0 n.
Proof.
  apply NoDup_Permutation; [apply NoDup_settled|apply NoDup_seq|].
  intros i. rewrite list_elem_of_In, completion_In, elem_of_seq. lia.
Qed.

Lemma omap_lookup_seq_from {A} (pre l : list A) :
  omap (fun i => (pre ++ l) !! i) (seq (length pre) (length l)) = l.
Proof.
  revert pre. induction l as [|x l IH]; intros pre; [reflexivity|].
  cbn [length seq omap list_omap].
  rewrite list_lookup_middle by reflexivity. f_equal.
  specialize (IH (pre ++ [x])).
  rewrite <- app_assoc, length_app, Nat.add_comm in IH. exact IH.
Qed.

Lemma omap_lookup_completion {A} order (l : list A) :
  omap (fun i => l !! i) (completion order (length l)) ≡ₚ l.
Proof.
  rewrite completion_Permutation.
  pose proof (omap_lookup_seq_from [] l) as H. cbn in H. now rewrite H.
Qed.

Lemma firstRejected_resolved {A} (tasks : list (Task A)) idx :
  (forall tr o, (tr, o) ∈ tasks -> exists a, o = Resolved a) ->
  firstRejected tasks idx = None.
Proof.
  intros Hall. induction idx as [|i idx IH]; cbn; [reflexivity|].
  destruct (tasks !! i) as [[tr [a|e]]|] eqn:Hi; [exact IH| |exact IH].
  apply list_elem_of_lookup_2, Hall in Hi as [a Ha]. discriminate Ha.
Qed.

Lemma promiseAll_resolved {A X} order (xs : list X) (tr : X -> list Event) (v : X -> A) :
  promiseAll order (List.map (fun x => (tr x, Resolved (v x))) xs)
    = (concat (List.map tr xs), Resolved (List.map v xs)).
Proof.
  unfold promiseAll. f_equal.
  - now rewrite List.map_map.
  - rewrite firstRejected_resolved.
    + f_equal. induction xs as [|x xs IH]; cbn; [reflexivity|]. now f_equal.
    + intros tr' o Hin. apply list_elem_of_In, in_map_iff in Hin as (x & Hx & _).
      injection Hx as _ <-. eauto.
Qed.

Lemma rows_inj (l k : list JsObject) : List.map VObj l = List.map VObj k -> l = k.
Proof.
  revert k. induction l as [|x l IH]; intros [|y k] H; try discriminate H.
  - reflexivity.
  - injection H as -> H. f_equal. now apply IH.
Qed.

(** What [slice] keeps: its [i]-th element is the element [i] places after
    the start of the range, as long as that is before the end of the range;
    a negative bound counts from the end of the list. *)
Lemma slice_lookup {A} start end_ (l : list A) (i : nat) :
  let len := Z.of_nat (length l) in
  let from := if start <? 0 then Z.max (len + start) 0 else start in
  let to := if end_ <? 0 then Z.max (len + end_) 0 else end_ in
  slice start end_ l !! i =
    if bool_decide (from + Z.of_nat i < to) then l !! (Z.to_nat from + i)%nat else None.
Proof.
  intros len from to. unfold slice. fold len.
  set (k := if start <? 0 then Z.max (len + start) 0 else Z.min start len).
  set (final := if end_ <? 0 then Z.max (len + end_) 0 else Z.min end_ len).
  assert (Hlen : len = Z.of_nat (length l)) by reflexivity.
  assert (Hk : k = Z.min from len /\ 0 <= from).
  { subst k from. destruct (Z.ltb_spec start 0); lia. }
  assert (Hfinal : final = Z.min to len).
  { subst final to. destruct (Z.ltb_spec end_ 0); lia. }
  clearbody len k final from to.
  destruct (decide (i < Z.to_nat (final - k))%nat) as [Hi|Hi].
  - rewrite lookup_take_lt by exact Hi. rewrite lookup_drop.
    rewrite bool_decide_eq_true_2 by lia. f_equal. lia.
  - rewrite lookup_take_ge by lia.
    case_bool_decide; [|reflexivity].
    symmetry. apply lookup_ge_None_2. lia.
Qed.

(** C5.  A job listing without a state filter, on a registered queue whose
    five fetches resolve, queries the engine once for each of the five
    states, over the range from 0 to the end of the window.  Every job is
    turned into a row that carries the job's fields and the state it was
    fetched under; the rows of the five states are merged, in whatever order
    the fetches settle, and sorted newest first.  The answer is the slice of
    the sorted rows from [start] up to the end of the window: its [i]-th
    row is the sorted row [i] places after [start], as long as that is
    before the end (a negative bound counts from the end, as [slice] has
    it).  The rows returned are therefore non-increasing in creation
    timestamp. *)
Theorem merged_listing_newest_first queues order req queue
    (jobsOf : string -> list Job.t) :
  findQueue queues req = Some queue ->
  given (queryParam req "state") = false ->
  (forall s, In s VALID_STATES ->
     Queue.getJobs queue s 0 (windowEnd req) = Resolved (jobsOf s)) ->
  let h := listJobs queues order req in
  let start := windowStart req in
  let endVal := windowEnd req in
  let fetch := fun s => Engine (Queue.name queue) (GetJobs s 0 endVal) None in
  exists sorted rows : list JsObject,
    trace h = [fetch "waiting"; fetch "active"; fetch "delayed";
               fetch "completed"; fetch "failed"] /\
    sorted ≡ₚ flat_map (fun s => List.map (fun j => serializeJob j ++ [("state", VStr s)])
                                   (jobsOf s))
                ["waiting"; "active"; "delayed"; "completed"; "failed"] /\
    Forall (fun row => exists s j,
              In s ["waiting"; "active"; "delayed"; "completed"; "failed"] /\
              In j (jobsOf s) /\
              getField "state" row = VStr s /\
              getField "id" row = VStr (Job.id j) /\
              timestampOf row = default 0 (Job.timestamp j)) sorted /\
    StronglySorted newestFirst sorted /\
    (let len := Z.of_nat (length sorted) in
     let from := if start <? 0 then Z.max (len + start) 0 else start in
     let to := if endVal <? 0 then Z.max (len + endVal) 0 else endVal in
     forall i : nat,
       rows !! i = if bool_decide (from + Z.of_nat i < to)
                   then sorted !! (Z.to_nat from + i)%nat
                   else None) /\
    response h = Some {| status := 200; json := VArr (List.map VObj rows) |} /\
    StronglySorted newestFirst rows.
Proof.
  intros Hq Hstate Hfetch h start endVal fetch. subst h. unfold listJobs.
  rewrite Hq, Hstate. cbn [andb]. fold start endVal.
  set (task := fun s : string =>
         let! jobs := await (Queue.name queue) (GetJobs s 0 endVal)
                        (Queue.getJobs queue s 0 endVal) in
         ret (List.map (tagged s) jobs)).
  assert (Htasks : List.map task VALID_STATES =
            List.map (fun s => ([fetch s], Resolved (List.map (tagged s) (jobsOf s))))
              VALID_STATES).
  { apply map_ext_in. intros s Hs. unfold task, fetch, endVal.
    now rewrite (Hfetch s Hs). }
  rewrite Htasks, promiseAll_resolved.
  set (parts := List.map (fun s => List.map (tagged s) (jobsOf s)) VALID_STATES).
  set (merged := concat (omap (fun i => parts !! i)
                           (completion order (length VALID_STATES)))).
  assert (Hmerged : merged ≡ₚ concat parts).
  { subst merged. replace (length VALID_STATES) with (length parts) by reflexivity.
    now rewrite omap_lookup_completion. }
  exists (sortWith byTimestampDesc merged),
         (slice start endVal (sortWith byTimestampDesc merged)).
  split; [reflexivity|].
  split.
  { rewrite sortWith_Permutation, Hmerged. subst parts. cbn. now rewrite !app_nil_r. }
  split.
  { apply Forall_forall. intros row Hrow.
    rewrite sortWith_Permutation, Hmerged in Hrow.
    apply list_elem_of_In, in_concat in Hrow as (part & Hpart & Hrow).
    apply in_map_iff in Hpart as (s & <- & Hs).
    apply in_map_iff in Hrow as (j & <- & Hj).
    exists s, j. split; [exact Hs|]. split; [exact Hj|].
    split; [reflexivity|]. split; [reflexivity|]. apply tagged_row. }
  split; [apply sorted_newestFirst|].
  split; [cbv zeta; intros i; apply (slice_lookup start endVal _ i)|].
  split; [reflexivity|].
  eapply StronglySorted_sublist; [apply slice_sublist|apply sorted_newestFirst].
Qed.

Lemma merged_listing_newest_first_witness :
  let h := listJobs [stateQueue] [4; 0]%nat
             (request "q" [("start", "1"); ("end", "50")] VUndefined) in
  exists rows,
    response h = Some (reply 200 (VArr (List.map VObj rows))) /\
    StronglySorted newestFirst rows /\
    List.map timestampOf rows = [200; 100] /\
    List.map (getField "state") rows = [VStr "active"; VStr "waiting"].
Proof.
  intros h.
  destruct (merged_listing_newest_first [stateQueue] [4; 0]%nat
              (request "q" [("start", "1"); ("end", "50")] VUndefined)
              stateQueue jobsByState
              eq_refl eq_refl (fun s _ => eq_refl))
    as (sorted & rows & _ & _ & _ & _ & _ & Hresponse & Hsorted).
  exists rows. split; [exact Hresponse|]. split; [exact Hsorted|].
  assert (Hrows : List.map VObj rows =
                    List.map VObj [tagged "active" (jobAt "c" 200);
                                   tagged "waiting" (jobAt "a" 100)]).
  { assert (Hh : response h =
                   Some (reply 200 (VArr (List.map VObj
                     [tagged "active" (jobAt "c" 200);
                      tagged "waiting" (jobAt "a" 100)])))) by reflexivity.
    subst h. rewrite Hresponse in Hh. now injection Hh. }
  rewrite (rows_inj _ _ Hrows). split; reflexivity.
Defined.

(** * The event stream *)

Section Emitters.
Import Sse.

Lemma removeLast_snoc x l : removeLast x (l ++ [x]) = Some l.
Proof.
  induction l as [|y l IH]; cbn.
  - now rewrite bool_decide_eq_true_2.
  - now rewrite IH.
Qed.

Lemma removeLast_snoc_ne x y l :
  x <> y -> removeLast x (l ++ [y]) = (fun l' => l' ++ [y]) <$> removeLast x l.
Proof.
  intros Hne. induction l as [|z l IH]; cbn.
  - rewrite bool_decide_eq_false_2; [reflexivity|congruence].
  - rewrite IH. destruct (removeLast x l) as [l'|]; cbn; [reflexivity|].
    now destruct (bool_decide (z = x)).
Qed.

Lemma removeLast_absent x l : x ∉ l -> removeLast x l = None.
Proof.
  induction l as [|y l IH]; cbn; intros Hx; [reflexivity|].
  apply not_elem_of_cons in Hx as [Hxy Hx].
  rewrite (IH Hx). rewrite bool_decide_eq_false_2; [reflexivity|congruence].
Qed.

Lemma on_length q ev h s : length (on q ev h s) = length s.
Proof. apply length_alter. Qed.

(** A closure just registered is the one [removeListener] takes off. *)
Lemma removeListener_on q ev h s :
  (q < length s)%nat -> removeListener q ev h (on q ev h s) = (s, true).
Proof.
  intros Hq. destruct (lookup_lt_is_Some_2 s q Hq) as [e He].
  unfold removeListener, on. rewrite list_lookup_alter_eq, He. cbn.
  rewrite removeLast_snoc. f_equal.
  apply list_eq. intros i. destruct (decide (i = q)) as [->|Hi].
  - rewrite list_lookup_insert_eq by (rewrite length_alter; exact Hq).
    rewrite He. now destruct e.
  - rewrite list_lookup_insert_ne, list_lookup_alter_ne by congruence. reflexivity.
Qed.

(** Taking one closure off commutes with registering another. *)
Lemma removeListener_on_ne q ev h q' ev' h' s :
  h <> h' ->
  removeListener q ev h (on q' ev' h' s) =
    (on q' ev' h' (fst (removeListener q ev h s)), snd (removeListener q ev h s)).
Proof.
  intros Hne. unfold removeListener, on.
  destruct (decide (q = q')) as [<-|Hq].
  - rewrite list_lookup_alter_eq. destruct (s !! q) as [e|] eqn:He; cbn; [|reflexivity].
    rewrite removeLast_snoc_ne by congruence.
    destruct (removeLast (ev, h) (registered e)) as [l'|]; cbn; [|reflexivity].
    f_equal. apply list_eq. intros i.
    assert (Hlen : (q < length s)%nat) by (eapply lookup_lt_Some, He).
    destruct (decide (i = q)) as [->|Hi].
    + rewrite list_lookup_insert_eq by (rewrite length_alter; exact Hlen).
      rewrite list_lookup_alter_eq, list_lookup_insert_eq by exact Hlen. reflexivity.
    + rewrite list_lookup_insert_ne, !list_lookup_alter_ne, list_lookup_insert_ne
        by congruence. reflexivity.
  - rewrite list_lookup_alter_ne by congruence.
    destruct (s !! q) as [e|] eqn:He; cbn; [|reflexivity].
    destruct (removeLast (ev, h) (registered e)) as [l'|]; cbn; [|reflexivity].
    f_equal. apply list_eq. intros i.
    assert (Hlen : (q < length s)%nat) by (eapply lookup_lt_Some, He).
    destruct (decide (i = q)) as [->|Hi].
    + rewrite list_lookup_insert_eq by (rewrite length_alter; exact Hlen).
      rewrite list_lookup_alter_ne, list_lookup_insert_eq by (congruence || exact Hlen).
      reflexivity.
    + rewrite list_lookup_insert_ne by congruence.
      destruct (decide (i = q')) as [->|Hi'].
      * rewrite !list_lookup_alter_eq, list_lookup_insert_ne by congruence. reflexivity.
      * rewrite !list_lookup_alter_ne, list_lookup_insert_ne by congruence. reflexivity.
Qed.

(** A closure no emitter holds cannot be taken off. *)
Lemma removeListener_unknown q ev h s :
  unknownTo s h -> removeListener q ev h s = (s, false).
Proof.
  intros Hunknown. unfold removeListener.
  destruct (s !! q) as [e|] eqn:He; [|reflexivity].
  rewrite removeLast_absent; [reflexivity|].
  intros Hin. apply (Hunknown e (ev, h)); [|exact Hin|reflexivity].
  eapply list_elem_of_lookup_2, He.
Qed.
End Emitters.

Section Connections.
Import Sse.

Lemma removeListener_registerAll q ev h ls s :
  (forall l, l ∈ ls -> handler l <> h) ->
  removeListener q ev h (registerAll ls s) =
    (registerAll ls (fst (removeListener q ev h s)), snd (removeListener q ev h s)).
Proof.
  revert s. induction ls as [|l ls IH]; intros s Hls.
  - cbn. now destruct (removeListener q ev h s).
  - cbn. rewrite IH by (intros l' Hl'; apply Hls; now apply elem_of_cons; right).
    rewrite removeListener_on_ne; [reflexivity|].
    intros ->. apply (Hls l); [apply elem_of_cons; now left|reflexivity].
Qed.

(** Unregistering, in order, exactly the entries just registered gives the
    emitters back and takes every closure off once. *)
Lemma removeAll_registerAll ls s :
  NoDup (List.map handler ls) ->
  (forall l, l ∈ ls -> (qe l < length s)%nat) ->
  removeAll ls (registerAll ls s) = (s, List.map handler ls).
Proof.
  revert s. induction ls as [|l ls IH]; intros s Hnodup Hvalid; [reflexivity|].
  cbn [registerAll fold_left removeAll List.map].
  change (fold_left _ ls ?x) with (registerAll ls x).
  apply NoDup_cons in Hnodup as [Hfresh Hnodup].
  rewrite removeListener_registerAll.
  - rewrite removeListener_on by (apply Hvalid, elem_of_cons; now left).
    cbn [fst snd]. rewrite IH; [reflexivity|exact Hnodup|].
    intros l' Hl'. apply Hvalid, elem_of_cons. now right.
  - intros l' Hl' Heq. apply Hfresh. rewrite <- Heq.
    apply list_elem_of_In, in_map, list_elem_of_In, Hl'.
Qed.

(** Unregistering entries whose closures no emitter holds changes nothing. *)
Lemma removeAll_unknown ls s :
  (forall l, l ∈ ls -> unknownTo s (handler l)) ->
  removeAll ls s = (s, []).
Proof.
  induction ls as [|l ls IH]; intros Hls; [reflexivity|].
  cbn. rewrite removeListener_unknown by (apply Hls, elem_of_cons; now left).
  rewrite IH; [reflexivity|].
  intros l' Hl'. apply Hls, elem_of_cons. now right.
Qed.

Lemma listenersFrom_handlers next ts :
  List.map handler (listenersFrom next ts) = seq next (length ts).
Proof.
  revert next. induction ts as [|[q ev] ts IH]; intros next; [reflexivity|].
  cbn. now rewrite IH.
Qed.

Lemma listenersFrom_qe next ts :
  List.map qe (listenersFrom next ts) = List.map fst ts.
Proof.
  revert next. induction ts as [|[q ev] ts IH]; intros next; [reflexivity|].
  cbn. now rewrite IH.
Qed.

(** The two loops of the handler, as one pass over their targets. *)
Lemma subscribe_all ts w ls :
  fold_left subscribe ts (w, ls) =
    ({| sources := registerAll (listenersFrom (nextHandler w) ts) (sources w);
        nextHandler := nextHandler w + length ts;
        timers := timers w; nextTimer := nextTimer w |},
     ls ++ listenersFrom (nextHandler w) ts).
Proof.
  revert w ls. induction ts as [|[q ev] ts IH]; intros w ls.
  - cbn. rewrite app_nil_r, Nat.add_0_r. now destruct w.
  - cbn [fold_left subscribe]. rewrite IH. cbn.
    rewrite <- app_assoc, Nat.add_succ_r. reflexivity.
Qed.

Lemma unsubscribe_all ls w log :
  fold_left unsubscribe ls (w, log) =
    ({| sources := fst (removeAll ls (sources w)); nextHandler := nextHandler w;
        timers := timers w; nextTimer := nextTimer w |},
     log ++ snd (removeAll ls (sources w))).
Proof.
  revert w log. induction ls as [|l ls IH]; intros w log.
  - cbn. rewrite app_nil_r. now destruct w.
  - cbn [fold_left unsubscribe removeAll].
    destruct (removeListener (qe l) (event l) (handler l) (sources w)) as [s1 found].
    rewrite IH. cbn [sources nextHandler timers nextTimer].
    destruct (removeAll ls s1) as [s2 log']. cbn [fst snd].
    f_equal. destruct found; cbn; now rewrite <- ?app_assoc.
Qed.

Lemma targets_length queueEvents :
  length (targets queueEvents) = (7 * length queueEvents)%nat.
Proof.
  unfold targets. induction queueEvents as [|q qs IH]; [reflexivity|].
  cbn [flat_map]. rewrite length_app, IH. cbn [List.map eventNames length]. lia.
Qed.

Lemma targets_valid queueEvents n :
  Forall (fun q => (q < n)%nat) queueEvents ->
  forall t, t ∈ targets queueEvents -> (fst t < n)%nat.
Proof.
  intros Hall t Ht. unfold targets in Ht.
  apply list_elem_of_In, in_flat_map in Ht as (q & Hq & Ht).
  apply in_map_iff in Ht as (ev & <- & _). cbn.
  rewrite Forall_forall in Hall. now apply Hall, list_elem_of_In.
Qed.
End Connections.

Section Teardown.
Import Sse.

Lemma registered_on q ev h s q' e r :
  s !! q' = Some e -> r ∈ registered e ->
  exists e', on q ev h s !! q' = Some e' /\ r ∈ registered e'.
Proof.
  intros He Hr. unfold on. destruct (decide (q = q')) as [->|Hq].
  - rewrite list_lookup_alter_eq, He. cbn. eexists. split; [reflexivity|].
    cbn. apply elem_of_app. now left.
  - rewrite list_lookup_alter_ne by exact Hq. eauto.
Qed.

Lemma registered_registerAll ls s q e r :
  s !! q = Some e -> r ∈ registered e ->
  exists e', registerAll ls s !! q = Some e' /\ r ∈ registered e'.
Proof.
  revert s e. induction ls as [|l ls IH]; intros s e He Hr; [eauto|].
  cbn. destruct (registered_on (qe l) (event l) (handler l) s q e r He Hr)
    as (e' & He' & Hr').
  now apply (IH _ e').
Qed.

(** While the connection is open each of its entries sits on its emitter. *)
Lemma registerAll_registered ls s l :
  l ∈ ls -> (qe l < length s)%nat ->
  exists e, registerAll ls s !! qe l = Some e /\ (event l, handler l) ∈ registered e.
Proof.
  revert s. induction ls as [|l' ls IH]; intros s Hl Hq.
  - now apply elem_of_nil in Hl.
  - apply elem_of_cons in Hl as [->|Hl].
    + cbn. destruct (lookup_lt_is_Some_2 s (qe l') Hq) as [e He].
      apply (registered_registerAll ls _ (qe l')
               {| name := name e; registered := registered e ++ [(event l', handler l')] |}).
      * unfold on. now rewrite list_lookup_alter_eq, He.
      * cbn. apply elem_of_app. right. apply list_elem_of_singleton. reflexivity.
    + cbn. apply IH; [exact Hl|]. now rewrite on_length.
Qed.

Lemma filter_fresh_timer ts t :
  (forall t', t' ∈ ts -> (t' < t)%nat) ->
  List.filter (fun t' => negb (Nat.eqb t' t)) ts = ts.
Proof.
  induction ts as [|t0 ts IH]; intros Hts; [reflexivity|].
  cbn. assert (Ht0 : (t0 < t)%nat) by (apply Hts, elem_of_cons; now left).
  destruct (Nat.eqb_spec t0 t) as [->|_]; [lia|]. cbn. f_equal.
  apply IH. intros t' Ht'. apply Hts, elem_of_cons. now right.
Qed.

Lemma listenerCount_sources w w' :
  sources w' = sources w ->
  forall q ev, listenerCount w' q ev = listenerCount w q ev.
Proof. intros H q ev. unfold listenerCount. now rewrite H. Qed.
End Teardown.

Section Lifecycle.
Import Sse.

Lemma filter_absent_timer ts t :
  t ∉ ts -> List.filter (fun t' => negb (Nat.eqb t' t)) ts = ts.
Proof.
  induction ts as [|t0 ts IH]; intros Ht; [reflexivity|].
  apply not_elem_of_cons in Ht as [Hne Ht]. cbn.
  destruct (Nat.eqb_spec t0 t) as [->|_]; [congruence|]. cbn. f_equal. now apply IH.
Qed.

(** What [GET /api/events] leaves behind. *)
Lemma openConnection_eq queueEvents w :
  openConnection queueEvents w =
    let ls := listenersFrom (nextHandler w) (targets queueEvents) in
    ({| sources := registerAll ls (sources w);
        nextHandler := nextHandler w + length (targets queueEvents);
        timers := timers w ++ [nextTimer w];
        nextTimer := S (nextTimer w) |},
     {| listeners := ls; heartbeat := nextTimer w |}).
Proof. unfold openConnection. now rewrite subscribe_all. Qed.

(** The first [cleanup] after opening. *)
Lemma cleanup_first queueEvents w :
  wellFormed w ->
  Forall (fun q => (q < length (sources w))%nat) queueEvents ->
  cleanup (snd (openConnection queueEvents w)) (fst (openConnection queueEvents w)) =
    ({| sources := sources w;
        nextHandler := nextHandler w + length (targets queueEvents);
        timers := timers w;
        nextTimer := S (nextTimer w) |},
     List.map handler (listenersFrom (nextHandler w) (targets queueEvents))).
Proof.
  intros [_ Htimers] Hvalid. rewrite openConnection_eq. cbn [fst snd].
  unfold cleanup. cbn [listeners heartbeat]. rewrite unsubscribe_all.
  cbn [clearInterval sources nextHandler timers nextTimer].
  rewrite removeAll_registerAll.
  - cbn [fst snd app]. f_equal. f_equal.
    rewrite List.filter_app, (filter_fresh_timer _ _ Htimers). cbn.
    rewrite Nat.eqb_refl. cbn. apply app_nil_r.
  - rewrite listenersFrom_handlers. apply NoDup_seq.
  - intros l Hl.
    assert (Hq : qe l ∈ List.map fst (targets queueEvents)).
    { rewrite <- (listenersFrom_qe (nextHandler w)).
      apply list_elem_of_In, in_map, list_elem_of_In, Hl. }
    apply list_elem_of_In, in_map_iff in Hq as (t & <- & Ht).
    apply (targets_valid queueEvents _ Hvalid), list_elem_of_In, Ht.
Qed.

(** Any later [cleanup]: nothing is left to cancel or to take off. *)
Lemma cleanup_again c w :
  heartbeat c ∉ timers w ->
  (forall l, l ∈ listeners c -> unknownTo (sources w) (handler l)) ->
  cleanup c w = (w, []).
Proof.
  intros Ht Hls. unfold cleanup. rewrite unsubscribe_all.
  cbn [clearInterval sources nextHandler timers nextTimer].
  rewrite (removeAll_unknown _ _ Hls), (filter_absent_timer _ _ Ht).
  now destruct w.
Qed.

Lemma terminate_again c evs w :
  heartbeat c ∉ timers w ->
  (forall l, l ∈ listeners c -> unknownTo (sources w) (handler l)) ->
  terminate c evs w = (w, []).
Proof.
  intros Ht Hls. induction evs as [|ev evs IH]; [reflexivity|].
  cbn. now rewrite (cleanup_again _ _ Ht Hls), IH.
Qed.

(** C3.  A connection opened by [GET /api/events] registers seven handlers
    on every configured source and starts a heartbeat.  Its terminal events,
    ['close'] on the request and ['error'] on the response, both run
    [cleanup]; after one or more of them, in any order, every handler the
    connection registered has been taken off its source exactly once, the
    heartbeat timer is cancelled, and every source holds the listeners it
    held before the connection opened. *)
Theorem connection_teardown opts (w : World) (evs : list Terminal) w1 conn w2 log :
  wellFormed w ->
  Forall (fun q => (q < length (sources w))%nat) (configuredSources opts) ->
  evs <> [] ->
  eventsRoute opts w = (w1, conn) ->
  terminate conn evs w1 = (w2, log) ->
  length (listeners conn) = (7 * length (configuredSources opts))%nat /\
  (forall l, l ∈ listeners conn ->
     exists e, sources w1 !! qe l = Some e /\ (event l, handler l) ∈ registered e) /\
  log = List.map handler (listeners conn) /\
  NoDup log /\
  (heartbeat conn ∈ timers w1) /\
  (heartbeat conn ∉ timers w2) /\
  timers w2 = timers w /\
  sources w2 = sources w /\
  (forall q ev, listenerCount w2 q ev = listenerCount w q ev).
Proof.
  intros Hwf Hvalid Hevs Hopen Hterm. unfold eventsRoute in Hopen.
  set (qs := configuredSources opts) in *.
  pose proof (cleanup_first qs w Hwf Hvalid) as Hfirst.
  rewrite Hopen in Hfirst. cbn [fst snd] in Hfirst.
  rewrite openConnection_eq in Hopen. cbn zeta in Hopen.
  injection Hopen as Hw1 Hconn.
  assert (Hls : listeners conn = listenersFrom (nextHandler w) (targets qs))
    by now rewrite <- Hconn.
  assert (Hhb : heartbeat conn = nextTimer w) by now rewrite <- Hconn.
  destruct Hwf as [Hhandlers Htimers].
  assert (Hfresh : nextTimer w ∉ timers w).
  { intros Hin. apply Htimers in Hin. lia. }
  destruct evs as [|ev evs]; [contradiction|].
  cbn [terminate] in Hterm. rewrite Hfirst in Hterm.
  rewrite terminate_again in Hterm.
  - injection Hterm as <- <-. cbn [sources timers]. rewrite app_nil_r, Hls, Hhb.
    split. { rewrite <- (length_map handler), listenersFrom_handlers, length_seq.
             apply targets_length. }
    split. { intros l Hl. rewrite <- Hw1. cbn [sources].
             apply registerAll_registered; [exact Hl|].
             assert (Hq : qe l ∈ List.map fst (targets qs)).
             { rewrite <- (listenersFrom_qe (nextHandler w)).
               apply list_elem_of_In, in_map, list_elem_of_In, Hl. }
             apply list_elem_of_In, in_map_iff in Hq as (t & <- & Ht).
             apply (targets_valid qs _ Hvalid), list_elem_of_In, Ht. }
    split; [reflexivity|].
    split. { rewrite listenersFrom_handlers. apply NoDup_seq. }
    split. { rewrite <- Hw1. cbn [timers]. apply elem_of_app. right.
             apply list_elem_of_singleton. reflexivity. }
    split; [exact Hfresh|].
    split; [reflexivity|]. split; [reflexivity|].
    now apply listenerCount_sources.
  - cbn [timers]. now rewrite Hhb.
  - cbn [sources]. rewrite Hls. intros l Hl e r He Hr Heq.
    specialize (Hhandlers e r He Hr).
    assert (Hh : handler l ∈ seq (nextHandler w) (length (targets qs))).
    { rewrite <- listenersFrom_handlers.
      apply list_elem_of_In, in_map, list_elem_of_In, Hl. }
    apply elem_of_seq in Hh. lia.
Qed.
End Lifecycle.

Lemma demoWorld_wellFormed : Sse.wellFormed demoWorld.
Proof.
  split.
  - intros e r He Hr. cbn in He.
    repeat (apply elem_of_cons in He as [->|He]);
      [| |now apply elem_of_nil in He]; cbn in Hr.
    + apply list_elem_of_singleton in Hr as ->. cbn. lia.
    + now apply elem_of_nil in Hr.
  - intros t Ht. cbn in Ht. apply list_elem_of_singleton in Ht as ->. cbn. lia.
Qed.

Lemma connection_teardown_witness :
  let w1 := fst (eventsRoute demoOpts demoWorld) in
  let conn := snd (eventsRoute demoOpts demoWorld) in
  let w2 := fst (Sse.terminate conn [Sse.ResError; Sse.ReqClose] w1) in
  let log := snd (Sse.terminate conn [Sse.ResError; Sse.ReqClose] w1) in
  length (Sse.listeners conn) = 21%nat /\
  log = List.map Sse.handler (Sse.listeners conn) /\
  NoDup log /\
  Sse.timers w2 = Sse.timers demoWorld /\
  Sse.sources w2 = Sse.sources demoWorld /\
  Sse.listenerCount w1 0 "completed" = 3%nat /\
  Sse.listenerCount w2 0 "completed" = 1%nat.
Proof.
  intros w1 conn w2 log.
  assert (Hvalid : Forall (fun q => (q < length (Sse.sources demoWorld))%nat)
                     (configuredSources demoOpts))
    by (repeat constructor; cbn; lia).
  assert (Hopen : eventsRoute demoOpts demoWorld = (w1, conn))
    by (vm_compute; reflexivity).
  assert (Hterm : Sse.terminate conn [Sse.ResError; Sse.ReqClose] w1 = (w2, log))
    by (vm_compute; reflexivity).
  destruct (connection_teardown demoOpts demoWorld [Sse.ResError; Sse.ReqClose]
              w1 conn w2 log demoWorld_wellFormed Hvalid ltac:(discriminate)
              Hopen Hterm)
    as (Hlen & _ & Hlog & Hnodup & _ & _ & Htimers & Hsources & Hcount).
  split; [exact Hlen|]. split; [exact Hlog|]. split; [exact Hnodup|].
  split; [exact Htimers|]. split; [exact Hsources|].
  split; [vm_compute; reflexivity|]. rewrite Hcount. vm_compute; reflexivity.
Defined.

(** * Lookups that fail *)

Lemma body_unknown_queue JSON_parse queues order (r : Route) req :
  r <> GetQueues ->
  findQueue queues req = None ->
  handle JSON_parse queues None order r req = fail 404 "Queue not found".
Proof.
  intros Hr Hq.
  destruct r as [| | | | | | | |m]; [contradiction|..|destruct m]; cbn;
    unfold listJobs, getJobRoute, workersRoute, schedulersRoute, dlqRoute,
      metricsRoute, searchRoute, pauseRoute, resumeRoute, obliterateRoute,
      drainRoute, retryAllRoute, cleanRoute, removeJobRoute, retryJobRoute,
      promoteJobRoute, guarded; cbn; now rewrite Hq.
Qed.

(** X1.  Every route whose path names a queue answers 404 with the text
    [Queue not found] when no registered queue has that name, and calls the
    engine for nothing; on a guarded route this is the answer once the guard
    has let the request through (a denied request is answered 403 before
    the name is looked at). *)
Theorem unknown_queue_is_404 JSON_parse queues opts order (r : Route) req :
  r <> GetQueues ->
  findQueue queues req = None ->
  let h := handle JSON_parse queues opts order r req in
  List.filter isEngine (trace h) = [] /\
  (passes (guardOf opts r req) = true ->
     response h = Some (reply 404 (errorBody "Queue not found"))) /\
  (passes (guardOf opts r req) = false ->
     statusOf (response h) <> Some 404).
Proof.
  intros Hr Hq h.
  pose proof (body_unknown_queue JSON_parse queues order r req Hr Hq) as Hbody.
  destruct r as [| | | | | | | |m]; [contradiction|..];
    try (subst h; cbn in Hbody |- *; rewrite Hbody; cbn;
         split; [reflexivity|split; [reflexivity|discriminate]]).
  subst h. cbn [handle guardOf] in *. rewrite mutate_guarded, Hbody.
  destruct (guardMutation req opts (actionOf m)) as [tr [[[|] written]|e]] eqn:Hg;
    pose proof (guardMutation_trace _ _ _ _ _ Hg) as Htr; cbn.
  - rewrite app_nil_r. repeat split; [exact Htr | discriminate].
  - split; [exact Htr|]. split; [discriminate|]. intros _.
    revert Hg. unfold guardMutation.
    destruct (default false (opts ≫= readOnly)); [intros [= _ <-]; discriminate|].
    destruct (opts ≫= authorize) as [callback|]; [|discriminate].
    cbn. destruct (awaitAuthorize (callback req (actionOf m))) as [[|]|?]; cbn;
      [discriminate | intros [= _ <-]; discriminate | discriminate].
  - split; [exact Htr|]. split; discriminate.
Qed.

Lemma unknown_queue_is_404_witness :
  let req := request "nonexistent" [] VUndefined in
  response (handle (fun _ => None) [mockQueue "q" []] None [] GetJobsList req)
    = Some (reply 404 (errorBody "Queue not found")) /\
  response (handle (fun _ => None) [mockQueue "q" []] (authOpts (AuthValue true)) []
              (Mutating PostPause) req)
    = Some (reply 404 (errorBody "Queue not found")).
Proof.
  intros req. split.
  - destruct (unknown_queue_is_404 (fun _ => None) [mockQueue "q" []] None []
                GetJobsList req ltac:(discriminate) eq_refl) as (_ & H & _).
    exact (H eq_refl).
  - destruct (unknown_queue_is_404 (fun _ => None) [mockQueue "q" []]
                (authOpts (AuthValue true)) [] (Mutating PostPause) req
                ltac:(discriminate) eq_refl) as (_ & H & _).
    exact (H eq_refl).
Defined.

Lemma handle_guarded JSON_parse queues opts order (r : Route) req :
  handle JSON_parse queues opts order r req =
    guarded (guardOf opts r req) (handle JSON_parse queues None order r req).
Proof.
  destruct r as [| | | | | | | |m]; cbn [handle guardOf];
    try (unfold guarded, ret;
         now destruct (handle _ _ _ _ _ _) || now destruct (listQueues _ _ _)
         || now destruct (listJobs _ _ _) || now destruct (getJobRoute _ _)
         || now destruct (workersRoute _ _) || now destruct (schedulersRoute _ _)
         || now destruct (dlqRoute _ _) || now destruct (metricsRoute _ _ _)
         || now destruct (searchRoute _ _ _)).
  apply mutate_guarded.
Qed.

Lemma passes_inv g :
  passes g = true -> exists tr written, g = (tr, Resolved (true, written)).
Proof. destruct g as [tr [[[|] written]|e]]; cbn; [eauto|discriminate..]. Qed.

Lemma guardOf_trace opts r req tr o :
  guardOf opts r req = (tr, o) -> List.filter isEngine tr = [].
Proof.
  destruct r as [| | | | | | | |m]; cbn; try (now intros [= <- _]).
  apply guardMutation_trace.
Qed.

(** X2.  On the four routes whose path carries a job id (read one job,
    remove, retry, promote), when the queue exists but the engine knows no
    such job the answer is 404 with the text [Job not found]; the lookup is
    the only engine call: no log or state is fetched and no job operation
    runs. *)
Theorem unknown_job_is_404 JSON_parse queues opts order (r : Route) req queue :
  takesJobId r = true ->
  passes (guardOf opts r req) = true ->
  findQueue queues req = Some queue ->
  Queue.getJob queue (jobIdOf req) = Resolved None ->
  let h := handle JSON_parse queues opts order r req in
  response h = Some (reply 404 (errorBody "Job not found")) /\
  List.filter isEngine (trace h)
    = [Engine (Queue.name queue) (GetJob (jobIdOf req)) None].
Proof.
  intros Hr Hpass Hq Hjob h. subst h. rewrite handle_guarded.
  destruct (passes_inv _ Hpass) as (tr & written & Hg).
  rewrite (guarded_pass _ _ _ _ Hg). cbn [response trace].
  rewrite List.filter_app, (guardOf_trace _ _ _ _ _ Hg). cbn [app].
  destruct r as [| | | | | | | |[]]; try discriminate Hr; cbn;
    unfold getJobRoute, removeJobRoute, retryJobRoute, promoteJobRoute, guarded;
    cbn; rewrite Hq; cbn; rewrite Hjob; cbn; split; reflexivity.
Qed.

Lemma unknown_job_is_404_witness :
  let req := request "q" [] VUndefined in
  let h := handle (fun _ => None) [mockQueue "q" []] None []
             (Mutating DeleteJob) req in
  response h = Some (reply 404 (errorBody "Job not found")) /\
  List.filter isEngine (trace h) = [Engine "q" (GetJob "j1") None].
Proof.
  intros req.
  apply (unknown_job_is_404 (fun _ => None) [mockQueue "q" []] None []
           (Mutating DeleteJob) req (mockQueue "q" [])); reflexivity.
Defined.

(** * A callback that fails *)

(** X3.  When the [authorize] callback throws, or the promise it returns
    rejects, a guarded route writes no response at all and calls the engine
    for nothing: the error leaves the handler. *)
Theorem failing_authorize_leaves_no_response queues opts (m : Mutation) req callback e :
  default false (opts ≫= readOnly) = false ->
  opts ≫= authorize = Some callback ->
  awaitAuthorize (callback req (actionOf m)) = Rejected e ->
  let h := mutate queues opts m req in
  response h = None /\ trace h = [Authorize req (actionOf m)].
Proof.
  intros Hro Hau Hthrow h. subst h.
  rewrite mutate_guarded, (guardMutation_authorize _ _ _ _ Hro Hau), Hthrow.
  split; reflexivity.
Qed.

Lemma failing_authorize_leaves_no_response_witness :
  let opts := authOpts (AuthPromise (Rejected (ThrowError "session store down"))) in
  let req := request "q" [] VUndefined in
  let h := mutate [mockQueue "q" []] opts PostObliterate req in
  response h = None /\ trace h = [Authorize req queue_obliterate].
Proof.
  intros opts req.
  apply (failing_authorize_leaves_no_response [mockQueue "q" []] opts PostObliterate req
           (fun _ _ => AuthPromise (Rejected (ThrowError "session store down")))
           (ThrowError "session store down")); reflexivity.
Defined.

(** * The shape of every answer *)

Lemma within_fail allowed st message :
  In st allowed -> answersWithin allowed (fail st message).
Proof. intros Hin r [= <-]. split; [exact Hin|]. intros _. now exists message. Qed.

Lemma within_uncaught allowed : answersWithin allowed uncaught.
Proof. intros r [=]. Qed.

Lemma within_tryCatch allowed t :
  In 500 allowed -> settlesWithin allowed t -> answersWithin allowed (tryCatch t).
Proof.
  intros H500 Ht. destruct t as [tr [r|e]]; intros r' [= <-].
  - now apply Ht.
  - split; [exact H500|]. intros _. destruct e; eexists; reflexivity.
Qed.

Lemma within_guarded allowed req opts action rest :
  In 403 allowed -> answersWithin allowed rest ->
  answersWithin allowed (guarded (guardMutation req opts action) rest).
Proof.
  intros H403 Hrest. unfold guardMutation.
  destruct (default false (opts ≫= readOnly)).
  { intros r [= <-]. split; [exact H403|]. intros _. eexists; reflexivity. }
  destruct (opts ≫= authorize) as [callback|]; [|exact Hrest].
  cbn. destruct (awaitAuthorize (callback req action)) as [[|]|e]; cbn.
  - exact Hrest.
  - intros r [= <-]. split; [exact H403|]. intros _. eexists; reflexivity.
  - intros r [=].
Qed.

Lemma settles_ok allowed v : In 200 allowed -> settlesWithin allowed (ok v).
Proof. intros H200 r [= <-]. split; [exact H200|]. intros H. now contradict H. Qed.

Lemma settles_jobNotFound allowed : In 404 allowed -> settlesWithin allowed jobNotFound.
Proof. intros H404 r [= <-]. split; [exact H404|]. intros _. eexists; reflexivity. Qed.

Lemma settles_bind {A} allowed (m : Task A) (k : A -> Task Response) :
  (forall a, settlesWithin allowed (k a)) -> settlesWithin allowed (bind m k).
Proof.
  intros Hk. destruct m as [tr [a|e]]; cbn; [|intros r [=]].
  specialize (Hk a). destruct (k a) as [tr' o]. exact Hk.
Qed.

Ltac listed := cbn; auto 10.

Ltac settling :=
  repeat first
    [ apply settles_ok; listed
    | apply settles_jobNotFound; listed
    | apply settles_bind; intros ?
    | match goal with
      | |- settlesWithin _ (match ?x with _ => _ end) => destruct x
      | |- settlesWithin _ (if ?x then _ else _) => destruct x
      end ].

Ltac answering :=
  repeat first
    [ apply within_fail; listed
    | apply within_uncaught
    | apply within_tryCatch; [listed | settling]
    | apply within_guarded; [listed|]
    | match goal with
      | |- answersWithin _ (match ?x with _ => _ end) => destruct x
      | |- answersWithin _ (if ?x then _ else _) => destruct x
      end ].

(** X4.  Whatever a route answers, the status is one the route can give:
    200 or 500 for the queue overview; 404 besides on the routes that name a
    queue; 400 besides on the job listing and on clean; 403 besides on the
    guarded routes.  Every answer other than 200 has a body that is the
    object with the single field [error]. *)
Theorem every_answer_fits_its_route JSON_parse queues opts order (r : Route) req answer :
  response (handle JSON_parse queues opts order r req) = Some answer ->
  In (status answer) (statusesOf r) /\
  (status answer <> 200 -> exists message, json answer = errorBody message).
Proof.
  revert answer. change (answersWithin (statusesOf r)
                           (handle JSON_parse queues opts order r req)).
  destruct r as [| | | | | | | |m]; cbn -[guardMutation];
    [| | | | | | | |destruct m; cbn -[guardMutation]].
  all: unfold listQueues, listJobs, getJobRoute, workersRoute, schedulersRoute,
         dlqRoute, metricsRoute, searchRoute, pauseRoute, resumeRoute,
         obliterateRoute, drainRoute, retryAllRoute, cleanRoute,
         removeJobRoute, retryJobRoute, promoteJobRoute, queueNotFound.
  all: answering.
Qed.

Lemma every_answer_fits_its_route_witness :
  let answer := reply 400 (errorBody typeMessage) in
  In (status answer) (statusesOf (Mutating PostClean)) /\
  (status answer <> 200 -> exists message, json answer = errorBody message).
Proof.
  intros answer.
  apply (every_answer_fits_its_route (fun _ => None) [mockQueue "q" []] None []
           (Mutating PostClean)
           (request "q" [] (VObj [("grace", VNum 1000); ("type", VStr "invalid")]))).
  reflexivity.
Defined.

(** * What a route may change *)

Lemma quiet_ret {A} (a : A) : quiet (ret a).
Proof. reflexivity. Qed.

Lemma quiet_await {A} queue call (o : Outcome A) :
  isMutatingCall call = false -> quiet (await queue call o).
Proof. intros H. unfold quiet. cbn. now rewrite H. Qed.

Lemma quiet_bind {A B} (m : Task A) (k : A -> Task B) :
  quiet m -> (forall a, quiet (k a)) -> quiet (bind m k).
Proof.
  unfold quiet. destruct m as [tr [a|e]]; cbn; intros Hm Hk; [|exact Hm].
  specialize (Hk a). destruct (k a) as [tr' o]. cbn in *.
  now rewrite List.filter_app, Hm, Hk.
Qed.

Lemma quiet_promiseAll {A} order (tasks : list (Task A)) :
  Forall quiet tasks -> quiet (promiseAll order tasks).
Proof.
  unfold quiet, promiseAll. cbn [fst]. induction 1 as [|t tasks Ht _ IH]; [reflexivity|].
  cbn. now rewrite List.filter_app, Ht, IH.
Qed.

Ltac quieting :=
  repeat first
    [ apply quiet_ret
    | apply quiet_await; reflexivity
    | apply quiet_bind; [|intros ?]
    | apply quiet_promiseAll
    | match goal with
      | |- quiet (match ?x with _ => _ end) => destruct x
      | |- quiet (if ?x then _ else _) => destruct x
      | |- Forall quiet (List.map _ _) => apply Forall_map, Forall_true; intros ?
      | |- Forall quiet (_ :: _) => apply Forall_cons; split
      | |- Forall quiet [] => apply Forall_nil
      end ].

Lemma tryCatch_trace t : trace (tryCatch t) = fst t.
Proof. now destruct t as [tr [r|e]]. Qed.

Lemma read_route_is_quiet JSON_parse queues opts order (r : Route) req :
  (forall m, r <> Mutating m) ->
  List.filter mutatingEvent (trace (handle JSON_parse queues opts order r req)) = [].
Proof.
  intros Hr. destruct r as [| | | | | | | |m]; [..|exfalso; now apply (Hr m)]; cbn;
    unfold listQueues, listJobs, getJobRoute, workersRoute, schedulersRoute,
      dlqRoute, metricsRoute, searchRoute, queueNotFound;
    repeat match goal with
           | |- context [trace (match ?x with _ => _ end)] => destruct x
           | |- context [trace (if ?x then _ else _)] => destruct x
           end;
    try reflexivity; rewrite tryCatch_trace;
    match goal with |- List.filter _ (fst ?t) = [] => change (quiet t) end;
    quieting; exact I.
Qed.

Lemma body_changes_once queues m req :
  let calls := List.filter mutatingEvent (trace (mutate queues None m req)) in
  calls = [] \/ exists e, calls = [e] /\ performs m e = true.
Proof.
  destruct m; cbn; unfold guarded, guardMutation; settle;
    first [left; reflexivity | right; eexists; split; reflexivity].
Qed.

Lemma guardMutation_cases req opts action :
  let g := guardMutation req opts action in
  (exists written, g = ([], Resolved (false, Some written))) \/
  g = ([], Resolved (true, None)) \/
  g = ([Authorize req action], Resolved (true, None)) \/
  (exists written, g = ([Authorize req action], Resolved (false, Some written))) \/
  (exists e, g = ([Authorize req action], Rejected e)).
Proof.
  unfold guardMutation.
  destruct (default false (opts ≫= readOnly)); [left; eexists; reflexivity|].
  destruct (opts ≫= authorize) as [callback|]; [|right; left; reflexivity].
  cbn. destruct (awaitAuthorize (callback req action)) as [[|]|e]; cbn.
  - right; right; left. reflexivity.
  - right; right; right; left. eexists; reflexivity.
  - right; right; right; right. eexists; reflexivity.
Qed.

(** X5.  A read route never calls an engine operation that changes a queue
    or a job.  A guarded route calls at most one, and only its own: pause
    never resumes, drains or obliterates, a job route touches only the job
    operation it is named after, and obliterate is always forced. *)
Theorem route_changes_only_its_own JSON_parse queues opts order (r : Route) req :
  let calls :=
    List.filter mutatingEvent (trace (handle JSON_parse queues opts order r req)) in
  match r with
  | Mutating m => calls = [] \/ exists e, calls = [e] /\ performs m e = true
  | _ => calls = []
  end.
Proof.
  destruct r as [| | | | | | | |m];
    try (apply read_route_is_quiet; intros m; discriminate).
  cbn [handle]. rewrite mutate_guarded.
  destruct (guardMutation_cases req opts (actionOf m))
    as [[w ->]|[->|[->|[[w ->]|[e ->]]]]]; cbn [guarded trace app List.filter mutatingEvent];
    try (left; reflexivity); apply body_changes_once.
Qed.

(** * Filters and flags *)

(** X6.  Search never turns a request down for its filters.  On a
    registered queue the engine is always asked, once, and the options it
    receives carry a state only if the [state] parameter is one of the five
    valid states, a name only if [name] is not empty, and data only if
    [data] is not empty and parses as JSON; anything else is left out
    without an error. *)
Theorem search_drops_bad_filters JSON_parse queues req queue :
  findQueue queues req = Some queue ->
  let o := searchOptsOf JSON_parse req in
  let h := searchRoute JSON_parse queues req in
  trace h = [Engine (Queue.name queue) (SearchJobs o)
               (failureOf (Queue.searchJobs queue o))] /\
  (forall s, searchState o = Some s <->
             queryParam req "state" = Some s /\ includes VALID_STATES s = true) /\
  (forall n, searchName o = Some n <->
             queryParam req "name" = Some n /\ n <> EmptyString) /\
  (forall v, searchData o = Some v <->
             exists d, queryParam req "data" = Some d /\ d <> EmptyString /\
                       JSON_parse d = Some v) /\
  statusOf (response h) <> Some 400.
Proof.
  intros Hq o h. subst h. unfold searchRoute. rewrite Hq. fold o.
  split; [now destruct (Queue.searchJobs queue o)|].
  split; [|split; [|split]].
  - intros s. subst o. cbn [searchState searchOptsOf].
    destruct (queryParam req "state") as [st|]; cbn -[includes].
    + destruct (String.eqb_spec st EmptyString) as [->|Hne]; cbn -[includes].
      * split; [discriminate|]. intros [[= <-] H]. discriminate H.
      * destruct (includes VALID_STATES st) eqn:Hv; split.
        -- intros [= <-]. auto.
        -- now intros [[= <-] _].
        -- discriminate.
        -- intros [[= <-] H]. congruence.
    + split; [discriminate|]. now intros [? _].
  - intros n. subst o. cbn [searchName searchOptsOf].
    destruct (queryParam req "name") as [nm|]; cbn.
    + destruct (String.eqb_spec nm EmptyString) as [->|Hne]; cbn; split.
      * discriminate.
      * intros [[= <-] H]. now contradict H.
      * intros [= <-]. auto.
      * now intros [[= <-] _].
    + split; [discriminate|]. now intros [? _].
  - intros v. subst o. cbn [searchData searchOptsOf].
    destruct (queryParam req "data") as [d|]; cbn.
    + destruct (String.eqb_spec d EmptyString) as [->|Hne]; cbn; split.
      * discriminate.
      * intros (d' & [= <-] & H & _). now contradict H.
      * intros H. exists d. auto.
      * now intros (d' & [= <-] & _ & H).
    + split; [discriminate|]. intros (d & H & _). discriminate H.
  - now destruct (Queue.searchJobs queue o) as [jobs|[]].
Qed.

Lemma search_drops_bad_filters_witness :
  let req := request "q" [("state", "invalid"); ("data", "{oops")] VUndefined in
  trace (searchRoute (fun _ => None) [mockQueue "q" []] req)
    = [Engine "q" (SearchJobs {| searchState := None; searchName := None;
                                 searchData := None; searchLimit := 50 |}) None].
Proof.
  intros req.
  exact (proj1 (search_drops_bad_filters (fun _ => None) [mockQueue "q" []] req
                  (mockQueue "q" []) eq_refl)).
Defined.

(** X7.  A job listing with a valid state filter asks the engine once and
    passes its answer on as it came: one row per job, in the engine's order,
    nothing sorted or dropped, each row tagged with the requested state. *)
Theorem filtered_listing_keeps_engine_order queues order req queue st jobs :
  findQueue queues req = Some queue ->
  queryParam req "state" = Some st ->
  includes VALID_STATES st = true ->
  Queue.getJobs queue st (windowStart req) (windowEnd req) = Resolved jobs ->
  exists rows,
    response (listJobs queues order req) = Some (reply 200 (VArr (List.map VObj rows))) /\
    length rows = length jobs /\
    List.map (getField "id") rows = List.map (fun j => VStr (Job.id j)) jobs /\
    List.map timestampOf rows = List.map (fun j => default 0 (Job.timestamp j)) jobs /\
    Forall (fun row => getField "state" row = VStr st) rows.
Proof.
  intros Hq Hst Hvalid Hjobs. exists (List.map (tagged st) jobs).
  split; [|split; [|split; [|split]]].
  - unfold listJobs. rewrite Hq, Hst. cbn [from_option id]. rewrite Hvalid.
    assert (Hgiven : given (Some st) = true)
      by (destruct st; [discriminate Hvalid|reflexivity]).
    rewrite Hgiven. cbn [andb negb]. rewrite Hjobs. cbn.
    now rewrite List.map_map.
  - apply length_map.
  - rewrite List.map_map. reflexivity.
  - rewrite List.map_map. apply map_ext. intros j. apply tagged_row.
  - apply Forall_map, Forall_true. intros j. reflexivity.
Qed.

Lemma filtered_listing_keeps_engine_order_witness :
  let jobs := [jobAt "old" 100; jobAt "new" 300; jobAt "mid" 200] in
  let req := request "q" [("state", "failed")] VUndefined in
  exists rows,
    response (listJobs [mockQueue "q" jobs] [] req)
      = Some (reply 200 (VArr (List.map VObj rows))) /\
    List.map timestampOf rows = [100; 300; 200].
Proof.
  intros jobs req.
  destruct (filtered_listing_keeps_engine_order [mockQueue "q" jobs] [] req
              (mockQueue "q" jobs) "failed" jobs eq_refl eq_refl eq_refl eq_refl)
    as (rows & Hresponse & _ & _ & Htimes & _).
  exists rows. split; [exact Hresponse|exact Htimes].
Defined.

(** X8.  Drain includes the delayed jobs only when the body's [delayed] is
    the boolean [true]; any other value, a text or a number included, or no
    body at all, drains the waiting jobs alone. *)
Theorem drain_delayed_only_on_true queues opts req queue :
  passes (guardMutation req opts queue_drain) = true ->
  findQueue queues req = Some queue ->
  exists delayed,
    List.filter isEngine (trace (drainRoute queues opts req))
      = [Engine (Queue.name queue) (Drain delayed)
           (failureOf (Queue.drain queue delayed))] /\
    (delayed = true <-> optField (body req) "delayed" = VBool true).
Proof.
  intros Hpass Hq. destruct (passes_inv _ Hpass) as (tr & written & Hg).
  unfold drainRoute. rewrite (guarded_pass _ _ _ _ Hg), Hq. cbn [trace].
  rewrite List.filter_app, (guardMutation_trace _ _ _ _ _ Hg). cbn [app].
  exists (match optField (body req) "delayed" with VBool true => true | _ => false end).
  split; [now destruct (Queue.drain queue _)|].
  destruct (optField (body req) "delayed") as [| |[|]| | | | |]; split; congruence.
Qed.

Lemma drain_delayed_only_on_true_witness :
  let req := request "q" [] (VObj [("delayed", VStr "true")]) in
  exists delayed,
    List.filter isEngine (trace (drainRoute [mockQueue "q" []] None req))
      = [Engine "q" (Drain delayed) None] /\
    delayed = false.
Proof.
  intros req.
  destruct (drain_delayed_only_on_true [mockQueue "q" []] None req (mockQueue "q" [])
              eq_refl eq_refl) as (delayed & Htrace & Hiff).
  exists delayed. split; [exact Htrace|].
  destruct delayed; [|reflexivity].
  destruct Hiff as [Hiff _]. discriminate (Hiff eq_refl).
Defined.

(** * Concurrent reads *)

(** X9.  The metrics route pairs each count with the query it came from:
    [completed] is the count of the [completed] query and [failed] that of
    the [failed] query, whichever of the two settles first. *)
Theorem metrics_pairs_counts queues order req queue mc mf :
  findQueue queues req = Some queue ->
  Queue.getMetrics queue "completed" = Resolved mc ->
  Queue.getMetrics queue "failed" = Resolved mf ->
  let h := metricsRoute queues order req in
  response h = Some (reply 200 (VObj [("completed", count mc); ("failed", count mf)])) /\
  trace h = [Engine (Queue.name queue) (GetMetrics "completed") None;
             Engine (Queue.name queue) (GetMetrics "failed") None].
Proof.
  intros Hq Hc Hf h. subst h. unfold metricsRoute. rewrite Hq, Hc, Hf.
  unfold promiseAll. rewrite firstRejected_resolved.
  - split; reflexivity.
  - intros tr o Hin. unfold await in Hin.
    repeat (apply elem_of_cons in Hin as [[= _ ->]|Hin]; [eauto|]).
    now apply elem_of_nil in Hin.
Qed.

Lemma metrics_pairs_counts_witness :
  let q := mockQueue "q" [] in
  response (metricsRoute [q] [1%nat; 0%nat] (request "q" [] VUndefined))
    = Some (reply 200 (VObj [("completed", VNum 42); ("failed", VNum 42)])).
Proof.
  intros q.
  exact (proj1 (metrics_pairs_counts [q] [1%nat; 0%nat] (request "q" [] VUndefined) q
                  {| count := VNum 42 |} {| count := VNum 42 |}
                  eq_refl eq_refl eq_refl)).
Defined.

(** X10.  When every count and pause query resolves, the queue overview
    lists the queues in the order they were handed to [createDashboard],
    one entry per handle, two handles of one name included, whatever the
    order in which the queries settle; each entry carries the handle's own
    name, counts and paused flag. *)
Theorem overview_keeps_registry_order queues order req
    (countsOf pausedOf : Queue.t -> JsValue) :
  (forall q, In q queues ->
     Queue.getJobCounts q = Resolved (countsOf q) /\
     Queue.isPaused q = Resolved (pausedOf q)) ->
  response (listQueues queues order req) =
    Some (reply 200 (VArr (List.map (fun q =>
            VObj [("name", VStr (Queue.name q)); ("counts", countsOf q);
                  ("paused", pausedOf q)]) queues))).
Proof.
  intros Hall. unfold listQueues.
  rewrite (map_ext_in _
             (fun q => ([Engine (Queue.name q) GetJobCounts None;
                         Engine (Queue.name q) IsPaused None],
                        Resolved (VObj [("name", VStr (Queue.name q));
                                        ("counts", countsOf q);
                                        ("paused", pausedOf q)])))).
  - now rewrite promiseAll_resolved.
  - intros q Hq. destruct (Hall q Hq) as [-> ->]. reflexivity.
Qed.

Lemma overview_keeps_registry_order_witness :
  response (listQueues [mockQueue "payments" []; mockQueue "emails" []] [1%nat]
              (request "q" [] VUndefined))
    = Some (reply 200 (VArr [
        VObj [("name", VStr "payments"); ("counts", mockCounts); ("paused", VBool false)];
        VObj [("name", VStr "emails"); ("counts", mockCounts); ("paused", VBool false)]])).
Proof.
  apply (overview_keeps_registry_order
           [mockQueue "payments" []; mockQueue "emails" []] [1%nat]
           (request "q" [] VUndefined) (fun _ => mockCounts) (fun _ => VBool false)).
  intros q [<-|[<-|[]]]; split; reflexivity.
Defined.

Lemma map_lookup {A B} (f : A -> B) (l : list A) (i : nat) :
  List.map f l !! i = f <$> l !! i.
Proof. revert i. induction l as [|x l IH]; intros [|i]; cbn; auto. Qed.

Lemma firstRejected_first {A} (tasks : list (Task A)) pre i post tr e :
  (forall j, In j pre -> forall t, tasks !! j = Some t -> exists a, snd t = Resolved a) ->
  tasks !! i = Some (tr, Rejected e) ->
  firstRejected tasks (pre ++ i :: post) = Some e.
Proof.
  intros Hpre Hi. induction pre as [|j pre IH]; cbn.
  - now rewrite Hi.
  - destruct (tasks !! j) as [[tr' [a|e']]|] eqn:Hj.
    + apply IH. intros j' Hj'. apply Hpre. now right.
    + destruct (Hpre j (or_introl eq_refl) _ Hj) as [a Ha]. discriminate Ha.
    + apply IH. intros j' Hj'. apply Hpre. now right.
Qed.

(** X12.  When queries of several queues fail in the queue overview, the
    answer carries the failure that arrived first, not the one of the queue
    listed first: if every queue whose queries settle before those of queue
    [q] answers both of them, and a query of [q] fails, the answer is 500
    with that failure's text, whatever becomes of the queues that settle
    later. *)
Theorem overview_reports_the_first_failure queues order req pre i post q e :
  completion order (length queues) = pre ++ i :: post ->
  queues !! i = Some q ->
  (Queue.getJobCounts q = Rejected e \/
   exists counts, Queue.getJobCounts q = Resolved counts /\
                  Queue.isPaused q = Rejected e) ->
  (forall j qj, In j pre -> queues !! j = Some qj ->
     exists counts paused, Queue.getJobCounts qj = Resolved counts /\
                           Queue.isPaused qj = Resolved paused) ->
  response (listQueues queues order req) =
    Some {| status := 500;
            json := VObj [("error",
                           VStr match e with
                                | ThrowError m => m
                                | ThrowOther _ => "Internal server error"
                                end)] |}.
Proof.
  intros Horder Hi Hfails Hpre. unfold listQueues, promiseAll.
  rewrite length_map, Horder.
  set (task := fun q : Queue.t =>
         let! counts := await (Queue.name q) GetJobCounts (Queue.getJobCounts q) in
         let! paused := await (Queue.name q) IsPaused (Queue.isPaused q) in
         ret (VObj [("name", VStr (Queue.name q)); ("counts", counts);
                    ("paused", paused)])).
  assert (Hfailed : exists tr, List.map task queues !! i = Some (tr, Rejected e)).
  { rewrite map_lookup, Hi. unfold task. cbn [fmap option_fmap option_map].
    destruct Hfails as [Hc|(counts & Hc & Hp)].
    - rewrite Hc. eexists. reflexivity.
    - rewrite Hc, Hp. eexists. reflexivity. }
  destruct Hfailed as [tr Hfailed].
  rewrite (firstRejected_first _ pre i post tr e); [now destruct e| |exact Hfailed].
  intros j Hj t Ht. rewrite map_lookup in Ht.
  destruct (queues !! j) as [qj|] eqn:Hqj; [|discriminate Ht].
  injection Ht as <-.
  destruct (Hpre j qj Hj Hqj) as (counts & paused & Hc & Hp).
  unfold task. rewrite Hc, Hp. eexists. reflexivity.
Qed.

Lemma overview_reports_the_first_failure_witness :
  let queues := [brokenQueue "a" "A failed"; brokenQueue "b" "B failed"] in
  response (listQueues queues [1%nat] (request "q" [] VUndefined))
    = Some (reply 500 (errorBody "B failed")) /\
  response (listQueues queues [] (request "q" [] VUndefined))
    = Some (reply 500 (errorBody "A failed")).
Proof.
  intros queues. split.
  - apply (overview_reports_the_first_failure queues [1%nat] (request "q" [] VUndefined)
             [] 1%nat [0%nat] (brokenQueue "b" "B failed") (ThrowError "B failed"));
      [reflexivity | reflexivity | now left | intros j qj []].
  - apply (overview_reports_the_first_failure queues [] (request "q" [] VUndefined)
             [] 0%nat [1%nat] (brokenQueue "a" "A failed") (ThrowError "A failed"));
      [reflexivity | reflexivity | now left | intros j qj []].
Defined.

(** * The registry *)

Lemma queueMap_snoc queues q :
  queueMap (queues ++ [q]) = <[Queue.name q := q]> (queueMap queues).
Proof. unfold queueMap. now rewrite foldl_app. Qed.

(** X11.  The registry maps a name to the last handle of that name in the
    list given to [createDashboard]: a lookup that succeeds returns a handle
    of the list bearing that name, a lookup fails exactly when no handle has
    the name, and of two handles with one name the later one is found. *)
Theorem registry_finds_last_of_name queues n :
  (forall q, queueMap queues !! n = Some q -> Queue.name q = n /\ q ∈ queues) /\
  (queueMap queues !! n = None <-> ~ In n (List.map Queue.name queues)) /\
  (forall before q after,
     queues = before ++ q :: after -> Queue.name q = n ->
     ~ In n (List.map Queue.name after) ->
     queueMap queues !! n = Some q).
Proof.
  split; [|split].
  - induction queues as [|q0 queues IH] using rev_ind; intros q.
    + unfold queueMap. cbn. now rewrite lookup_empty.
    + rewrite queueMap_snoc.
      destruct (decide (Queue.name q0 = n)) as [Heq|Hne].
      * rewrite Heq, lookup_insert_eq. intros [= <-]. split; [exact Heq|].
        apply elem_of_app. right. now apply list_elem_of_singleton.
      * rewrite lookup_insert_ne by exact Hne. intros Hq.
        destruct (IH q Hq) as [Hname Hin]. split; [exact Hname|].
        apply elem_of_app. now left.
  - induction queues as [|q0 queues IH] using rev_ind.
    + unfold queueMap. cbn. rewrite lookup_empty. tauto.
    + rewrite queueMap_snoc, List.map_app, in_app_iff. cbn.
      destruct (decide (Queue.name q0 = n)) as [Heq|Hne].
      * rewrite Heq, lookup_insert_eq. split; [discriminate|].
        intros H. contradict H. right. now left.
      * rewrite lookup_insert_ne by exact Hne. rewrite IH. tauto.
  - intros before q after -> Hname Hafter. clear - Hname Hafter.
    induction after as [|q0 after IH] using rev_ind.
    + rewrite queueMap_snoc, Hname. apply lookup_insert_eq.
    + change (before ++ q :: after ++ [q0]) with (before ++ (q :: after) ++ [q0]).
      rewrite app_assoc, queueMap_snoc.
      rewrite List.map_app, in_app_iff in Hafter. cbn in Hafter.
      rewrite lookup_insert_ne by tauto. apply IH. tauto.
Qed.

Lemma registry_finds_last_of_name_witness :
  let first := mockQueue "q" [] in
  let second := mockQueue "q" [mockJob "j1"] in
  findQueue [first; mockQueue "emails" []; second] (request "q" [] VUndefined)
    = Some second.
Proof.
  intros first second.
  destruct (registry_finds_last_of_name [first; mockQueue "emails" []; second] "q")
    as (_ & _ & H).
  exact (H [first; mockQueue "emails" []] second [] eq_refl eq_refl (fun x => x)).
Defined.

(** * Reading numbers *)

Lemma readDigits_stops s c rest acc :
  digitValue c = None ->
  readDigits (s +:+ String c rest) acc = readDigits s acc.
Proof.
  intros Hc. revert acc.
  induction s as [|a s IH]; intros acc.
  - change (readDigits (String c rest) acc = acc). cbn [readDigits]. now rewrite Hc.
  - change (readDigits (String a (s +:+ String c rest)) acc
            = readDigits (String a s) acc).
    cbn [readDigits]. destruct (digitValue a); [apply IH|reflexivity].
Qed.

Lemma trimStart_number s n :
  parseInt s = Some n ->
  exists a t, trimStart s = String a t /\
              forall more, trimStart (s +:+ more) = String a (t +:+ more).
Proof.
  unfold parseInt. induction s as [|a s IH]; cbn; [discriminate|].
  destruct (isWhiteSpace a) eqn:Ha.
  - intros H. destruct (IH H) as (a' & t & Ht & Hmore).
    exists a', t. split; [exact Ht|]. intros more.
    change (trimStart (String a (s +:+ more)) = String a' (t +:+ more)).
    cbn [trimStart]. rewrite Ha. apply Hmore.
  - intros _. exists a, s. split; [reflexivity|]. intros more.
    change (trimStart (String a (s +:+ more)) = String a (s +:+ more)).
    cbn [trimStart]. now rewrite Ha.
Qed.

(** X13.  [parseInt] reads the leading integer and ignores what follows it:
    once a text parses to a number, appending anything that does not start
    with a digit leaves the result unchanged.  Hence [20.5] reads as 20 and
    [12abc] as 12 wherever a handler parses a parameter. *)
Theorem parseInt_ignores_the_tail s n c rest :
  parseInt s = Some n ->
  digitValue c = None ->
  parseInt (s +:+ String c rest) = Some n.
Proof.
  intros Hs Hc. destruct (trimStart_number s n Hs) as (a & t & Ht & Hmore).
  rewrite <- Hs. unfold parseInt. rewrite (Hmore (String c rest)), Ht.
  destruct (Ascii.eqb_spec a "-") as [->|Hminus].
  { now rewrite readDigits_stops. }
  destruct (Ascii.eqb_spec a "+") as [->|Hplus].
  { now rewrite readDigits_stops. }
  assert (Hshape : forall u, match String a u with
                             | String "-" r => Z.opp <$> readDigits r None
                             | String "+" r => readDigits r None
                             | v => readDigits v None
                             end = readDigits (String a u) None).
  { intros u.
    destruct a as [[|] [|] [|] [|] [|] [|] [|] [|]]; try reflexivity;
      exfalso; first [now apply Hminus | now apply Hplus]. }
  rewrite !Hshape.
  change (String a (t +:+ String c rest)) with (String a t +:+ String c rest).
  now apply readDigits_stops.
Qed.

Lemma parseInt_ignores_the_tail_witness :
  parseInt "20.5" = Some 20 /\ parseInt "-7 days" = Some (-7).
Proof.
  split.
  - apply (parseInt_ignores_the_tail "20" 20 "." "5"); reflexivity.
  - apply (parseInt_ignores_the_tail "-7" (-7) " " "days"); reflexivity.
Defined.

(** * More on the merged listing *)

Lemma merged_response queues order req queue (jobsOf : string -> list Job.t) :
  findQueue queues req = Some queue ->
  given (queryParam req "state") = false ->
  (forall s, In s VALID_STATES ->
     Queue.getJobs queue s 0 (windowEnd req) = Resolved (jobsOf s)) ->
  response (listJobs queues order req) =
    Some (reply 200 (VArr (List.map VObj
      (slice (windowStart req) (windowEnd req)
         (sortWith byTimestampDesc (mergedRows order jobsOf)))))).
Proof.
  intros Hq Hstate Hfetch. unfold listJobs. rewrite Hq, Hstate. cbn [andb].
  rewrite (map_ext_in _
             (fun s => ([Engine (Queue.name queue) (GetJobs s 0 (windowEnd req)) None],
                        Resolved (List.map (tagged s) (jobsOf s))))).
  - now rewrite promiseAll_resolved.
  - intros s Hs. now rewrite (Hfetch s Hs).
Qed.

Lemma mergedRows_Permutation order jobsOf : mergedRows order jobsOf ≡ₚ allRows jobsOf.
Proof.
  unfold mergedRows, allRows.
  set (parts := List.map (fun s => List.map (tagged s) (jobsOf s)) VALID_STATES).
  replace (length VALID_STATES) with (length parts) by reflexivity.
  now rewrite omap_lookup_completion.
Qed.

Lemma slice_length {A} start end_ (l : list A) :
  0 <= start -> 0 <= end_ ->
  (length (slice start end_ l) <= Z.to_nat (end_ - start))%nat.
Proof.
  intros Hs He. unfold slice.
  destruct (Z.ltb_spec start 0); [lia|]. destruct (Z.ltb_spec end_ 0); [lia|].
  rewrite length_take. lia.
Qed.

(** X14.  The merged listing never returns more rows than the window asks
    for: with a non-negative [start] and a non-negative end of window the
    answer has at most [end - start] rows, hence at most 200 whenever the
    request supplies [end], however many jobs the five fetches bring. *)
Theorem merged_listing_page_size queues order req queue (jobsOf : string -> list Job.t) :
  findQueue queues req = Some queue ->
  given (queryParam req "state") = false ->
  (forall s, In s VALID_STATES ->
     Queue.getJobs queue s 0 (windowEnd req) = Resolved (jobsOf s)) ->
  0 <= windowStart req ->
  0 <= windowEnd req ->
  exists rows,
    response (listJobs queues order req) = Some (reply 200 (VArr (List.map VObj rows))) /\
    (length rows <= Z.to_nat (windowEnd req - windowStart req))%nat /\
    (forall e, parseIntQuery (queryParam req "end") = Some e ->
               (length rows <= 200)%nat).
Proof.
  intros Hq Hstate Hfetch Hstart Hend.
  eexists. split; [apply (merged_response _ _ _ _ jobsOf Hq Hstate Hfetch)|].
  pose proof (slice_length (windowStart req) (windowEnd req)
                (sortWith byTimestampDesc (mergedRows order jobsOf)) Hstart Hend) as Hlen.
  split; [exact Hlen|].
  intros e He. unfold windowEnd in Hlen at 2. rewrite He in Hlen.
  unfold MAX_PAGE_SIZE in Hlen. lia.
Qed.

Lemma merged_listing_page_size_witness :
  let jobs := [jobAt "a" 1; jobAt "b" 2; jobAt "c" 3] in
  let req := request "q" [("start", "1"); ("end", "3")] VUndefined in
  exists rows,
    response (listJobs [mockQueue "q" jobs] [] req)
      = Some (reply 200 (VArr (List.map VObj rows))) /\
    (length rows <= 2)%nat.
Proof.
  intros jobs req.
  destruct (merged_listing_page_size [mockQueue "q" jobs] [] req (mockQueue "q" jobs)
              (fun _ => jobs) eq_refl eq_refl (fun s _ => eq_refl))
    as (rows & Hresponse & Hlen & _).
  - vm_compute. discriminate.
  - vm_compute. discriminate.
  - exists rows. split; [exact Hresponse|exact Hlen].
Defined.

(** X15.  When no two different rows share a creation timestamp, the answer
    of the merged listing does not depend on the order in which the five
    fetches settle: any two schedules give the same response. *)
Theorem merged_listing_ignores_settle_order queues order1 order2 req queue
    (jobsOf : string -> list Job.t) :
  findQueue queues req = Some queue ->
  given (queryParam req "state") = false ->
  (forall s, In s VALID_STATES ->
     Queue.getJobs queue s 0 (windowEnd req) = Resolved (jobsOf s)) ->
  (forall a b, a ∈ allRows jobsOf -> b ∈ allRows jobsOf ->
               timestampOf a = timestampOf b -> a = b) ->
  response (listJobs queues order1 req) = response (listJobs queues order2 req).
Proof.
  intros Hq Hstate Hfetch Hdistinct.
  rewrite !(merged_response _ _ _ _ jobsOf Hq Hstate Hfetch).
  do 5 f_equal.
  apply (StronglySorted_unique_strong newestFirst).
  - intros a b Ha Hb Hab Hba. apply Hdistinct.
    + rewrite <- (mergedRows_Permutation order1), <- (sortWith_Permutation byTimestampDesc).
      exact Ha.
    + rewrite <- (mergedRows_Permutation order2), <- (sortWith_Permutation byTimestampDesc).
      exact Hb.
    + unfold newestFirst in *. lia.
  - apply sorted_newestFirst.
  - apply sorted_newestFirst.
  - now rewrite !sortWith_Permutation, !mergedRows_Permutation.
Qed.

Lemma merged_listing_ignores_settle_order_witness :
  let req := request "q" [] VUndefined in
  response (listJobs [stateQueue] [4; 2; 0]%nat req)
    = response (listJobs [stateQueue] [] req).
Proof.
  intros req.
  apply (merged_listing_ignores_settle_order [stateQueue] [4; 2; 0]%nat [] req
           stateQueue jobsByState eq_refl eq_refl (fun s _ => eq_refl)).
  intros a b Ha Hb.
  change (allRows jobsByState) with
    [tagged "waiting" (jobAt "a" 100); tagged "active" (jobAt "c" 200);
     tagged "failed" (jobAt "b" 300)] in Ha, Hb.
  repeat (apply elem_of_cons in Ha as [->|Ha]);
    [| | |now apply elem_of_nil in Ha];
    (repeat (apply elem_of_cons in Hb as [->|Hb]);
     [| | |now apply elem_of_nil in Hb]);
    first [reflexivity | intros H; vm_compute in H; discriminate H].
Defined.

(** With equal timestamps the settle order shows: the stable sort keeps
    rows of one age in the order they were merged in. *)
Example ties_follow_the_settle_order :
  let req := request "q" [] VUndefined in
  let idsOf := fun h : Handled =>
    match response h with
    | Some {| json := VArr rows |} =>
        List.map (fun r => match r with VObj o => getField "id" o | _ => VUndefined end) rows
    | _ => []
    end in
  idsOf (listJobs [tiedQueue] [] req) = [VStr "first"; VStr "second"] /\
  idsOf (listJobs [tiedQueue] [1%nat] req) = [VStr "second"; VStr "first"].
Proof. split; reflexivity. Qed.

(** * Connections side by side *)

Section Neighbours.
Import Sse.

Lemma registerAll_lookup ls s q e :
  s !! q = Some e ->
  registerAll ls s !! q =
    Some {| name := name e;
            registered := registered e ++
              List.map (fun l => (event l, handler l))
                (List.filter (fun l => Nat.eqb (qe l) q) ls) |}.
Proof.
  revert s e. induction ls as [|l ls IH]; intros s e He.
  - cbn. rewrite app_nil_r, He. now destruct e.
  - cbn [registerAll fold_left List.filter].
    change (fold_left _ ls ?x) with (registerAll ls x).
    destruct (Nat.eqb_spec (qe l) q) as [Heq|Hne].
    + erewrite IH; [|unfold on; rewrite Heq, list_lookup_alter_eq, He; reflexivity].
      cbn. now rewrite <- app_assoc.
    + erewrite IH; [reflexivity|]. unfold on.
      now rewrite list_lookup_alter_ne.
Qed.

Lemma registerAll_lookup_None ls s q :
  s !! q = None -> registerAll ls s !! q = None.
Proof.
  intros H. apply lookup_ge_None. apply lookup_ge_None in H.
  revert s H. induction ls as [|l ls IH]; intros s H; [exact H|].
  cbn. apply IH. now rewrite on_length.
Qed.

Lemma unknownTo_registerAll ls s h :
  unknownTo s h -> (forall l, l ∈ ls -> handler l <> h) ->
  unknownTo (registerAll ls s) h.
Proof.
  intros Hs Hls e r He Hr.
  apply list_elem_of_lookup in He as [q Hq].
  destruct (s !! q) as [e0|] eqn:He0.
  - rewrite (registerAll_lookup ls s q e0 He0) in Hq. injection Hq as <-.
    cbn in Hr. apply elem_of_app in Hr as [Hr|Hr].
    + apply (Hs e0 r); [eapply list_elem_of_lookup_2, He0|exact Hr].
    + apply list_elem_of_In, in_map_iff in Hr as (l & <- & Hl).
      apply filter_In in Hl as [Hl _]. cbn. apply Hls, list_elem_of_In, Hl.
  - rewrite (registerAll_lookup_None ls s q He0) in Hq. discriminate.
Qed.

Lemma removeAll_past ls1 ls2 s :
  (forall l1 l2, l1 ∈ ls1 -> l2 ∈ ls2 -> handler l2 <> handler l1) ->
  removeAll ls1 (registerAll ls2 s) =
    (registerAll ls2 (fst (removeAll ls1 s)), snd (removeAll ls1 s)).
Proof.
  revert s. induction ls1 as [|l ls1 IH]; intros s Hdisj; [reflexivity|].
  cbn [removeAll]. rewrite removeListener_registerAll.
  - destruct (removeListener (qe l) (event l) (handler l) s) as [s1 found].
    cbn [fst snd]. rewrite IH.
    + now destruct (removeAll ls1 s1).
    + intros l1 l2 H1 H2. apply Hdisj; [|exact H2]. now apply elem_of_cons; right.
  - intros l2 H2. apply Hdisj; [|exact H2]. apply elem_of_cons. now left.
Qed.

Lemma listenersFrom_range next ts l :
  l ∈ listenersFrom next ts -> (next <= handler l < next + length ts)%nat.
Proof.
  intros Hl.
  assert (H : handler l ∈ seq next (length ts)).
  { rewrite <- listenersFrom_handlers.
    apply list_elem_of_In, in_map, list_elem_of_In, Hl. }
  apply elem_of_seq in H. lia.
Qed.

Lemma listenersFrom_valid next qs n l :
  Forall (fun q => (q < n)%nat) qs ->
  l ∈ listenersFrom next (targets qs) -> (qe l < n)%nat.
Proof.
  intros Hvalid Hl.
  assert (Hq : qe l ∈ List.map fst (targets qs)).
  { rewrite <- (listenersFrom_qe next).
    apply list_elem_of_In, in_map, list_elem_of_In, Hl. }
  apply list_elem_of_In, in_map_iff in Hq as (t & <- & Ht).
  apply (targets_valid qs _ Hvalid), list_elem_of_In, Ht.
Qed.
End Neighbours.

Section TwoConnections.
Import Sse.

(** X16.  Connections do not disturb each other.  With two connections
    open, the terminal events of the first take off the first one's
    handlers, each once, and cancel its heartbeat only: every source is left
    exactly as if the second connection alone had been opened, every handler
    of the second is still registered and its heartbeat still runs. *)
Theorem closing_one_connection_spares_the_other
    opts1 opts2 (w : World) (evs : list Terminal) w1 c1 w2 c2 w3 log :
  wellFormed w ->
  Forall (fun q => (q < length (sources w))%nat) (configuredSources opts1) ->
  Forall (fun q => (q < length (sources w))%nat) (configuredSources opts2) ->
  evs <> [] ->
  eventsRoute opts1 w = (w1, c1) ->
  eventsRoute opts2 w1 = (w2, c2) ->
  terminate c1 evs w2 = (w3, log) ->
  log = List.map handler (listeners c1) /\
  sources w3 = registerAll (listeners c2) (sources w) /\
  (forall l, l ∈ listeners c2 ->
     exists e, sources w3 !! qe l = Some e /\ (event l, handler l) ∈ registered e) /\
  timers w3 = timers w ++ [heartbeat c2] /\
  heartbeat c1 <> heartbeat c2.
Proof.
  intros [Hhandlers Htimers] Hvalid1 Hvalid2 Hevs Hopen1 Hopen2 Hterm.
  unfold eventsRoute in Hopen1, Hopen2.
  set (qs1 := configuredSources opts1) in *.
  set (qs2 := configuredSources opts2) in *.
  rewrite openConnection_eq in Hopen1. cbn zeta in Hopen1.
  injection Hopen1 as <- <-.
  rewrite openConnection_eq in Hopen2. cbn zeta in Hopen2.
  cbn [sources nextHandler timers nextTimer] in Hopen2.
  injection Hopen2 as <- <-.
  set (n := nextHandler w) in *. set (t := nextTimer w) in *.
  set (L1 := listenersFrom n (targets qs1)) in *.
  set (L2 := listenersFrom (n + length (targets qs1)) (targets qs2)) in *.
  assert (Hdisj : forall l1 l2, l1 ∈ L1 -> l2 ∈ L2 -> handler l2 <> handler l1).
  { intros l1 l2 H1 H2. apply listenersFrom_range in H1, H2. lia. }
  assert (Hfresh : t ∉ timers w).
  { intros Hin. apply Htimers in Hin. lia. }
  assert (Hunknown : forall l, l ∈ L1 -> unknownTo (registerAll L2 (sources w)) (handler l)).
  { intros l Hl. apply unknownTo_registerAll.
    - intros e r He Hr. specialize (Hhandlers e r He Hr).
      apply listenersFrom_range in Hl. lia.
    - intros l2 H2. now apply Hdisj. }
  destruct evs as [|ev evs]; [contradiction|].
  cbn [terminate] in Hterm. unfold cleanup in Hterm at 1.
  cbn [listeners heartbeat] in Hterm. rewrite unsubscribe_all in Hterm.
  cbn [clearInterval sources nextHandler timers nextTimer] in Hterm.
  rewrite removeAll_past in Hterm by exact Hdisj.
  rewrite removeAll_registerAll in Hterm;
    [| subst L1; rewrite listenersFrom_handlers; apply NoDup_seq
     | intros l Hl; now apply (listenersFrom_valid n qs1 _ l Hvalid1) ].
  cbn [fst snd app] in Hterm.
  assert (Hfilter : List.filter (fun t' => negb (Nat.eqb t' t)) ((timers w ++ [t]) ++ [S t])
                    = timers w ++ [S t]).
  { rewrite !List.filter_app, (filter_fresh_timer _ _ Htimers).
    cbn [List.filter]. rewrite Nat.eqb_refl.
    replace (Nat.eqb (S t) t) with false by (symmetry; apply Nat.eqb_neq; lia).
    cbn. now rewrite app_nil_r. }
  rewrite Hfilter in Hterm.
  rewrite terminate_again in Hterm.
  - injection Hterm as <- <-. cbn [sources timers listeners heartbeat].
    rewrite app_nil_r.
    split; [reflexivity|]. split; [reflexivity|].
    split. { intros l Hl. apply registerAll_registered; [exact Hl|].
             now apply (listenersFrom_valid (n + length (targets qs1)) qs2 _ l Hvalid2). }
    split; [reflexivity|]. lia.
  - cbn [timers heartbeat]. intros Hin. apply elem_of_app in Hin as [Hin|Hin].
    + now apply Hfresh.
    + apply list_elem_of_singleton in Hin. lia.
  - cbn [sources listeners]. exact Hunknown.
Qed.

Lemma closing_one_connection_spares_the_other_witness :
  let first := eventsRoute demoOpts demoWorld in
  let second := eventsRoute demoOpts (fst first) in
  let closed := terminate (snd first) [ReqClose] (fst second) in
  snd closed = List.map handler (listeners (snd first)) /\
  sources (fst closed)
    = registerAll (listeners (snd second)) (sources demoWorld) /\
  timers (fst closed) = [0%nat; 2%nat].
Proof.
  intros first second closed.
  assert (Hvalid : Forall (fun q => (q < length (sources demoWorld))%nat)
                     (configuredSources demoOpts))
    by (repeat constructor; cbn; lia).
  assert (H1 : eventsRoute demoOpts demoWorld = (fst first, snd first))
    by (vm_compute; reflexivity).
  assert (H2 : eventsRoute demoOpts (fst first) = (fst second, snd second))
    by (vm_compute; reflexivity).
  assert (H3 : terminate (snd first) [ReqClose] (fst second) = (fst closed, snd closed))
    by (vm_compute; reflexivity).
  destruct (closing_one_connection_spares_the_other demoOpts demoOpts demoWorld
              [ReqClose] _ _ _ _ _ _ demoWorld_wellFormed Hvalid Hvalid
              ltac:(discriminate) H1 H2 H3)
    as (Hlog & Hsources & _ & Htimers & _).
  split; [exact Hlog|]. split; [exact Hsources|].
  rewrite Htimers. vm_compute. reflexivity.
Defined.
End TwoConnections.

(** * Frames on the stream *)

Section Frames.
Import Sse.
Variable JSON_stringify : JsValue -> string.

Lemma NoDup_eventNames : NoDup eventNames.
Proof.
  unfold eventNames.
  repeat (apply NoDup_cons; split;
          [intros H; repeat (apply elem_of_cons in H as [H|H]; [discriminate H|]);
           now apply elem_of_nil in H|]).
  apply NoDup_nil. exact I.
Qed.

Lemma count_in_NoDup (l : list string) x :
  NoDup l ->
  length (List.filter (fun y => String.eqb y x) l) = if includes l x then 1%nat else 0%nat.
Proof.
  unfold includes. induction 1 as [|y l Hy _ IH]; [reflexivity|].
  cbn. rewrite (String.eqb_sym x y).
  destruct (String.eqb_spec y x) as [->|Hne]; cbn; [|exact IH].
  rewrite IH. replace (existsb (String.eqb x) l) with false; [reflexivity|].
  symmetry. apply not_true_is_false. intros Hex.
  apply existsb_exists in Hex as (z & Hz & Heq).
  apply String.eqb_eq in Heq as <-. apply Hy, list_elem_of_In, Hz.
Qed.

Lemma entriesOn_listenersFrom q ev next ts :
  List.map (fun l => (qe l, event l)) (entriesOn q ev (listenersFrom next ts))
    = List.filter (fun t => Nat.eqb (fst t) q && String.eqb (snd t) ev) ts.
Proof.
  revert next. induction ts as [|[q0 ev0] ts IH]; intros next; [reflexivity|].
  cbn [listenersFrom entriesOn List.filter qe event fst snd].
  fold (entriesOn q ev (listenersFrom (S next) ts)).
  destruct (Nat.eqb q0 q && String.eqb ev0 ev); cbn; now rewrite IH.
Qed.

Lemma targets_count q ev qs :
  length (List.filter (fun t => Nat.eqb (fst t) q && String.eqb (snd t) ev) (targets qs))
    = if includes eventNames ev then occurrences q qs else 0%nat.
Proof.
  unfold targets, occurrences. induction qs as [|q0 qs IH].
  - cbn [flat_map List.filter length]. now destruct (includes eventNames ev).
  - cbn [flat_map]. rewrite List.filter_app, length_app, IH. clear IH.
    cbn [List.filter]. rewrite (Nat.eqb_sym q q0).
    assert (Hhere : length (List.filter
                      (fun t : nat * string => Nat.eqb (fst t) q && String.eqb (snd t) ev)
                      (List.map (fun ev0 => (q0, ev0)) eventNames))
                    = if Nat.eqb q0 q
                      then length (List.filter (fun y => String.eqb y ev) eventNames)
                      else 0%nat).
    { generalize eventNames as names. induction names as [|y names IHn].
      - now destruct (Nat.eqb q0 q).
      - cbn. destruct (Nat.eqb q0 q); cbn; [|exact IHn].
        destruct (String.eqb y ev); cbn; now rewrite IHn. }
    rewrite Hhere, (count_in_NoDup _ _ NoDup_eventNames).
    destruct (Nat.eqb q0 q), (includes eventNames ev); cbn; lia.
Qed.

Lemma entriesOn_count q ev next qs :
  length (entriesOn q ev (listenersFrom next (targets qs)))
    = if includes eventNames ev then occurrences q qs else 0%nat.
Proof.
  rewrite <- (length_map (fun l => (qe l, event l))), entriesOn_listenersFrom.
  apply targets_count.
Qed.

Lemma find_own_handler next ts l :
  l ∈ listenersFrom next ts ->
  List.find (fun l' => Nat.eqb (handler l') (handler l)) (listenersFrom next ts) = Some l.
Proof.
  revert next. induction ts as [|[q0 ev0] ts IH]; intros next Hl.
  - now apply elem_of_nil in Hl.
  - cbn [listenersFrom] in *. apply elem_of_cons in Hl as [->|Hl].
    + cbn. now rewrite Nat.eqb_refl.
    + cbn. pose proof (listenersFrom_range _ _ _ Hl) as Hrange.
      destruct (Nat.eqb_spec next (handler l)); [lia|]. now apply IH.
Qed.

Lemma find_foreign_handler next ts h :
  (h < next)%nat ->
  List.find (fun l' => Nat.eqb (handler l') h) (listenersFrom next ts) = None.
Proof.
  intros Hh. revert next Hh. induction ts as [|[q0 ev0] ts IH]; intros next Hh.
  - reflexivity.
  - cbn. destruct (Nat.eqb_spec next h); [lia|]. apply IH. lia.
Qed.
End Frames.

Section FanOut.
Import Sse.
Variable JSON_stringify : JsValue -> string.

Lemma flat_map_all_nil {A B} (f : A -> list B) l :
  (forall x, x ∈ l -> f x = []) -> flat_map f l = [].
Proof.
  induction l as [|x l IH]; intros H; [reflexivity|].
  cbn. rewrite (H x), IH; [reflexivity| |apply elem_of_cons; now left].
  intros y Hy. apply H, elem_of_cons. now right.
Qed.

Lemma flat_map_all_one {A B} (f : A -> list B) l b :
  (forall x, x ∈ l -> f x = [b]) -> flat_map f l = repeat b (length l).
Proof.
  induction l as [|x l IH]; intros H; [reflexivity|].
  cbn. rewrite (H x), IH; [reflexivity| |apply elem_of_cons; now left].
  intros y Hy. apply H, elem_of_cons. now right.
Qed.

Lemma own_registrations q ev (ls : list Listener) :
  List.map snd
    (List.filter (fun r : string * nat => String.eqb (fst r) ev)
       (List.map (fun l => (event l, handler l))
          (List.filter (fun l => Nat.eqb (qe l) q) ls)))
    = List.map handler (entriesOn q ev ls).
Proof.
  induction ls as [|l ls IH]; [reflexivity|].
  cbn [List.filter entriesOn]. fold (entriesOn q ev ls).
  destruct (Nat.eqb (qe l) q); cbn; [|exact IH].
  destruct (String.eqb (event l) ev); cbn; now rewrite IH.
Qed.

(** X17.  While a connection is open, an event emitted by a source under
    one of the seven event names is written to the connection once for every
    time the source is configured, as the frame [data: <json>] followed by a
    blank line, the JSON naming that source, that event and the payload; an
    event under any other name writes nothing; and a tick of the heartbeat
    writes the comment frame. *)
Theorem events_reach_an_open_connection opts (w w1 : World) conn q e payload :
  wellFormed w ->
  eventsRoute opts w = (w1, conn) ->
  sources w !! q = Some e ->
  (forall ev,
     written JSON_stringify w1 conn q ev payload =
       if includes eventNames ev
       then repeat ("data: " +:+
                    JSON_stringify (VObj [("queue", VStr (name e)); ("event", VStr ev);
                                          ("payload", payload)]) +:+
                    newline +:+ newline)
                   (occurrences q (configuredSources opts))
       else []) /\
  heartbeatWritten w1 conn = [": heartbeat" +:+ newline +:+ newline].
Proof.
  intros [Hhandlers _] Hopen He. unfold eventsRoute in Hopen.
  rewrite openConnection_eq in Hopen. cbn zeta in Hopen. injection Hopen as <- <-.
  set (ls := listenersFrom (nextHandler w) (targets (configuredSources opts))).
  split.
  - intros ev. unfold written, fired. cbn [sources listeners].
    rewrite (registerAll_lookup ls _ q e He). cbn [registered].
    rewrite List.filter_app, List.map_app, flat_map_app, own_registrations.
    rewrite flat_map_all_nil.
    + cbn [app]. rewrite flat_map_concat_map, List.map_map, <- flat_map_concat_map.
      rewrite (flat_map_all_one _ _
        ("data: " +:+
         JSON_stringify (VObj [("queue", VStr (name e)); ("event", VStr ev);
                               ("payload", payload)]) +:+ newline +:+ newline)).
      * subst ls. rewrite entriesOn_count.
        now destruct (includes eventNames ev).
      * intros l Hl. apply list_elem_of_In, filter_In in Hl as [Hl Hon].
        apply andb_prop in Hon as [Hq Hev].
        apply Nat.eqb_eq in Hq. apply String.eqb_eq in Hev.
        subst ls. rewrite find_own_handler by (apply list_elem_of_In, Hl).
        unfold frameOf. cbn [sources].
        rewrite Hq, (registerAll_lookup _ _ q e He), Hev. reflexivity.
    + intros h Hh. apply list_elem_of_In, in_map_iff in Hh as (r & <- & Hr).
      apply filter_In in Hr as [Hr _].
      subst ls. rewrite find_foreign_handler; [reflexivity|].
      apply (Hhandlers e r); [eapply list_elem_of_lookup_2, He|].
      apply list_elem_of_In, Hr.
  - unfold heartbeatWritten. cbn [heartbeat timers].
    rewrite existsb_app. cbn. now rewrite Nat.eqb_refl, orb_true_r.
Qed.

End FanOut.

Lemma events_reach_an_open_connection_witness :
  let stringify := fun _ : JsValue => "<json>" in
  let w1 := fst (eventsRoute demoOpts demoWorld) in
  let conn := snd (eventsRoute demoOpts demoWorld) in
  let frame := "data: <json>" +:+ newline +:+ newline in
  written stringify w1 conn 0 "failed" VNull = [frame; frame] /\
  written stringify w1 conn 0 "drained" VNull = [].
Proof.
  intros stringify w1 conn frame.
  assert (Hopen : eventsRoute demoOpts demoWorld = (w1, conn))
    by (vm_compute; reflexivity).
  destruct (events_reach_an_open_connection stringify demoOpts demoWorld w1 conn 0
              {| Sse.name := "payments"; Sse.registered := [("completed", 0%nat)] |}
              VNull demoWorld_wellFormed Hopen eq_refl) as [H _].
  split; [exact (H "failed")|exact (H "drained")].
Defined.

Section Silence.
Import Sse.
Variable JSON_stringify : JsValue -> string.

Lemma terminate_after_open queueEvents (w : World) evs :
  wellFormed w ->
  Forall (fun q => (q < length (sources w))%nat) queueEvents ->
  evs <> [] ->
  terminate (snd (openConnection queueEvents w)) evs (fst (openConnection queueEvents w)) =
    ({| sources := sources w;
        nextHandler := nextHandler w + length (targets queueEvents);
        timers := timers w;
        nextTimer := S (nextTimer w) |},
     List.map handler (listenersFrom (nextHandler w) (targets queueEvents))).
Proof.
  intros Hwf Hvalid Hevs. destruct evs as [|ev evs]; [contradiction|].
  cbn [terminate]. rewrite (cleanup_first _ _ Hwf Hvalid).
  destruct Hwf as [Hhandlers Htimers].
  rewrite terminate_again.
  - now rewrite app_nil_r.
  - rewrite openConnection_eq. cbn [snd heartbeat timers].
    intros Hin. apply Htimers in Hin. lia.
  - rewrite openConnection_eq. cbn [snd listeners sources].
    intros l Hl e r He Hr Heq. specialize (Hhandlers e r He Hr).
    apply listenersFrom_range in Hl. lia.
Qed.

(** X18.  After its terminal event a connection is never written to again:
    whatever a source emits, under whatever name, none of the connection's
    handlers fires, and its heartbeat no longer ticks. *)
Theorem a_closed_connection_is_silent opts (w : World) (evs : list Terminal)
    w1 conn w2 log q ev payload :
  wellFormed w ->
  Forall (fun q => (q < length (sources w))%nat) (configuredSources opts) ->
  evs <> [] ->
  eventsRoute opts w = (w1, conn) ->
  terminate conn evs w1 = (w2, log) ->
  written JSON_stringify w2 conn q ev payload = [] /\
  heartbeatWritten w2 conn = [].
Proof.
  intros Hwf Hvalid Hevs Hopen Hterm. unfold eventsRoute in Hopen.
  pose proof (terminate_after_open _ w evs Hwf Hvalid Hevs) as Hdone.
  rewrite Hopen in Hdone. cbn [fst snd] in Hdone. rewrite Hterm in Hdone.
  injection Hdone as -> _.
  rewrite openConnection_eq in Hopen. cbn zeta in Hopen. injection Hopen as _ <-.
  destruct Hwf as [Hhandlers Htimers]. split.
  - unfold written, fired. cbn [sources listeners].
    destruct (sources w !! q) as [e|] eqn:He; [|reflexivity].
    apply flat_map_all_nil. intros h Hh.
    apply list_elem_of_In, in_map_iff in Hh as (r & <- & Hr).
    apply filter_In in Hr as [Hr _].
    rewrite find_foreign_handler; [reflexivity|].
    apply (Hhandlers e r); [eapply list_elem_of_lookup_2, He|].
    apply list_elem_of_In, Hr.
  - unfold heartbeatWritten. cbn [heartbeat timers].
    replace (existsb (Nat.eqb (nextTimer w)) (timers w)) with false; [reflexivity|].
    symmetry. apply not_true_is_false. intros Hex.
    apply existsb_exists in Hex as (t & Ht & Heq). apply Nat.eqb_eq in Heq. subst t.
    apply list_elem_of_In, Htimers in Ht. lia.
Qed.
End Silence.

Lemma a_closed_connection_is_silent_witness :
  let stringify := fun _ : JsValue => "<json>" in
  let w1 := fst (eventsRoute demoOpts demoWorld) in
  let conn := snd (eventsRoute demoOpts demoWorld) in
  let w2 := fst (Sse.terminate conn [Sse.ResError; Sse.ReqClose] w1) in
  written stringify w2 conn 0 "completed" VNull = [] /\
  heartbeatWritten w2 conn = [].
Proof.
  intros stringify w1 conn w2.
  assert (Hvalid : Forall (fun q => (q < length (Sse.sources demoWorld))%nat)
                     (configuredSources demoOpts))
    by (repeat constructor; cbn; lia).
  assert (Hopen : eventsRoute demoOpts demoWorld = (w1, conn))
    by (vm_compute; reflexivity).
  assert (Hterm : Sse.terminate conn [Sse.ResError; Sse.ReqClose] w1
                  = (w2, snd (Sse.terminate conn [Sse.ResError; Sse.ReqClose] w1)))
    by (vm_compute; reflexivity).
  exact (a_closed_connection_is_silent stringify demoOpts demoWorld
           [Sse.ResError; Sse.ReqClose] w1 conn w2 _ 0 "completed" VNull
           demoWorld_wellFormed Hvalid ltac:(discriminate) Hopen Hterm).
Defined.

(** X19.  Opening a connection adds, on every source, one listener under
    each of the seven event names for every time the source is configured,
    and none under any other name; they stay until a terminal event. *)
Theorem an_open_connection_listens opts (w w1 : Sse.World) conn q e :
  eventsRoute opts w = (w1, conn) ->
  Sse.sources w !! q = Some e ->
  forall ev,
    Sse.listenerCount w1 q ev =
      (Sse.listenerCount w q ev +
       if includes Sse.eventNames ev then occurrences q (configuredSources opts) else 0)%nat.
Proof.
  intros Hopen He ev. unfold eventsRoute in Hopen.
  rewrite openConnection_eq in Hopen. cbn zeta in Hopen. injection Hopen as <- _.
  unfold Sse.listenerCount. cbn [Sse.sources].
  rewrite (registerAll_lookup _ _ q e He), He. cbn [Sse.registered].
  rewrite List.filter_app, length_app. f_equal.
  rewrite <- (length_map snd), own_registrations, length_map.
  apply entriesOn_count.
Qed.

Lemma an_open_connection_listens_witness :
  Sse.listenerCount (fst (eventsRoute demoOpts demoWorld)) 0 "completed" = 3%nat /\
  Sse.listenerCount (fst (eventsRoute demoOpts demoWorld)) 1 "stalled" = 1%nat /\
  Sse.listenerCount (fst (eventsRoute demoOpts demoWorld)) 1 "drained" = 0%nat.
Proof.
  assert (Hopen : eventsRoute demoOpts demoWorld
                  = (fst (eventsRoute demoOpts demoWorld),
                     snd (eventsRoute demoOpts demoWorld)))
    by (vm_compute; reflexivity).
  split; [|split].
  - exact (an_open_connection_listens demoOpts demoWorld _ _ 0 _ Hopen eq_refl "completed").
  - exact (an_open_connection_listens demoOpts demoWorld _ _ 1 _ Hopen eq_refl "stalled").
  - exact (an_open_connection_listens demoOpts demoWorld _ _ 1 _ Hopen eq_refl "drained").
Defined.

(** * The page cache *)

(** X20.  The dashboard page is read from disk at most once per call, and
    not at all once a page has been served: after a call that returned a
    non-empty page, every later call returns that same page without touching
    the file system, even if the file has since changed or gone. *)
Theorem page_is_read_once readFileSync join dirname cache html cache' reads :
  getDashboardHtml readFileSync join dirname cache = (Resolved html, cache', reads) ->
  html <> EmptyString ->
  (length reads <= 1)%nat /\
  forall readFileSync',
    getDashboardHtml readFileSync' join dirname cache' = (Resolved html, cache', []).
Proof.
  unfold getDashboardHtml. intros Hcall Hne.
  destruct (given cache) eqn:Hgiven.
  - injection Hcall as <- <- <-. split; [cbn; lia|]. intros rfs. now rewrite Hgiven.
  - destruct (readFileSync _) as [page|e]; [|discriminate].
    injection Hcall as <- <- <-. split; [cbn; lia|]. intros rfs.
    assert (Hnow : given (Some page) = true).
    { cbn. now destruct (String.eqb_spec page EmptyString). }
    now rewrite Hnow.
Qed.

Lemma page_is_read_once_witness :
  let disk := fun _ : string => Resolved "<html>glide-mq</html>" in
  let gone := fun _ : string => @Rejected string (ThrowError "ENOENT") in
  let join := fun parts : list string => joinWith "/" parts in
  getDashboardHtml gone join "/app/dist"
    (snd (fst (getDashboardHtml disk join "/app/dist" None)))
    = (Resolved "<html>glide-mq</html>", Some "<html>glide-mq</html>", []).
Proof.
  intros disk gone join.
  destruct (page_is_read_once disk join "/app/dist" None "<html>glide-mq</html>"
              (Some "<html>glide-mq</html>") ["/app/dist/dashboard-ui.html"]
              eq_refl ltac:(discriminate)) as [_ H].
  exact (H gone).
Defined.

(** X21.  What the page cache does not keep.  A read that throws leaves the
    cache as it was, so the next call tries the disk again; and an empty
    page, though stored, does not count as cached: every call reads the file
    anew. *)
Theorem page_cache_misses readFileSync join dirname :
  (forall cache e cache' reads,
     getDashboardHtml readFileSync join dirname cache = (Rejected e, cache', reads) ->
     cache' = cache /\ reads = [join [dirname; "dashboard-ui.html"]]) /\
  (readFileSync (join [dirname; "dashboard-ui.html"]) = Resolved EmptyString ->
   forall cache, cache = None \/ cache = Some EmptyString ->
     getDashboardHtml readFileSync join dirname cache
       = (Resolved EmptyString, Some EmptyString, [join [dirname; "dashboard-ui.html"]])).
Proof.
  unfold getDashboardHtml. split.
  - intros cache e cache' reads. destruct (given cache); [discriminate|].
    destruct (readFileSync _); [discriminate|]. now intros [= _ <- <-].
  - intros Hempty cache [-> | ->]; cbn; now rewrite Hempty.
Qed.

Lemma page_cache_misses_witness :
  let empty := fun _ : string => Resolved EmptyString in
  let join := fun parts : list string => joinWith "/" parts in
  getDashboardHtml empty join "/app/dist"
    (snd (fst (getDashboardHtml empty join "/app/dist" None)))
    = (Resolved EmptyString, Some EmptyString, ["/app/dist/dashboard-ui.html"]).
Proof.
  intros empty join.
  destruct (page_cache_misses empty join "/app/dist") as [_ H].
  apply (H eq_refl). right. reflexivity.
Defined.

(** X22.  The earlier variant of the page loader never throws.  It serves
    the copy under [../src] if that can be read, else the copy beside the
    module, else the placeholder; and what it served, if not empty, is kept:
    once the placeholder has been served the real page is not looked for
    again. *)
Theorem legacy_page_falls_back readFileSync join dirname PLACEHOLDER_HTML :
  let first := join [dirname; ".."; "src"; "dashboard-ui.html"] in
  let second := join [dirname; "dashboard-ui.html"] in
  let served :=
    match readFileSync first, readFileSync second with
    | Resolved html, _ => html
    | Rejected _, Resolved html => html
    | Rejected _, Rejected _ => PLACEHOLDER_HTML
    end in
  exists reads,
    Legacy.getDashboardHtml readFileSync join dirname PLACEHOLDER_HTML None
      = (Resolved served, Some served, reads) /\
    (served <> EmptyString ->
     forall readFileSync',
       Legacy.getDashboardHtml readFileSync' join dirname PLACEHOLDER_HTML (Some served)
         = (Resolved served, Some served, [])).
Proof.
  intros first second served. subst served. unfold Legacy.getDashboardHtml.
  fold first second. change (given None) with false. cbv iota.
  assert (Hkept : forall page, page <> EmptyString -> given (Some page) = true).
  { intros page Hne. cbn. now destruct (String.eqb_spec page EmptyString). }
  destruct (readFileSync first) as [page|e1]; [|destruct (readFileSync second) as [page|e2]];
    eexists; (split; [reflexivity|]); intros Hne rfs; now rewrite (Hkept _ Hne).
Qed.

Lemma legacy_page_falls_back_witness :
  let gone := fun _ : string => @Rejected string (ThrowError "ENOENT") in
  let back := fun _ : string => Resolved "<html>real page</html>" in
  let join := fun parts : list string => joinWith "/" parts in
  Legacy.getDashboardHtml back join "/app/dist" "<html>loading</html>"
    (snd (fst (Legacy.getDashboardHtml gone join "/app/dist" "<html>loading</html>" None)))
    = (Resolved "<html>loading</html>", Some "<html>loading</html>", []).
Proof.
  intros gone back join.
  destruct (legacy_page_falls_back gone join "/app/dist" "<html>loading</html>")
    as (reads & _ & H).
  exact (H ltac:(discriminate) back).
Defined.

(** * One call after the other *)

Lemma stops_ret {A} (a : A) : stopsAtFailure (ret a).
Proof. reflexivity. Qed.

Lemma stops_await {A} queue call (o : Outcome A) : stopsAtFailure (await queue call o).
Proof.
  destruct o as [a|e]; cbn; [reflexivity|].
  exists [], queue, call. split; reflexivity.
Qed.

Lemma stops_bind {A B} (m : Task A) (k : A -> Task B) :
  stopsAtFailure m -> (forall a, stopsAtFailure (k a)) -> stopsAtFailure (bind m k).
Proof.
  destruct m as [tr [a|e]]; cbn; intros Hm Hk; [|exact Hm].
  specialize (Hk a). destruct (k a) as [tr' [b|e]]; cbn in *.
  - now rewrite failures_app, Hm, Hk.
  - destruct Hk as (before & queue & call & -> & Hbefore).
    exists (tr ++ before), queue, call. split; [now rewrite app_assoc|].
    now rewrite failures_app, Hm, Hbefore.
Qed.

Lemma halts_fail st message : haltsAtFailure (fail st message).
Proof. now left. Qed.

Lemma halts_uncaught : haltsAtFailure uncaught.
Proof. now left. Qed.

Lemma halts_tryCatch t : stopsAtFailure t -> haltsAtFailure (tryCatch t).
Proof.
  destruct t as [tr [r|e]]; cbn; intros Ht; [now left|].
  destruct Ht as (before & queue & call & -> & Hbefore).
  right. exists before, queue, call, e. repeat split. exact Hbefore.
Qed.

Lemma halts_guarded g rest :
  failures (fst g) = [] -> haltsAtFailure rest -> haltsAtFailure (guarded g rest).
Proof.
  destruct g as [tr [[[|] written]|e]]; unfold haltsAtFailure;
    cbn [fst guarded trace response]; intros Hg Hrest; [|now left..].
  destruct Hrest as [Hnone|(before & queue & call & e & -> & Hbefore & Hresponse)].
  - left. now rewrite failures_app, Hg, Hnone.
  - right. exists (tr ++ before), queue, call, e.
    split; [now rewrite app_assoc|]. split; [|exact Hresponse].
    now rewrite failures_app, Hg, Hbefore.
Qed.

Ltac stopping :=
  repeat first
    [ apply stops_ret
    | apply stops_await
    | apply stops_bind; [|intros ?]
    | match goal with
      | |- stopsAtFailure (match ?x with _ => _ end) => destruct x
      | |- stopsAtFailure (if ?x then _ else _) => destruct x
      end ].

Ltac halting :=
  repeat first
    [ apply halts_fail
    | apply halts_uncaught
    | apply halts_tryCatch; stopping
    | apply halts_guarded; [apply guardMutation_failures|]
    | match goal with
      | |- haltsAtFailure (match ?x with _ => _ end) => destruct x
      | |- haltsAtFailure (if ?x then _ else _) => destruct x
      end ].

(** X23.  A route that issues its engine calls one after the other (every
    route but the queue overview, the metrics and the merged listing) stops
    at the first call that fails: the failing call is the last thing the
    handler does, no call before it failed, and the answer is that
    failure's. *)
Theorem a_sequential_route_stops_at_the_first_failure
    JSON_parse queues opts order (r : Route) req :
  sequential r req = true ->
  let h := handle JSON_parse queues opts order r req in
  failures (trace h) = [] \/
  exists before queue call e,
    trace h = before ++ [Engine queue call (Some e)] /\
    failures before = [] /\
    response h = Some (safeError e 500).
Proof.
  intros Hseq. change (haltsAtFailure (handle JSON_parse queues opts order r req)).
  destruct r as [| | | | | | | |m]; try discriminate Hseq; cbn -[guardMutation];
    [| | | | | |destruct m; cbn -[guardMutation]].
  all: unfold listJobs, getJobRoute, workersRoute, schedulersRoute,
         dlqRoute, searchRoute, pauseRoute, resumeRoute,
         obliterateRoute, drainRoute, retryAllRoute, cleanRoute,
         removeJobRoute, retryJobRoute, promoteJobRoute, queueNotFound, jobNotFound, ok.
  1: { cbn in Hseq. rewrite Hseq. halting. }
  all: halting.
Qed.

Lemma a_sequential_route_stops_at_the_first_failure_witness :
  let job := {| Job.id := "j1"; Job.name := "test-job"; Job.data := VNull;
                Job.opts := VNull; Job.progress := VNull; Job.attemptsMade := VNull;
                Job.failedReason := VNull; Job.returnvalue := VNull;
                Job.timestamp := None; Job.processedOn := VNull;
                Job.finishedOn := VNull;
                Job.remove := Rejected (ThrowError "job is locked");
                Job.retry := Resolved tt; Job.promote := Resolved tt;
                Job.getState := Resolved "active" |} in
  let h := handle (fun _ => None) [mockQueue "q" [job]] None [] (Mutating DeleteJob)
             (request "q" [] VUndefined) in
  trace h = [Engine "q" (GetJob "j1") None;
             Engine "q" (JobRemove "j1") (Some (ThrowError "job is locked"))] /\
  response h = Some (reply 500 (errorBody "job is locked")).
Proof.
  intros job h.
  destruct (a_sequential_route_stops_at_the_first_failure (fun _ => None)
              [mockQueue "q" [job]] None [] (Mutating DeleteJob)
              (request "q" [] VUndefined) eq_refl)
    as [Hnone|(before & queue & call & e & Htrace & _ & Hresponse)].
  - discriminate Hnone.
  - assert (Hh : trace h = [Engine "q" (GetJob "j1") None;
                            Engine "q" (JobRemove "j1") (Some (ThrowError "job is locked"))])
      by reflexivity.
    split; [exact Hh|].
    subst h. rewrite Hh in Htrace.
    destruct before as [|b0 [|b1 [|b2 before]]]; try discriminate Htrace.
    injection Htrace. intros. subst. exact Hresponse.
Defined.

(** * The limit of clean *)

(** X24.  On a clean request whose [grace] and [type] pass validation the
    limit decides what the engine is asked.  When the body's [limit] cannot
    be converted to a string the handler ends without an answer and without
    calling the engine.  Otherwise [clean] is called with the limit 100 when
    [limit] is missing, unparseable or zero, the smaller of [n] and 1000
    when it parses to a positive [n], and [n] itself when it parses to a
    negative [n]: as with the other numeric parameters, nothing raises it
    from below. *)
Theorem clean_limit_defaults_to_100 queues opts req queue g ty :
  passes (guardMutation req opts queue_clean) = true ->
  findQueue queues req = Some queue ->
  parseIntValue (optField (body req) "grace") = Resolved (Some g) ->
  0 <= g ->
  optField (body req) "type" = VStr ty ->
  ty = "completed" \/ ty = "failed" ->
  let h := cleanRoute queues opts req in
  (optField (body req) "limit" = VUndefined ->
     parseIntValue (optField (body req) "limit") = Resolved None) /\
  match parseIntValue (optField (body req) "limit") with
  | Rejected _ => response h = None /\ List.filter isEngine (trace h) = []
  | Resolved n =>
      exists limit,
        List.filter isEngine (trace h)
          = [Engine (Queue.name queue) (Clean g limit ty)
               (failureOf (Queue.clean queue g limit ty))] /\
        (n = None \/ n = Some 0 -> limit = 100) /\
        (forall k, n = Some k -> 1 <= k -> limit = Z.min k 1000) /\
        (forall k, n = Some k -> k < 0 -> limit = k)
  end.
Proof.
  intros Hpass Hq Hgrace Hpos Htype Hty h.
  split; [intros ->; reflexivity|].
  destruct (passes_inv _ Hpass) as (tr & written & Hg).
  subst h. unfold cleanRoute. rewrite (guarded_pass _ _ _ _ Hg), Hq, Hgrace, Htype.
  cbn [trace response]. rewrite !List.filter_app, (guardMutation_trace _ _ _ _ _ Hg).
  destruct (parseIntValue (optField (body req) "limit")) as [n|e]; [|now split].
  exists (Z.min (orElse n 100) 1000). split.
  - destruct (Z.ltb_spec g 0); [lia|].
    replace (negb (String.eqb ty "completed") && negb (String.eqb ty "failed"))
      with false by (destruct Hty as [-> | ->]; reflexivity).
    now destruct (Queue.clean queue g (Z.min (orElse n 100) 1000) ty).
  - split; [intros [-> | ->]; reflexivity|].
    split; intros k -> Hk; cbn; destruct (Z.eqb_spec k 0); lia.
Qed.

Lemma clean_limit_defaults_to_100_witness :
  let req := request "q" [] (VObj [("grace", VNum 0); ("limit", VNum (-5));
                                   ("type", VStr "failed")]) in
  let broken := request "q" [] (VObj [("grace", VNum 0);
                                      ("limit", VObj [("toString", VNum 1)]);
                                      ("type", VStr "failed")]) in
  List.filter isEngine (trace (cleanRoute [mockQueue "q" []] None req))
    = [Engine "q" (Clean 0 (-5) "failed") None] /\
  response (cleanRoute [mockQueue "q" []] None broken) = None.
Proof.
  intros req broken. split.
  - pose proof (clean_limit_defaults_to_100 [mockQueue "q" []] None req (mockQueue "q" [])
                  0 "failed" eq_refl eq_refl eq_refl ltac:(lia) eq_refl
                  (or_intror eq_refl)) as [_ H].
    cbv zeta in H.
    change (parseIntValue (optField (body req) "limit"))
      with (@Resolved (option Z) (Some (-5))) in H.
    destruct H as (limit & Htrace & _ & _ & Hneg).
    rewrite Htrace, (Hneg (-5) eq_refl ltac:(lia)). reflexivity.
  - pose proof (clean_limit_defaults_to_100 [mockQueue "q" []] None broken
                  (mockQueue "q" []) 0 "failed" eq_refl eq_refl eq_refl ltac:(lia)
                  eq_refl (or_intror eq_refl)) as [_ H].
    cbv zeta in H.
    change (parseIntValue (optField (body broken) "limit"))
      with (@Rejected (option Z) typeError) in H.
    exact (proj1 H).
Defined.
